(** * Digest pipeline and context store of the productivity agent

    A shallow embedding of [src/email-processor.js] and
    [src/context-manager.js], and the properties their specification
    states about them.

    JavaScript strings are sequences of UTF-16 code units; they are
    modelled as lists of numbers ([N]).  Regular expressions are given by
    their syntax trees and run by a backtracking matcher that lists the
    possible ends of a match in the priority order ECMAScript prescribes,
    so that the first element is the match the engine reports. *)

From Stdlib Require Import String Ascii DecimalString.
From Stdlib Require Import List NArith Bool Arith Lia.
Import ListNotations.

Set Implicit Arguments.

(** ** Strings *)

Module JsString.

Abbreviation codeunit := N (only parsing).
Abbreviation jsstring := (list N) (only parsing).

(** A literal of the source, from its (Basic Latin) text. *)
Definition u (s : string) : jsstring :=
  map N_of_ascii (list_ascii_of_string s).

Fixpoint eqb (a b : jsstring) : bool :=
  match a, b with
  | [], [] => true
  | x :: a', y :: b' => (x =? y)%N && eqb a' b'
  | _, _ => false
  end.

Definition in_range (lo hi c : codeunit) : bool :=
  ((lo <=? c) && (c <=? hi))%N.

(** LineTerminator: LF, CR, LS, PS. *)
Definition is_line_terminator (c : codeunit) : bool :=
  ((c =? 10) || (c =? 13) || (c =? 8232) || (c =? 8233))%N.

(** WhiteSpace and LineTerminator, the set of [\s] and of [trim]. *)
Definition is_white_space (c : codeunit) : bool :=
  (in_range 9 13 c || (c =? 32) || (c =? 160) || (c =? 5760)
   || in_range 8192 8202 c || (c =? 8232) || (c =? 8233) || (c =? 8239)
   || (c =? 8287) || (c =? 12288) || (c =? 65279))%N.

Definition is_digit (c : codeunit) : bool := in_range 48%N 57%N c.

(** [\w]: Basic Latin letters, digits and the underscore. *)
Definition is_word_char (c : codeunit) : bool :=
  (in_range 97 122 c || in_range 65 90 c || is_digit c || (c =? 95))%N.

(** Canonicalize of the [i] flag (without [u]): the upper-case mapping,
    which never sends a code unit above 127 to one below 128.  The
    patterns of this program only hold Basic Latin letters and caseless
    symbols, for which the mapping of Basic Latin decides every
    comparison. *)
Definition canonicalize (c : codeunit) : codeunit :=
  if in_range 97%N 122%N c then (c - 32)%N else c.

(** *** Case mapping

    [toLowerCase] is the Unicode Default Case Conversion: the string is
    read as code points (StringToCodePoints), every code point gets its
    lower-case mapping of UnicodeData.txt and of the language-insensitive
    part of SpecialCasing.txt, and the result is written back as code
    units (CodePointsToString).  The tables are those of version 14.0 of
    the Unicode Character Database. *)

(** The simple lower-case mappings, as [(first, last, step, target)]:
    the code points [first], [first + step], ... up to [last] go to
    [target], [target + step], ... *)
Definition lower_ranges : list (N * N * N * N) :=
  [
   (65, 90, 1, 97); (192, 214, 1, 224); (216, 222, 1, 248);
   (256, 302, 2, 257); (306, 310, 2, 307); (313, 327, 2, 314);
   (330, 374, 2, 331); (376, 376, 1, 255); (377, 381, 2, 378);
   (385, 385, 1, 595); (386, 388, 2, 387); (390, 390, 1, 596);
   (391, 391, 1, 392); (393, 394, 1, 598); (395, 395, 1, 396);
   (398, 398, 1, 477); (399, 399, 1, 601); (400, 400, 1, 603);
   (401, 401, 1, 402); (403, 403, 1, 608); (404, 404, 1, 611);
   (406, 406, 1, 617); (407, 407, 1, 616); (408, 408, 1, 409);
   (412, 412, 1, 623); (413, 413, 1, 626); (415, 415, 1, 629);
   (416, 420, 2, 417); (422, 422, 1, 640); (423, 423, 1, 424);
   (425, 425, 1, 643); (428, 428, 1, 429); (430, 430, 1, 648);
   (431, 431, 1, 432); (433, 434, 1, 650); (435, 437, 2, 436);
   (439, 439, 1, 658); (440, 440, 1, 441); (444, 444, 1, 445);
   (452, 452, 1, 454); (453, 453, 1, 454); (455, 455, 1, 457);
   (456, 456, 1, 457); (458, 458, 1, 460); (459, 475, 2, 460);
   (478, 494, 2, 479); (497, 497, 1, 499); (498, 500, 2, 499);
   (502, 502, 1, 405); (503, 503, 1, 447); (504, 542, 2, 505);
   (544, 544, 1, 414); (546, 562, 2, 547); (570, 570, 1, 11365);
   (571, 571, 1, 572); (573, 573, 1, 410); (574, 574, 1, 11366);
   (577, 577, 1, 578); (579, 579, 1, 384); (580, 580, 1, 649);
   (581, 581, 1, 652); (582, 590, 2, 583); (880, 882, 2, 881);
   (886, 886, 1, 887); (895, 895, 1, 1011); (902, 902, 1, 940);
   (904, 906, 1, 941); (908, 908, 1, 972); (910, 911, 1, 973);
   (913, 929, 1, 945); (931, 939, 1, 963); (975, 975, 1, 983);
   (984, 1006, 2, 985); (1012, 1012, 1, 952); (1015, 1015, 1, 1016);
   (1017, 1017, 1, 1010); (1018, 1018, 1, 1019); (1021, 1023, 1, 891);
   (1024, 1039, 1, 1104); (1040, 1071, 1, 1072); (1120, 1152, 2, 1121);
   (1162, 1214, 2, 1163); (1216, 1216, 1, 1231); (1217, 1229, 2, 1218);
   (1232, 1326, 2, 1233); (1329, 1366, 1, 1377); (4256, 4293, 1, 11520);
   (4295, 4295, 1, 11559); (4301, 4301, 1, 11565); (5024, 5103, 1, 43888);
   (5104, 5109, 1, 5112); (7312, 7354, 1, 4304); (7357, 7359, 1, 4349);
   (7680, 7828, 2, 7681); (7838, 7838, 1, 223); (7840, 7934, 2, 7841);
   (7944, 7951, 1, 7936); (7960, 7965, 1, 7952); (7976, 7983, 1, 7968);
   (7992, 7999, 1, 7984); (8008, 8013, 1, 8000); (8025, 8031, 2, 8017);
   (8040, 8047, 1, 8032); (8072, 8079, 1, 8064); (8088, 8095, 1, 8080);
   (8104, 8111, 1, 8096); (8120, 8121, 1, 8112); (8122, 8123, 1, 8048);
   (8124, 8124, 1, 8115); (8136, 8139, 1, 8050); (8140, 8140, 1, 8131);
   (8152, 8153, 1, 8144); (8154, 8155, 1, 8054); (8168, 8169, 1, 8160);
   (8170, 8171, 1, 8058); (8172, 8172, 1, 8165); (8184, 8185, 1, 8056);
   (8186, 8187, 1, 8060); (8188, 8188, 1, 8179); (8486, 8486, 1, 969);
   (8490, 8490, 1, 107); (8491, 8491, 1, 229); (8498, 8498, 1, 8526);
   (8544, 8559, 1, 8560); (8579, 8579, 1, 8580); (9398, 9423, 1, 9424);
   (11264, 11311, 1, 11312); (11360, 11360, 1, 11361);
   (11362, 11362, 1, 619); (11363, 11363, 1, 7549); (11364, 11364, 1, 637);
   (11367, 11371, 2, 11368); (11373, 11373, 1, 593); (11374, 11374, 1, 625);
   (11375, 11375, 1, 592); (11376, 11376, 1, 594); (11378, 11378, 1, 11379);
   (11381, 11381, 1, 11382); (11390, 11391, 1, 575);
   (11392, 11490, 2, 11393); (11499, 11501, 2, 11500);
   (11506, 11506, 1, 11507); (42560, 42604, 2, 42561);
   (42624, 42650, 2, 42625); (42786, 42798, 2, 42787);
   (42802, 42862, 2, 42803); (42873, 42875, 2, 42874);
   (42877, 42877, 1, 7545); (42878, 42886, 2, 42879);
   (42891, 42891, 1, 42892); (42893, 42893, 1, 613);
   (42896, 42898, 2, 42897); (42902, 42920, 2, 42903);
   (42922, 42922, 1, 614); (42923, 42923, 1, 604); (42924, 42924, 1, 609);
   (42925, 42925, 1, 620); (42926, 42926, 1, 618); (42928, 42928, 1, 670);
   (42929, 42929, 1, 647); (42930, 42930, 1, 669); (42931, 42931, 1, 43859);
   (42932, 42946, 2, 42933); (42948, 42948, 1, 42900);
   (42949, 42949, 1, 642); (42950, 42950, 1, 7566);
   (42951, 42953, 2, 42952); (42960, 42960, 1, 42961);
   (42966, 42968, 2, 42967); (42997, 42997, 1, 42998);
   (65313, 65338, 1, 65345); (66560, 66599, 1, 66600);
   (66736, 66771, 1, 66776); (66928, 66964, 2, 66967);
   (66929, 66938, 1, 66968); (66941, 66954, 1, 66980);
   (66957, 66962, 1, 66996); (66965, 66965, 1, 67004);
   (68736, 68786, 1, 68800); (71840, 71871, 1, 71872);
   (93760, 93791, 1, 93792); (125184, 125217, 1, 125218) ]%N.

(** The code points with the property Cased, as ranges. *)
Definition cased_ranges : list (N * N) :=
  [
   (65, 90); (97, 122); (170, 170); (181, 181); (186, 186); (192, 214);
   (216, 246); (248, 442); (444, 447); (452, 659); (661, 696); (704, 705);
   (736, 740); (837, 837); (880, 883); (886, 887); (890, 893); (895, 895);
   (902, 902); (904, 906); (908, 908); (910, 929); (931, 1013);
   (1015, 1153); (1162, 1327); (1329, 1366); (1376, 1416); (4256, 4293);
   (4295, 4295); (4301, 4301); (4304, 4346); (4349, 4351); (5024, 5109);
   (5112, 5117); (7296, 7304); (7312, 7354); (7357, 7359); (7424, 7615);
   (7680, 7957); (7960, 7965); (7968, 8005); (8008, 8013); (8016, 8023);
   (8025, 8025); (8027, 8027); (8029, 8029); (8031, 8061); (8064, 8116);
   (8118, 8124); (8126, 8126); (8130, 8132); (8134, 8140); (8144, 8147);
   (8150, 8155); (8160, 8172); (8178, 8180); (8182, 8188); (8305, 8305);
   (8319, 8319); (8336, 8348); (8450, 8450); (8455, 8455); (8458, 8467);
   (8469, 8469); (8473, 8477); (8484, 8484); (8486, 8486); (8488, 8488);
   (8490, 8493); (8495, 8500); (8505, 8505); (8508, 8511); (8517, 8521);
   (8526, 8526); (8544, 8575); (8579, 8580); (9398, 9449); (11264, 11492);
   (11499, 11502); (11506, 11507); (11520, 11557); (11559, 11559);
   (11565, 11565); (42560, 42605); (42624, 42653); (42786, 42887);
   (42891, 42894); (42896, 42954); (42960, 42961); (42963, 42963);
   (42965, 42969); (42997, 42998); (43000, 43002); (43824, 43866);
   (43868, 43880); (43888, 43967); (64256, 64262); (64275, 64279);
   (65313, 65338); (65345, 65370); (66560, 66639); (66736, 66771);
   (66776, 66811); (66928, 66938); (66940, 66954); (66956, 66962);
   (66964, 66965); (66967, 66977); (66979, 66993); (66995, 67001);
   (67003, 67004); (67456, 67456); (67459, 67461); (67463, 67504);
   (67506, 67514); (68736, 68786); (68800, 68850); (71840, 71903);
   (93760, 93823); (119808, 119892); (119894, 119964); (119966, 119967);
   (119970, 119970); (119973, 119974); (119977, 119980); (119982, 119993);
   (119995, 119995); (119997, 120003); (120005, 120069); (120071, 120074);
   (120077, 120084); (120086, 120092); (120094, 120121); (120123, 120126);
   (120128, 120132); (120134, 120134); (120138, 120144); (120146, 120485);
   (120488, 120512); (120514, 120538); (120540, 120570); (120572, 120596);
   (120598, 120628); (120630, 120654); (120656, 120686); (120688, 120712);
   (120714, 120744); (120746, 120770); (120772, 120779); (122624, 122633);
   (122635, 122654); (125184, 125251); (127280, 127305); (127312, 127337);
   (127344, 127369) ]%N.

(** The code points with the property Case_Ignorable, as ranges. *)
Definition case_ignorable_ranges : list (N * N) :=
  [
   (39, 39); (46, 46); (58, 58); (94, 94); (96, 96); (168, 168); (173, 173);
   (175, 175); (180, 180); (183, 184); (688, 879); (884, 885); (890, 890);
   (900, 901); (903, 903); (1155, 1161); (1369, 1369); (1375, 1375);
   (1425, 1469); (1471, 1471); (1473, 1474); (1476, 1477); (1479, 1479);
   (1524, 1524); (1536, 1541); (1552, 1562); (1564, 1564); (1600, 1600);
   (1611, 1631); (1648, 1648); (1750, 1757); (1759, 1768); (1770, 1773);
   (1807, 1807); (1809, 1809); (1840, 1866); (1958, 1968); (2027, 2037);
   (2042, 2042); (2045, 2045); (2070, 2093); (2137, 2139); (2184, 2184);
   (2192, 2193); (2200, 2207); (2249, 2306); (2362, 2362); (2364, 2364);
   (2369, 2376); (2381, 2381); (2385, 2391); (2402, 2403); (2417, 2417);
   (2433, 2433); (2492, 2492); (2497, 2500); (2509, 2509); (2530, 2531);
   (2558, 2558); (2561, 2562); (2620, 2620); (2625, 2626); (2631, 2632);
   (2635, 2637); (2641, 2641); (2672, 2673); (2677, 2677); (2689, 2690);
   (2748, 2748); (2753, 2757); (2759, 2760); (2765, 2765); (2786, 2787);
   (2810, 2815); (2817, 2817); (2876, 2876); (2879, 2879); (2881, 2884);
   (2893, 2893); (2901, 2902); (2914, 2915); (2946, 2946); (3008, 3008);
   (3021, 3021); (3072, 3072); (3076, 3076); (3132, 3132); (3134, 3136);
   (3142, 3144); (3146, 3149); (3157, 3158); (3170, 3171); (3201, 3201);
   (3260, 3260); (3263, 3263); (3270, 3270); (3276, 3277); (3298, 3299);
   (3328, 3329); (3387, 3388); (3393, 3396); (3405, 3405); (3426, 3427);
   (3457, 3457); (3530, 3530); (3538, 3540); (3542, 3542); (3633, 3633);
   (3636, 3642); (3654, 3662); (3761, 3761); (3764, 3772); (3782, 3782);
   (3784, 3789); (3864, 3865); (3893, 3893); (3895, 3895); (3897, 3897);
   (3953, 3966); (3968, 3972); (3974, 3975); (3981, 3991); (3993, 4028);
   (4038, 4038); (4141, 4144); (4146, 4151); (4153, 4154); (4157, 4158);
   (4184, 4185); (4190, 4192); (4209, 4212); (4226, 4226); (4229, 4230);
   (4237, 4237); (4253, 4253); (4348, 4348); (4957, 4959); (5906, 5908);
   (5938, 5939); (5970, 5971); (6002, 6003); (6068, 6069); (6071, 6077);
   (6086, 6086); (6089, 6099); (6103, 6103); (6109, 6109); (6155, 6159);
   (6211, 6211); (6277, 6278); (6313, 6313); (6432, 6434); (6439, 6440);
   (6450, 6450); (6457, 6459); (6679, 6680); (6683, 6683); (6742, 6742);
   (6744, 6750); (6752, 6752); (6754, 6754); (6757, 6764); (6771, 6780);
   (6783, 6783); (6823, 6823); (6832, 6862); (6912, 6915); (6964, 6964);
   (6966, 6970); (6972, 6972); (6978, 6978); (7019, 7027); (7040, 7041);
   (7074, 7077); (7080, 7081); (7083, 7085); (7142, 7142); (7144, 7145);
   (7149, 7149); (7151, 7153); (7212, 7219); (7222, 7223); (7288, 7293);
   (7376, 7378); (7380, 7392); (7394, 7400); (7405, 7405); (7412, 7412);
   (7416, 7417); (7468, 7530); (7544, 7544); (7579, 7679); (8125, 8125);
   (8127, 8129); (8141, 8143); (8157, 8159); (8173, 8175); (8189, 8190);
   (8203, 8207); (8216, 8217); (8228, 8228); (8231, 8231); (8234, 8238);
   (8288, 8292); (8294, 8303); (8305, 8305); (8319, 8319); (8336, 8348);
   (8400, 8432); (11388, 11389); (11503, 11505); (11631, 11631);
   (11647, 11647); (11744, 11775); (11823, 11823); (12293, 12293);
   (12330, 12333); (12337, 12341); (12347, 12347); (12441, 12446);
   (12540, 12542); (40981, 40981); (42232, 42237); (42508, 42508);
   (42607, 42610); (42612, 42621); (42623, 42623); (42652, 42655);
   (42736, 42737); (42752, 42785); (42864, 42864); (42888, 42890);
   (42994, 42996); (43000, 43001); (43010, 43010); (43014, 43014);
   (43019, 43019); (43045, 43046); (43052, 43052); (43204, 43205);
   (43232, 43249); (43263, 43263); (43302, 43309); (43335, 43345);
   (43392, 43394); (43443, 43443); (43446, 43449); (43452, 43453);
   (43471, 43471); (43493, 43494); (43561, 43566); (43569, 43570);
   (43573, 43574); (43587, 43587); (43596, 43596); (43632, 43632);
   (43644, 43644); (43696, 43696); (43698, 43700); (43703, 43704);
   (43710, 43711); (43713, 43713); (43741, 43741); (43756, 43757);
   (43763, 43764); (43766, 43766); (43867, 43871); (43881, 43883);
   (44005, 44005); (44008, 44008); (44013, 44013); (64286, 64286);
   (64434, 64450); (65024, 65039); (65043, 65043); (65056, 65071);
   (65106, 65106); (65109, 65109); (65279, 65279); (65287, 65287);
   (65294, 65294); (65306, 65306); (65342, 65342); (65344, 65344);
   (65392, 65392); (65438, 65439); (65507, 65507); (65529, 65531);
   (66045, 66045); (66272, 66272); (66422, 66426); (67456, 67461);
   (67463, 67504); (67506, 67514); (68097, 68099); (68101, 68102);
   (68108, 68111); (68152, 68154); (68159, 68159); (68325, 68326);
   (68900, 68903); (69291, 69292); (69446, 69456); (69506, 69509);
   (69633, 69633); (69688, 69702); (69744, 69744); (69747, 69748);
   (69759, 69761); (69811, 69814); (69817, 69818); (69821, 69821);
   (69826, 69826); (69837, 69837); (69888, 69890); (69927, 69931);
   (69933, 69940); (70003, 70003); (70016, 70017); (70070, 70078);
   (70089, 70092); (70095, 70095); (70191, 70193); (70196, 70196);
   (70198, 70199); (70206, 70206); (70367, 70367); (70371, 70378);
   (70400, 70401); (70459, 70460); (70464, 70464); (70502, 70508);
   (70512, 70516); (70712, 70719); (70722, 70724); (70726, 70726);
   (70750, 70750); (70835, 70840); (70842, 70842); (70847, 70848);
   (70850, 70851); (71090, 71093); (71100, 71101); (71103, 71104);
   (71132, 71133); (71219, 71226); (71229, 71229); (71231, 71232);
   (71339, 71339); (71341, 71341); (71344, 71349); (71351, 71351);
   (71453, 71455); (71458, 71461); (71463, 71467); (71727, 71735);
   (71737, 71738); (71995, 71996); (71998, 71998); (72003, 72003);
   (72148, 72151); (72154, 72155); (72160, 72160); (72193, 72202);
   (72243, 72248); (72251, 72254); (72263, 72263); (72273, 72278);
   (72281, 72283); (72330, 72342); (72344, 72345); (72752, 72758);
   (72760, 72765); (72767, 72767); (72850, 72871); (72874, 72880);
   (72882, 72883); (72885, 72886); (73009, 73014); (73018, 73018);
   (73020, 73021); (73023, 73029); (73031, 73031); (73104, 73105);
   (73109, 73109); (73111, 73111); (73459, 73460); (78896, 78904);
   (92912, 92916); (92976, 92982); (92992, 92995); (94031, 94031);
   (94095, 94111); (94176, 94177); (94179, 94180); (110576, 110579);
   (110581, 110587); (110589, 110590); (113821, 113822); (113824, 113827);
   (118528, 118573); (118576, 118598); (119143, 119145); (119155, 119170);
   (119173, 119179); (119210, 119213); (119362, 119364); (121344, 121398);
   (121403, 121452); (121461, 121461); (121476, 121476); (121499, 121503);
   (121505, 121519); (122880, 122886); (122888, 122904); (122907, 122913);
   (122915, 122916); (122918, 122922); (123184, 123197); (123566, 123566);
   (123628, 123631); (125136, 125142); (125252, 125259); (127995, 127999);
   (917505, 917505); (917536, 917631); (917760, 917999) ]%N.

Definition in_ranges (ranges : list (N * N)) (c : N) : bool :=
  existsb (fun r => in_range (fst r) (snd r) c) ranges.

Definition is_cased (c : N) : bool := in_ranges cased_ranges c.
Definition is_case_ignorable (c : N) : bool := in_ranges case_ignorable_ranges c.

(** Whether the range maps the code point [c]. *)
Definition maps (c : N) (r : N * N * N * N) : bool :=
  let '(first, last, step, _) := r in
  in_range first last c && ((c - first) mod step =? 0)%N.

(** The lower-case mapping of one code point, but for the capital sigma:
    U+0130 goes to the two code points [i] and U+0307, as
    SpecialCasing.txt has it, and a code point without mapping stays. *)
Definition lower_point (c : N) : list N :=
  if (c =? 304)%N then [105; 775]%N
  else match find (maps c) lower_ranges with
       | Some (first, _, _, target) => [(target + (c - first))%N]
       | None => [c]
       end.

(** StringToCodePoints: a lead surrogate and the trail surrogate behind
    it are one code point; any other code unit is its own. *)
Fixpoint codePoints (s : jsstring) : list N :=
  match s with
  | [] => []
  | c :: rest =>
      match rest with
      | d :: rest' =>
          if in_range 55296 56319 c && in_range 56320 57343 d
          then (65536 + (c - 55296) * 1024 + (d - 56320))%N :: codePoints rest'
          else c :: codePoints rest
      | [] => [c]
      end
  end.

(** CodePointsToString, for one code point. *)
Definition codeUnits (cp : N) : jsstring :=
  if (cp <? 65536)%N then [cp]
  else [(55296 + (cp - 65536) / 1024)%N; (56320 + (cp - 65536) mod 1024)%N].

(** Final_Sigma, the one condition of SpecialCasing.txt that does not
    depend on the language: the capital sigma (U+03A3) goes to the final
    sigma (U+03C2) when a cased letter stands before it, case-ignorable
    code points apart, and none stands behind it in the same way; else
    to the small sigma (U+03C3). *)
Fixpoint followed_by_cased (l : list N) : bool :=
  match l with
  | [] => false
  | c :: rest => if is_case_ignorable c then followed_by_cased rest else is_cased c
  end.

Fixpoint lower_points (after_cased : bool) (l : list N) : list N :=
  match l with
  | [] => []
  | c :: rest =>
      (if (c =? 931)%N
       then if after_cased && negb (followed_by_cased rest)
            then [962%N] else [963%N]
       else lower_point c)
      ++ lower_points (if is_case_ignorable c then after_cased else is_cased c)
           rest
  end.

Definition toLowerCase (s : jsstring) : jsstring :=
  flat_map codeUnits (lower_points false (codePoints s)).

Fixpoint trimStart (s : jsstring) : jsstring :=
  match s with
  | c :: t => if is_white_space c then trimStart t else s
  | [] => []
  end.

Definition trimEnd (s : jsstring) : jsstring := rev (trimStart (rev s)).

Definition trim (s : jsstring) : jsstring := trimEnd (trimStart s).

(** [s.substring(0, n)] *)
Definition substring0 (n : nat) (s : jsstring) : jsstring := firstn n s.

(** [parts.join(sep)] *)
Fixpoint join (sep : jsstring) (parts : list jsstring) : jsstring :=
  match parts with
  | [] => []
  | [x] => x
  | x :: rest => x ++ sep ++ join sep rest
  end.

(** A string-valued field that may be absent ([undefined]). *)
Abbreviation field := (option (list N)) (only parsing).

(** [v || d]: an absent or empty string is falsy. *)
Definition or_else (v : field) (d : jsstring) : jsstring :=
  match v with
  | Some (c :: t) => c :: t
  | _ => d
  end.

(** [[...new Set(l)]]: the distinct elements, in order of first insertion. *)
Fixpoint uniq_go (seen : list jsstring) (l : list jsstring) : list jsstring :=
  match l with
  | [] => []
  | x :: t =>
      if existsb (eqb x) seen then uniq_go seen t
      else x :: uniq_go (x :: seen) t
  end.

Definition uniq (l : list jsstring) : list jsstring := uniq_go [] l.

(** [a.slice(-n)] *)
Definition slice_last {A : Type} (n : nat) (l : list A) : list A :=
  skipn (length l - n) l.

End JsString.

Import JsString.

(** ** Regular expressions *)

Module RegExp.

Inductive class_item : Type :=
| CChar (c : codeunit)
| CSpace
| CDigit
| CWord.

Inductive regex : Type :=
| Empty
| Char (c : codeunit)
| Class (negated : bool) (items : list class_item)
| Dot
| Bol
| Eol
| WordBoundary
| Seq (a b : regex)
| Alt (a b : regex)
| Star (a : regex).

(** A regular expression literal with its [i] and [m] flags. *)
Record t : Type := mk { pattern : regex; ignoreCase : bool; multiline : bool }.

(** *** Derived forms *)

Definition opt (a : regex) : regex := Alt a Empty.
Definition plus (a : regex) : regex := Seq a (Star a).

Fixpoint seqs (l : list regex) : regex :=
  match l with
  | [] => Empty
  | [a] => a
  | a :: rest => Seq a (seqs rest)
  end.

Fixpoint alts (l : list regex) : regex :=
  match l with
  | [] => Class false []
  | [a] => a
  | a :: rest => Alt a (alts rest)
  end.

Definition lit (s : string) : regex := seqs (map Char (u s)).
Definition words (l : list string) : regex := alts (map lit l).

(** [a{n}] *)
Fixpoint times (n : nat) (a : regex) : regex :=
  match n with
  | O => Empty
  | 1 => a
  | S k => Seq a (times k a)
  end.

(** [a{0,n}], greedy *)
Fixpoint upto (n : nat) (a : regex) : regex :=
  match n with
  | O => Empty
  | S k => opt (Seq a (upto k a))
  end.

(** [a{lo,hi}] and [a{lo,}] *)
Definition between (lo hi : nat) (a : regex) : regex :=
  Seq (times lo a) (upto (hi - lo) a).
Definition at_least (lo : nat) (a : regex) : regex :=
  Seq (times lo a) (Star a).

Definition space : regex := Class false [CSpace].
Definition digit : regex := Class false [CDigit].
Definition word : regex := Class false [CWord].

(** *** Matching *)

(** A position in the subject: the code unit before it, if any, and
    what is left of the subject. *)
Abbreviation cursor := (option N * list N)%type (only parsing).

Definition unit_eq (ic : bool) (a d : codeunit) : bool :=
  if ic then (canonicalize a =? canonicalize d)%N else (a =? d)%N.

Definition in_item (ic : bool) (d : codeunit) (i : class_item) : bool :=
  match i with
  | CChar a => unit_eq ic a d
  | CSpace => is_white_space d
  | CDigit => is_digit d
  | CWord => is_word_char d
  end.

Definition in_class (ic : bool) (items : list class_item) (d : codeunit) : bool :=
  existsb (in_item ic d) items.

Definition accepts (ok : codeunit -> bool) (c : cursor) : list cursor :=
  match snd c with
  | d :: rest => if ok d then [(Some d, rest)] else []
  | [] => []
  end.

Definition at_bol (ml : bool) (c : cursor) : bool :=
  match fst c with
  | None => true
  | Some d => ml && is_line_terminator d
  end.

Definition at_eol (ml : bool) (c : cursor) : bool :=
  match snd c with
  | [] => true
  | d :: _ => ml && is_line_terminator d
  end.

Definition word_before (c : cursor) : bool :=
  match fst c with Some d => is_word_char d | None => false end.

Definition word_after (c : cursor) : bool :=
  match snd c with d :: _ => is_word_char d | [] => false end.

Definition guard (b : bool) (c : cursor) : list cursor :=
  if b then [c] else [].

(** The iterations of a greedy star: one more iteration that consumes
    something and then the rest, before the end without it.  An iteration
    that consumes nothing is rejected, as RepeatMatcher does, so that
    the fuel, one more than what is left of the subject, is never used
    up ([star_loop_fuel] below). *)
Fixpoint star_loop (step : cursor -> list cursor) (fuel : nat) (c : cursor)
  : list cursor :=
  match fuel with
  | O => [c]
  | S k =>
      flat_map (fun c' =>
                  if length (snd c') <? length (snd c)
                  then star_loop step k c' else [])
               (step c)
      ++ [c]
  end.

(** The ends of the matches of [r] that start at [c], in the order in
    which backtracking tries them. *)
Fixpoint ends (ic ml : bool) (r : regex) (c : cursor) : list cursor :=
  match r with
  | Empty => [c]
  | Char a => accepts (unit_eq ic a) c
  | Class neg items => accepts (fun d => xorb neg (in_class ic items d)) c
  | Dot => accepts (fun d => negb (is_line_terminator d)) c
  | Bol => guard (at_bol ml c) c
  | Eol => guard (at_eol ml c) c
  | WordBoundary => guard (xorb (word_before c) (word_after c)) c
  | Seq a b => flat_map (ends ic ml b) (ends ic ml a c)
  | Alt a b => ends ic ml a c ++ ends ic ml b c
  | Star a => star_loop (ends ic ml a) (S (length (snd c))) c
  end.

Definition first_end (re : t) (c : cursor) : option cursor :=
  hd_error (ends (ignoreCase re) (multiline re) (pattern re) c).

(** The length of the match at [c], when there is one. *)
Definition exec (re : t) (c : cursor) : option nat :=
  match first_end re c with
  | Some c' => Some (length (snd c) - length (snd c'))
  | None => None
  end.

(** [re.test(s)] for a regular expression without the [g] flag. *)
Fixpoint search (re : t) (p : option codeunit) (s : jsstring) : bool :=
  match exec re (p, s) with
  | Some _ => true
  | None =>
      match s with
      | [] => false
      | d :: rest => search re (Some d) rest
      end
  end.

Definition test (re : t) (s : jsstring) : bool := search re None s.

(** The subject cut at the successive matches of a [g] regular
    expression: the code units kept and the texts matched.  [skip] counts
    the code units of the current match still to pass; after an empty
    match the search resumes one code unit further. *)
Inductive piece : Type :=
| Kept (d : codeunit)
| Hit (m : jsstring).

Fixpoint scan (re : t) (p : option codeunit) (s : jsstring) (skip : nat)
  : list piece :=
  match skip with
  | S k =>
      match s with
      | d :: rest => scan re (Some d) rest k
      | [] => []
      end
  | O =>
      match exec re (p, s) with
      | Some n =>
          Hit (firstn n s) ::
          match s with
          | d :: rest =>
              match n with
              | O => Kept d :: scan re (Some d) rest 0
              | S k => scan re (Some d) rest k
              end
          | [] => []
          end
      | None =>
          match s with
          | d :: rest => Kept d :: scan re (Some d) rest 0
          | [] => []
          end
      end
  end.

Definition render (replacement : jsstring) (ps : list piece) : jsstring :=
  flat_map (fun pc => match pc with Kept d => [d] | Hit _ => replacement end) ps.

Fixpoint hits (ps : list piece) : list jsstring :=
  match ps with
  | [] => []
  | Kept _ :: rest => hits rest
  | Hit m :: rest => m :: hits rest
  end.

(** [s.replace(re, replacement)] with the [g] flag; the replacements of
    the program hold no [$]. *)
Definition replace (re : t) (replacement : jsstring) (s : jsstring) : jsstring :=
  render replacement (scan re None s 0).

(** [s.match(re)] with the [g] flag: the matched texts, [null] without
    a match. *)
Definition match_all (re : t) (s : jsstring) : option (list jsstring) :=
  match hits (scan re None s 0) with
  | [] => None
  | ms => Some ms
  end.

(** [s.split(re)]: [acc] holds, reversed, the code units since the end
    of the last separator. *)
Fixpoint split_go (re : t) (p : option codeunit) (s : jsstring) (skip : nat)
  (acc : jsstring) : list jsstring :=
  match s with
  | [] => [rev acc]
  | d :: rest =>
      match skip with
      | S k => split_go re (Some d) rest k acc
      | O =>
          match exec re (p, s) with
          | Some (S k) => rev acc :: split_go re (Some d) rest k []
          | Some O =>
              match acc with
              | [] => split_go re (Some d) rest 0 [d]
              | _ => rev acc :: split_go re (Some d) rest 0 [d]
              end
          | None => split_go re (Some d) rest 0 (d :: acc)
          end
      end
  end.

Definition split (re : t) (s : jsstring) : list jsstring :=
  match s with
  | [] => match exec re (None, []) with Some _ => [] | None => [[]] end
  | _ => split_go re None s 0 []
  end.

End RegExp.

(** ** src/email-processor.js *)

Module Headers.
Record t : Type := mk { from : field; to : field; subject : field; date : field }.
End Headers.

Module EmailContent.
Record t : Type := mk { headers : Headers.t; body : field; snippet : field }.
End EmailContent.

Module KeyInfo.
Record t : Type := mk {
  dates : list jsstring;
  amounts : list jsstring;
  actionItems : list jsstring;
  names : list jsstring;
  keyPhrases : list jsstring }.
End KeyInfo.

Inductive Category : Type :=
| promotional | newsletter | security | transactional
| event | notification | development | personal.

Module Digest.
Record t : Type := mk {
  from : jsstring;
  to : jsstring;
  subject : jsstring;
  date : jsstring;
  type : Category;
  summary : jsstring;
  keyPoints : list jsstring;
  actionItems : list jsstring;
  dates : list jsstring;
  amounts : list jsstring;
  actionRequired : bool;
  fullBodyLength : nat }.
End Digest.

Module EmailProcessor.

Import RegExp.

Definition ch (a : ascii) : codeunit := N_of_ascii a.

Definition category_name (c : Category) : jsstring :=
  match c with
  | promotional => u "promotional"
  | newsletter => u "newsletter"
  | security => u "security"
  | transactional => u "transactional"
  | event => u "event"
  | notification => u "notification"
  | development => u "development"
  | personal => u "personal"
  end.

(** [.*$] *)
Definition rest_of_line : regex := Seq (Star Dot) Eol.

(** [/https?:\/\/[^\s)>\]]+/gi] *)
Definition urlPattern : RegExp.t :=
  mk (seqs [lit "http"; opt (Char (ch "s")); lit "://";
            plus (Class true [CSpace; CChar (ch ")"); CChar (ch ">"); CChar (ch "]")])])
     true false.

Definition linkToken : jsstring := Eval cbv in u "[link]".

(** The footer patterns, all with the flags [gim]. *)
Definition footerPatterns : list RegExp.t :=
  map (fun p => mk p true true)
    [ Seq (lit "unsubscribe") rest_of_line;
      Seq (lit "you received this email because") rest_of_line;
      Seq (lit "to stop receiving") rest_of_line;
      Seq (lit "view this email in your browser") rest_of_line;
      Seq (lit "click here to unsubscribe") rest_of_line;
      Seq (lit "manage your preferences") rest_of_line;
      seqs [lit "privacy policy"; Star Dot; lit "terms of service"; rest_of_line];
      seqs [Char 169%N; Star space; times 4 digit; rest_of_line];
      seqs [times 4 digit; plus space;
            words ["amphitheatre"; "street"; "avenue"; "road"; "blvd"]%string;
            rest_of_line] ].

(** [/^>.*$/gm] *)
Definition quotedPattern : RegExp.t :=
  mk (seqs [Bol; Char (ch ">"); rest_of_line]) false true.

(** [/on\s+\w+,\s+\w+\s+\d+.*wrote:.*$/gim] *)
Definition wrotePattern : RegExp.t :=
  mk (seqs [lit "on"; plus space; plus word; Char (ch ","); plus space;
            plus word; plus space; plus digit; Star Dot; lit "wrote:";
            rest_of_line])
     true true.

(** [/\n{3,}/g] and [/[ \t]{2,}/g] *)
Definition newlinesPattern : RegExp.t :=
  mk (at_least 3 (Char 10%N)) false false.
Definition blanksPattern : RegExp.t :=
  mk (at_least 2 (Class false [CChar 32%N; CChar 9%N])) false false.

Definition stripFooters (s : jsstring) : jsstring :=
  fold_left (fun cleaned pattern => replace pattern [] cleaned) footerPatterns s.

Definition cleanEmailBody (rawBody : field) : jsstring :=
  match rawBody with
  | Some (d :: rest) =>
      let cleaned := d :: rest in
      let cleaned := replace urlPattern linkToken cleaned in
      let cleaned := stripFooters cleaned in
      let cleaned := replace quotedPattern [] cleaned in
      let cleaned := replace wrotePattern [] cleaned in
      let cleaned := replace newlinesPattern [10; 10]%N cleaned in
      let cleaned := replace blanksPattern [32%N] cleaned in
      trim cleaned
  | _ => []
  end.

Definition months : regex :=
  words ["jan"; "feb"; "mar"; "apr"; "may"; "jun";
         "jul"; "aug"; "sep"; "oct"; "nov"; "dec"]%string.

(** [\s*,?\s*\d{2,4}\b] *)
Definition year_tail : list regex :=
  [Star space; opt (Char (ch ",")); Star space; between 2 4 digit; WordBoundary].

Definition datePatterns : list RegExp.t :=
  [ mk (seqs ([WordBoundary; between 1 2 digit; plus space; months; Star word]
              ++ year_tail)) true false;
    mk (seqs ([WordBoundary; months; Star word; plus space; between 1 2 digit]
              ++ year_tail)) true false;
    mk (seqs [WordBoundary; between 1 2 digit; Char (ch "/"); between 1 2 digit;
              Char (ch "/"); between 2 4 digit; WordBoundary]) false false;
    mk (seqs [WordBoundary;
              words ["monday"; "tuesday"; "wednesday"; "thursday"; "friday";
                     "saturday"; "sunday"]%string;
              WordBoundary]) true false;
    mk (seqs [WordBoundary;
              words ["today"; "tomorrow"; "next week"; "this week"]%string;
              WordBoundary]) true false ].

(** [(?:\.\d{2})?] *)
Definition cents : regex := opt (Seq (Char (ch ".")) (times 2 digit)).

(** [/[₹$€£]\s?[\d,]+(?:\.\d{2})?|\d+(?:,\d{3})*(?:\.\d{2})?\s?(?:USD|INR|EUR|GBP)/gi] *)
Definition amountPattern : RegExp.t :=
  mk (Alt
        (seqs [Class false [CChar 8377%N; CChar (ch "$"); CChar 8364%N; CChar 163%N];
               opt space; plus (Class false [CDigit; CChar (ch ",")]); cents])
        (seqs [plus digit; Star (Seq (Char (ch ",")) (times 3 digit)); cents;
               opt space; words ["USD"; "INR"; "EUR"; "GBP"]%string]))
     true false.

(** [/[.!?\n]+/] *)
Definition sentenceBreak : RegExp.t :=
  mk (plus (Class false [CChar (ch "."); CChar (ch "!"); CChar (ch "?"); CChar 10%N]))
     false false.

Definition actionKeywords : RegExp.t :=
  mk (seqs [WordBoundary;
            words ["please"; "kindly"; "required"; "must"; "need to"; "action";
                   "deadline"; "respond"; "reply"; "confirm"; "submit";
                   "complete"; "attend"; "join"; "register"; "rsvp"]%string;
            WordBoundary]) true false.

(** [/^\[link\]/] *)
Definition linkStart : RegExp.t := mk (Seq Bol (lit "[link]")) false false.

Definition sentencesOf (cleanedBody : jsstring) : list jsstring :=
  filter (fun s => 10 <? length s) (map trim (split sentenceBreak cleanedBody)).

Definition collectDates (cleanedBody : jsstring) : list jsstring :=
  fold_left (fun dates pattern =>
               match match_all pattern cleanedBody with
               | Some matches => dates ++ map trim matches
               | None => dates
               end)
            datePatterns [].

Definition extractKeyInfo (cleanedBody : jsstring) : KeyInfo.t :=
  match cleanedBody with
  | [] => KeyInfo.mk [] [] [] [] []
  | _ =>
      let dates := firstn 5 (uniq (collectDates cleanedBody)) in
      let amounts :=
        match match_all amountPattern cleanedBody with
        | Some amountMatches => firstn 5 (uniq amountMatches)
        | None => []
        end in
      let sentences := sentencesOf cleanedBody in
      let actionItems := firstn 5 (filter (test actionKeywords) sentences) in
      let keyPhrases :=
        firstn 3
          (filter (fun s => negb (test linkStart s))
             (filter (fun s => (20 <? length s) && (length s <? 200)) sentences)) in
      KeyInfo.mk dates amounts actionItems [] keyPhrases
  end.

Definition rule (l : list string) : RegExp.t := mk (words l) true false.

Definition bulkWords : RegExp.t :=
  rule ["noreply"; "no-reply"; "newsletter"; "marketing"; "promo"; "offer";
        "sale"; "discount"; "deal"; "unsubscribe"]%string.
Definition priceWords : RegExp.t :=
  rule ["off"; "%"; "discount"; "sale"; "deal"; "coupon"; "offer"; "price"; "save"]%string.
Definition securityWords : RegExp.t :=
  rule ["alert"; "security"; "verification"; "verify"; "password"; "signin";
        "login"; "suspicious"; "unusual"]%string.
Definition billingWords : RegExp.t :=
  rule ["invoice"; "payment"; "receipt"; "order"; "transaction"; "billing";
        "subscription"]%string.
Definition eventWords : RegExp.t :=
  rule ["meeting"; "invite"; "calendar"; "event"; "rsvp"; "attend"; "join";
        "webinar"; "summit"; "conference"]%string.
Definition noticeWords : RegExp.t :=
  rule ["notification"; "update"; "reminder"; "notice"]%string.
Definition devWords : RegExp.t :=
  rule ["github"; "gitlab"; "jenkins"; "deploy"; "build"; "commit";
        "pull request"; "merge"]%string.

(** The template literal [`${from} ${subject} ${body}`]. *)
Definition combinedText (headers : Headers.t) (cleanedBody : field) : jsstring :=
  let from := toLowerCase (or_else (Headers.from headers) []) in
  let subject := toLowerCase (or_else (Headers.subject headers) []) in
  let body := toLowerCase (or_else cleanedBody []) in
  from ++ [32%N] ++ subject ++ [32%N] ++ body.

Definition classifyEmail (headers : Headers.t) (cleanedBody : field) : Category :=
  let combined := combinedText headers cleanedBody in
  if test bulkWords combined then
    if test priceWords combined then promotional else newsletter
  else if test securityWords combined then security
  else if test billingWords combined then transactional
  else if test eventWords combined then event
  else if test noticeWords combined then notification
  else if test devWords combined then development
  else personal.

Definition cleanedBodyOf (emailContent : EmailContent.t) : jsstring :=
  cleanEmailBody
    (Some (or_else (EmailContent.body emailContent)
             (or_else (EmailContent.snippet emailContent) []))).

Definition pickSummary (keyPhrases : list jsstring) (cleanedBody : jsstring)
  (snippet : field) : jsstring :=
  match keyPhrases with
  | _ :: _ => join (u ". ") keyPhrases
  | [] =>
      match cleanedBody with
      | _ :: _ => substring0 300 cleanedBody
      | [] => or_else snippet (u "No readable content")
      end
  end.

Definition capSummary (summary : jsstring) : jsstring :=
  if 400 <? length summary then substring0 397 summary ++ u "..." else summary.

Definition buildDigest (emailContent : EmailContent.t) : Digest.t :=
  let headers := EmailContent.headers emailContent in
  let body := EmailContent.body emailContent in
  let snippet := EmailContent.snippet emailContent in
  let cleanedBody := cleanedBodyOf emailContent in
  let keyInfo := extractKeyInfo cleanedBody in
  let type := classifyEmail headers (Some cleanedBody) in
  let summary :=
    capSummary (pickSummary (KeyInfo.keyPhrases keyInfo) cleanedBody snippet) in
  Digest.mk
    (or_else (Headers.from headers) (u "Unknown"))
    (or_else (Headers.to headers) [])
    (or_else (Headers.subject headers) (u "No Subject"))
    (or_else (Headers.date headers) [])
    type
    summary
    (KeyInfo.keyPhrases keyInfo)
    (KeyInfo.actionItems keyInfo)
    (KeyInfo.dates keyInfo)
    (KeyInfo.amounts keyInfo)
    (match KeyInfo.actionItems keyInfo with [] => false | _ => true end)
    (length (or_else body [])).

End EmailProcessor.

(** ** src/context-manager.js *)

Module ContextManager.

Inductive Role : Type := user | agent.

Definition role_name (r : Role) : jsstring :=
  match r with user => u "user" | agent => u "agent" end.

(** A reading of the clock, [Date.now()]. *)
Abbreviation time := N (only parsing).

Record Turn : Type :=
  mkTurn { role : Role; content : jsstring; timestamp : time }.

(** [{...digest, cachedAt}] *)
Record CachedDigest : Type :=
  mkCached { digest : Digest.t; cachedAt : time }.

(** A [Map] from message identifiers, its entries in insertion order. *)
Abbreviation Cache := (list (list N * CachedDigest)) (only parsing).

Definition keys (m : Cache) : list jsstring := map fst m.

Fixpoint Map_get (k : jsstring) (m : Cache) : option CachedDigest :=
  match m with
  | [] => None
  | (k', v) :: rest => if JsString.eqb k k' then Some v else Map_get k rest
  end.

Fixpoint Map_delete (k : jsstring) (m : Cache) : Cache :=
  match m with
  | [] => []
  | (k', v) :: rest =>
      if JsString.eqb k k' then rest else (k', v) :: Map_delete k rest
  end.

(** [set] writes in place the value of a key that is present and appends
    a key that is not. *)
Fixpoint Map_set (k : jsstring) (v : CachedDigest) (m : Cache) : Cache :=
  match m with
  | [] => [(k, v)]
  | (k', v') :: rest =>
      if JsString.eqb k k' then (k', v) :: rest else (k', v') :: Map_set k v rest
  end.

Record t : Type := mk {
  emailCache : Cache;
  activeEmailIds : list jsstring;
  conversationHistory : list Turn;
  maxHistory : nat;
  maxCache : nat }.

Definition constructor : t := mk [] [] [] 10 50.

(** [emailCache.delete(emailCache.keys().next().value)] *)
Definition evictFirst (m : Cache) : Cache :=
  match m with
  | [] => []
  | (firstKey, _) :: _ => Map_delete firstKey m
  end.

Definition cacheEmail (messageId : jsstring) (d : Digest.t) (now : time)
  (this : t) : t :=
  let cache :=
    if maxCache this <=? length (emailCache this)
    then evictFirst (emailCache this) else emailCache this in
  mk (Map_set messageId (mkCached d now) cache)
     (activeEmailIds this) (conversationHistory this)
     (maxHistory this) (maxCache this).

Definition getCachedEmail (messageId : jsstring) (this : t) : option CachedDigest :=
  Map_get messageId (emailCache this).

(** The argument of [setActiveEmails] and [addActiveEmails]: an array of
    identifiers or a single one. *)
Inductive Ids : Type :=
| One (id : jsstring)
| Many (ids : list jsstring).

(** [Array.isArray(ids) ? ids : [ids]] *)
Definition asArray (ids : Ids) : list jsstring :=
  match ids with One id => [id] | Many l => l end.

Definition setActiveEmails (ids : Ids) (this : t) : t :=
  mk (emailCache this) (asArray ids) (conversationHistory this)
     (maxHistory this) (maxCache this).

Definition addActiveEmails (ids : Ids) (this : t) : t :=
  let newIds := asArray ids in
  mk (emailCache this) (uniq (activeEmailIds this ++ newIds))
     (conversationHistory this) (maxHistory this) (maxCache this).

Definition getActiveDigests (this : t) : list CachedDigest :=
  flat_map (fun id => match Map_get id (emailCache this) with
                      | Some d => [d]
                      | None => []
                      end)
           (activeEmailIds this).

(** [while (history.length > limit) history.shift()] *)
Fixpoint trimFront (limit : nat) (history : list Turn) : list Turn :=
  match history with
  | [] => []
  | _ :: rest =>
      if limit <? length history then trimFront limit rest else history
  end.

Definition addExchange (userMsg agentMsg : jsstring) (now1 now2 : time)
  (this : t) : t :=
  let pushed := conversationHistory this
                ++ [mkTurn user userMsg now1; mkTurn agent agentMsg now2] in
  mk (emailCache this) (activeEmailIds this)
     (trimFront (maxHistory this * 2) pushed)
     (maxHistory this) (maxCache this).

Definition decimal (n : nat) : jsstring :=
  u (NilZero.string_of_uint (Nat.to_uint n)).

Definition digestLines (i : nat) (c : CachedDigest) : list jsstring :=
  let d := digest c in
  [ u "Email " ++ decimal (i + 1) ++ u ": From: " ++ Digest.from d
    ++ u " | Subject: " ++ Digest.subject d
    ++ u " | Type: " ++ EmailProcessor.category_name (Digest.type d);
    u "Summary: " ++ substring0 200 (Digest.summary d) ]
  ++ match Digest.actionItems d with
     | [] => []
     | items => [u "Action items: " ++ join (u "; ") items]
     end
  ++ match Digest.dates d with
     | [] => []
     | dates => [u "Key dates: " ++ join (u ", ") dates]
     end
  ++ match Digest.amounts d with
     | [] => []
     | amounts => [u "Amounts: " ++ join (u ", ") amounts]
     end.

Definition truncated (msg : Turn) : jsstring :=
  if 150 <? length (content msg)
  then substring0 147 (content msg) ++ u "..."
  else content msg.

Definition turnLine (msg : Turn) : jsstring :=
  role_name (role msg) ++ u ": " ++ truncated msg.

Fixpoint digestParts (i : nat) (ds : list CachedDigest) : list jsstring :=
  match ds with
  | [] => []
  | d :: rest => digestLines i d ++ digestParts (S i) rest
  end.

Definition activeParts (this : t) : list jsstring :=
  match getActiveDigests this with
  | [] => []
  | activeDigests =>
      u "CURRENTLY DISCUSSED EMAILS:" :: digestParts 0 activeDigests
  end.

Definition recentParts (this : t) : list jsstring :=
  match slice_last 6 (conversationHistory this) with
  | [] => []
  | recent => (10%N :: u "RECENT CONVERSATION:") :: map turnLine recent
  end.

Definition getContextForLLM (this : t) : jsstring :=
  join [10%N] (activeParts this ++ recentParts this).

Definition clear (this : t) : t :=
  mk [] [] [] (maxHistory this) (maxCache this).

End ContextManager.


(** ** gmail-service: the headers of a fetched message *)

Module GmailService.

Record RawHeader : Type := mkRaw { name : jsstring; value : jsstring }.

(** [parseEmailHeaders]: the object starts with four empty strings and
    each header in turn overwrites the field its lower-cased name
    designates. *)
Definition parseEmailHeaders (headers : list RawHeader) : Headers.t :=
  fold_left
    (fun extracted header =>
       let name := toLowerCase (name header) in
       let extracted :=
         if JsString.eqb name (u "from")
         then Headers.mk (Some (value header)) (Headers.to extracted)
                (Headers.subject extracted) (Headers.date extracted)
         else extracted in
       let extracted :=
         if JsString.eqb name (u "subject")
         then Headers.mk (Headers.from extracted) (Headers.to extracted)
                (Some (value header)) (Headers.date extracted)
         else extracted in
       let extracted :=
         if JsString.eqb name (u "date")
         then Headers.mk (Headers.from extracted) (Headers.to extracted)
                (Headers.subject extracted) (Some (value header))
         else extracted in
       if JsString.eqb name (u "to")
       then Headers.mk (Headers.from extracted) (Some (value header))
              (Headers.subject extracted) (Headers.date extracted)
       else extracted)
    headers
    (Headers.mk (Some []) (Some []) (Some []) (Some [])).

End GmailService.

(** ** public/app.js: escaping *)

Module App.

(** Whether [s] starts with the code units of [w]. *)
Fixpoint startsWith (w s : jsstring) : bool :=
  match w, s with
  | [], _ => true
  | a :: w', d :: s' => (a =? d)%N && startsWith w' s'
  | _ :: _, [] => false
  end.

(** [s.replaceAll(w, rep)] for a string [w]: the occurrences of [w] are
    taken from left to right without overlap; [skip] counts the code
    units of the current occurrence still to pass.  An empty [w] occurs
    before every code unit and at the end. *)
Fixpoint replaceAll_go (w rep s : jsstring) (skip : nat) : jsstring :=
  match skip with
  | S k =>
      match s with
      | _ :: rest => replaceAll_go w rep rest k
      | [] => []
      end
  | O =>
      if startsWith w s then
        rep ++ match s with
               | d :: rest =>
                   match length w with
                   | O => d :: replaceAll_go w rep rest 0
                   | S k => replaceAll_go w rep rest k
                   end
               | [] => []
               end
      else
        match s with
        | d :: rest => d :: replaceAll_go w rep rest 0
        | [] => []
        end
  end.

Definition replaceAll (w rep s : jsstring) : jsstring := replaceAll_go w rep s 0.

Definition escapeHtml (s : jsstring) : jsstring :=
  replaceAll (u ">") (u "&gt;")
    (replaceAll (u "<") (u "&lt;")
       (replaceAll (u "&") (u "&amp;") s)).

End App.

(** ** agent: the tool that reads a message and the entry point of a query *)

Module Agent.

Import ContextManager.

(** What [read_email] hands to [JSON.stringify]: the cached entry, the
    digest just built, or the message of the error caught. *)
Inductive ReadResult : Type :=
| CachedEmail (cached : CachedDigest)
| BuiltEmail (digest : Digest.t)
| ReadError (message : jsstring).

Section ReadEmail.

(** [getGmailClient] and [getEmailContent]: the message fetched, or the
    message of the error thrown. *)
Variable fetch : jsstring -> EmailContent.t + jsstring.

Definition readEmailTool (messageId : jsstring) (now : time)
  (store : ContextManager.t) : ContextManager.t * ReadResult :=
  match getCachedEmail messageId store with
  | Some cached =>
      (addActiveEmails (One messageId) store, CachedEmail cached)
  | None =>
      match fetch messageId with
      | inl emailContent =>
          let digest := EmailProcessor.buildDigest emailContent in
          let store := cacheEmail messageId digest now store in
          let store := addActiveEmails (One messageId) store in
          (store, BuiltEmail digest)
      | inr message => (store, ReadError message)
      end
  end.

End ReadEmail.

(** What the agent is invoked with: the command that resumes an
    interrupt, or one user message. *)
Inductive AgentInput : Type :=
| ResumeCommand (interruptId decision : jsstring)
| UserMessage (content : jsstring).

Record AgentMessage : Type := mkMessage { role : jsstring; content : field }.

(** The response: [messages] may be missing. *)
Record Response : Type := mkResponse { messages : option (list AgentMessage) }.

Inductive Outcome : Type :=
| Returned (response : option Response)
| Thrown (error : jsstring).

(** [`[CONTEXT]\n${context}\n[/CONTEXT]\n\nUser: ${query}`] *)
Definition withContext (context query : jsstring) : jsstring :=
  u "[CONTEXT]" ++ [10%N] ++ context ++ [10%N] ++ u "[/CONTEXT]"
  ++ [10%N; 10%N] ++ u "User: " ++ query.

Definition enrich (query : jsstring) (resume : option (jsstring * jsstring))
  (store : ContextManager.t) : jsstring :=
  match resume, query with
  | None, _ :: _ =>
      match getContextForLLM store with
      | [] => query
      | context => withContext context query
      end
  | _, _ => query
  end.

(** The content of the last message, when it is there and not empty. *)
Definition lastContent (response : option Response) : option jsstring :=
  match response with
  | Some r =>
      match messages r with
      | Some msgs =>
          match last (map (fun m => Some m) msgs) None with
          | Some lastMsg =>
              match content lastMsg with
              | Some (d :: rest) => Some (d :: rest)
              | _ => None
              end
          | None => None
          end
      | None => None
      end
  | None => None
  end.

Section HandleQuery.

(** [agent.invoke]: the agent may call the tools, which change the
    store, before it returns or throws. *)
Variable invoke :
  AgentInput -> ContextManager.t -> ContextManager.t * Outcome.

Definition handleQuery (query : jsstring) (resume : option (jsstring * jsstring))
  (now1 now2 : time) (store : ContextManager.t) : ContextManager.t * Outcome :=
  let input :=
    match resume with
    | Some (interruptId, decision) => ResumeCommand interruptId decision
    | None => UserMessage (enrich query resume store)
    end in
  match invoke input store with
  | (store, Returned response) =>
      match query, lastContent response with
      | _ :: _, Some text =>
          (addExchange query (substring0 300 text) now1 now2 store,
           Returned response)
      | _, _ => (store, Returned response)
      end
  | (store, Thrown error) => (store, Thrown error)
  end.

End HandleQuery.

End Agent.

(** ** Vocabulary of the properties *)

Module Store.

Import ContextManager.

(** The stores the program can build: the singleton as constructed, and
    whatever the methods make of it. *)
Inductive reachable : ContextManager.t -> Prop :=
| reach_new : reachable constructor
| reach_cacheEmail id d now s :
    reachable s -> reachable (cacheEmail id d now s)
| reach_setActiveEmails ids s :
    reachable s -> reachable (setActiveEmails ids s)
| reach_addActiveEmails ids s :
    reachable s -> reachable (addActiveEmails ids s)
| reach_addExchange userMsg agentMsg now1 now2 s :
    reachable s -> reachable (addExchange userMsg agentMsg now1 now2 s)
| reach_clear s :
    reachable s -> reachable (clear s).

(** One call of [cacheEmail]: the identifier, the digest and the clock. *)
Abbreviation caching := (list N * Digest.t * N)%type (only parsing).

Definition cachingId (c : caching) : jsstring := fst (fst c).

Definition cachingEntry (c : caching) : jsstring * CachedDigest :=
  (fst (fst c), mkCached (snd (fst c)) (snd c)).

Definition cacheAll (calls : list caching) (s : ContextManager.t) : ContextManager.t :=
  fold_left (fun s c => cacheEmail (fst (fst c)) (snd (fst c)) (snd c) s) calls s.

(** One call of [addExchange]: the two texts and the two clock readings. *)
Abbreviation exchange := (list N * list N * N * N)%type (only parsing).

Definition exchangeTurns (x : exchange) : list Turn :=
  match x with
  | (userMsg, agentMsg, now1, now2) =>
      [mkTurn user userMsg now1; mkTurn agent agentMsg now2]
  end.

Definition recordAll (xs : list exchange) (s : ContextManager.t) : ContextManager.t :=
  fold_left (fun s x =>
               match x with
               | (userMsg, agentMsg, now1, now2) =>
                   addExchange userMsg agentMsg now1 now2 s
               end) xs s.

(** Identifiers that are all different, ["0"], ["1"], ..., and calls
    that cache an empty digest under each. *)
Definition sampleIds (n : nat) : list jsstring := map decimal (seq 0 n).

Definition emptyDigest : Digest.t :=
  Digest.mk [] [] [] [] personal [] [] [] [] [] false 0.

Definition sampleCalls (n : nat) : list caching :=
  map (fun id => (id, emptyDigest, 0%N)) (sampleIds n).

Fixpoint distinct (l : list jsstring) : bool :=
  match l with
  | [] => true
  | x :: rest => negb (existsb (JsString.eqb x) rest) && distinct rest
  end.

(** What every reachable store satisfies about its cache. *)
Definition cache_ok (s : ContextManager.t) : Prop :=
  maxCache s = 50 /\ length (emailCache s) <= 50 /\ NoDup (keys (emailCache s)).

End Store.

(** The matcher and the scan of a subject, as the proofs about the
    cleaner see them. *)
Module Matching.

Import RegExp.

(** The code unit before the position reached after [m]. *)
Fixpoint last_unit (p : option codeunit) (m : jsstring) : option codeunit :=
  match m with
  | [] => p
  | d :: rest => last_unit (Some d) rest
  end.

(** [c'] lies further on in the subject of [c], behind [m]. *)
Definition forward (c c' : cursor) : Prop :=
  exists m, snd c = m ++ snd c' /\ fst c' = last_unit (fst c) m.

Definition piece_text (pc : piece) : jsstring :=
  match pc with Kept d => [d] | Hit m => m end.

(** What [scan] does, step by step: at each position the first match
    that starts there, if any, is taken, and the search goes on behind
    it; behind an empty match the next code unit is kept. *)
Inductive Scan (re : RegExp.t) : option codeunit -> jsstring -> list piece -> Prop :=
| Scan_end p :
    exec re (p, []) = None -> Scan re p [] []
| Scan_end_hit p :
    exec re (p, []) = Some 0 -> Scan re p [] [Hit []]
| Scan_keep p d s ps :
    exec re (p, d :: s) = None ->
    Scan re (Some d) s ps -> Scan re p (d :: s) (Kept d :: ps)
| Scan_empty p d s ps :
    exec re (p, d :: s) = Some 0 ->
    Scan re (Some d) s ps -> Scan re p (d :: s) (Hit [] :: Kept d :: ps)
| Scan_hit p m s ps :
    m <> [] ->
    first_end re (p, m ++ s) = Some (last_unit p m, s) ->
    Scan re (last_unit p m) s ps -> Scan re p (m ++ s) (Hit m :: ps).

(** A pattern whose every match ends where [$] holds. *)
Fixpoint eol_tail (r : regex) : bool :=
  match r with
  | Eol => true
  | Seq _ b => eol_tail b
  | Alt a b => eol_tail a && eol_tail b
  | _ => false
  end.

(** A pattern whose every match takes at least one code unit. *)
Fixpoint consumes (r : regex) : bool :=
  match r with
  | Char _ | Class _ _ | Dot => true
  | Seq a b => consumes a || consumes b
  | Alt a b => consumes a && consumes b
  | _ => false
  end.

(** The subject after the code units of [w], when it starts with them. *)
Fixpoint strip (ic : bool) (w : jsstring) (c : cursor) : option cursor :=
  match w with
  | [] => Some c
  | a :: w' =>
      match snd c with
      | d :: rest => if unit_eq ic a d then strip ic w' (Some d, rest) else None
      | [] => None
      end
  end.

(** The number of line feeds a text starts with. *)
Fixpoint nl_run (s : jsstring) : nat :=
  match s with
  | d :: rest => if (d =? 10)%N then S (nl_run rest) else 0
  | [] => 0
  end.

(** Every text that remains after some code units of [s] satisfies [P]. *)
Fixpoint every_suffix (P : jsstring -> Prop) (s : jsstring) : Prop :=
  P s /\ match s with
         | [] => True
         | _ :: rest => every_suffix P rest
         end.

(** The start of a match of the link pattern, as an automaton over the
    text: [http], an optional [s], [://] and one code unit that is
    neither white space nor one of [)], [>], []]. *)
Inductive verdict : Type := Accept | Reject | Next (state : nat).

Definition link_unit (d : codeunit) : bool :=
  negb (is_white_space d || (d =? 41) || (d =? 62) || (d =? 93))%N.

Definition link_step (state : nat) (d : codeunit) : verdict :=
  match state with
  | 0 => if unit_eq true 104%N d then Next 1 else Reject
  | 1 => if unit_eq true 116%N d then Next 2 else Reject
  | 2 => if unit_eq true 116%N d then Next 3 else Reject
  | 3 => if unit_eq true 112%N d then Next 4 else Reject
  | 4 => if unit_eq true 115%N d then Next 5
         else if unit_eq true 58%N d then Next 6 else Reject
  | 5 => if unit_eq true 58%N d then Next 6 else Reject
  | 6 => if unit_eq true 47%N d then Next 7 else Reject
  | 7 => if unit_eq true 47%N d then Next 8 else Reject
  | _ => if link_unit d then Accept else Reject
  end.

Fixpoint link_run (state : nat) (s : jsstring) : bool :=
  match s with
  | [] => false
  | d :: rest =>
      match link_step state d with
      | Accept => true
      | Reject => false
      | Next state' => link_run state' rest
      end
  end.

Definition link_head (s : jsstring) : bool := link_run 0 s.

Definition starts_with_gt (s : jsstring) : bool :=
  match s with
  | d :: _ => (d =? 62)%N
  | [] => false
  end.

(** A line feed, carriage return, line or paragraph separator, and
    right behind it [>]. *)
Definition quote_head (s : jsstring) : bool :=
  match s with
  | d :: rest => is_line_terminator d && starts_with_gt rest
  | [] => false
  end.

(** The three properties of a cleaned text. *)
Definition link_free (s : jsstring) : Prop :=
  every_suffix (fun t => link_head t = false) s.

Definition quote_free (s : jsstring) : Prop :=
  every_suffix (fun t => quote_head t = false) s.

Definition gap_free (s : jsstring) : Prop :=
  every_suffix (fun t => nl_run t <= 2) s.

(** A link head in [x ++ out] is one in [x ++ s]. *)
Definition lifts (s out : jsstring) : Prop :=
  forall x, link_head (x ++ out) = true -> link_head (x ++ s) = true.

End Matching.

(** ** The lines of a text *)

Module Lines.

(** The lines of a text, split at line feeds; [cur] holds, reversed,
    the code units of the line being read. *)
Fixpoint lines_go (cur : jsstring) (s : jsstring) : list jsstring :=
  match s with
  | [] => [rev cur]
  | d :: rest =>
      if (d =? 10)%N then rev cur :: lines_go [] rest
      else lines_go (d :: cur) rest
  end.

Definition lines (s : jsstring) : list jsstring := lines_go [] s.

Definition is_empty (l : jsstring) : bool :=
  match l with [] => true | _ => false end.

(** A blank line holds nothing but white space. *)
Definition is_blank_line (l : jsstring) : bool := forallb is_white_space l.

(** Two lines in a row that satisfy [p]. *)
Fixpoint run_of_two (p : jsstring -> bool) (ls : list jsstring) : bool :=
  match ls with
  | a :: rest =>
      match rest with
      | b :: _ => (p a && p b) || run_of_two p rest
      | [] => false
      end
  | [] => false
  end.

End Lines.

(** Searching a text for a word. *)
Module Text.

Fixpoint starts_with (w s : jsstring) : bool :=
  match w, s with
  | [], _ => true
  | a :: w', d :: s' => (a =? d)%N && starts_with w' s'
  | _ :: _, [] => false
  end.

Fixpoint contains (w s : jsstring) : bool :=
  starts_with w s
  || match s with
     | [] => false
     | _ :: rest => contains w rest
     end.

(** The position at which [w] first occurs in [s]. *)
Fixpoint first_occurrence (w s : jsstring) : nat :=
  if starts_with w s then 0
  else match s with
       | [] => 0
       | _ :: rest => S (first_occurrence w rest)
       end.

Fixpoint ascending (l : list nat) : bool :=
  match l with
  | a :: rest =>
      match rest with
      | b :: _ => (a <=? b) && ascending rest
      | [] => true
      end
  | [] => true
  end.

(** The entries stand in the order in which they first occur in the text. *)
Definition in_text_order (text : jsstring) (entries : list jsstring) : bool :=
  ascending (map (fun e => first_occurrence e text) entries).

End Text.

(** The classifier as the specification words it: an ordered list of
    rules, each a test for the words of a vocabulary in the text and the
    label it gives; the first rule that applies decides. *)
Module ClassifierSpec.

Import Text.

Definition contains_any (vocabulary : list string) (text : jsstring) : bool :=
  existsb (fun w => contains (u w) text) vocabulary.

Definition bulkVocabulary : list string :=
  ["noreply"; "no-reply"; "newsletter"; "marketing"; "promo"; "offer";
   "sale"; "discount"; "deal"; "unsubscribe"]%string.
Definition priceVocabulary : list string :=
  ["off"; "%"; "discount"; "sale"; "deal"; "coupon"; "offer"; "price"; "save"]%string.
Definition securityVocabulary : list string :=
  ["alert"; "security"; "verification"; "verify"; "password"; "signin";
   "login"; "suspicious"; "unusual"]%string.
Definition billingVocabulary : list string :=
  ["invoice"; "payment"; "receipt"; "order"; "transaction"; "billing";
   "subscription"]%string.
Definition schedulingVocabulary : list string :=
  ["meeting"; "invite"; "calendar"; "event"; "rsvp"; "attend"; "join";
   "webinar"; "summit"; "conference"]%string.
Definition noticeVocabulary : list string :=
  ["notification"; "update"; "reminder"; "notice"]%string.
Definition devVocabulary : list string :=
  ["github"; "gitlab"; "jenkins"; "deploy"; "build"; "commit";
   "pull request"; "merge"]%string.

Definition rule : Type := ((jsstring -> bool) * (jsstring -> Category))%type.

Definition rules : list rule :=
  [ (contains_any bulkVocabulary,
     fun text => if contains_any priceVocabulary text
                 then promotional else newsletter);
    (contains_any securityVocabulary, fun _ => security);
    (contains_any billingVocabulary, fun _ => transactional);
    (contains_any schedulingVocabulary, fun _ => event);
    (contains_any noticeVocabulary, fun _ => notification);
    (contains_any devVocabulary, fun _ => development) ].

Fixpoint first_match (rs : list rule) (text : jsstring) : Category :=
  match rs with
  | [] => personal
  | (applies, label) :: rest =>
      if applies text then label text else first_match rest text
  end.

Definition classify_by_rules (text : jsstring) : Category :=
  first_match rules text.

(** The text of the specification: [from + subject + body], lower-cased. *)
Definition plainConcatenation (headers : Headers.t) (cleanedBody : field) : jsstring :=
  toLowerCase (or_else (Headers.from headers) []
               ++ or_else (Headers.subject headers) []
               ++ or_else cleanedBody []).

Definition classify_as_specified (headers : Headers.t) (cleanedBody : field)
  : Category :=
  classify_by_rules (plainConcatenation headers cleanedBody).

Definition categories : list Category :=
  [promotional; newsletter; security; transactional;
   event; notification; development; personal].

(** No capital letter of Basic Latin. *)
Definition caseless (d : codeunit) : bool := negb (in_range 65%N 90%N d).

Definition is_some {A : Type} (o : option A) : bool :=
  match o with Some _ => true | None => false end.

End ClassifierSpec.

(** ** The summary as the specification words it *)

Module DigestSpec.

Import EmailProcessor.

(** The summary of the specification, in which the cleaned body is the
    cleaned form of the body of the message: the key phrases joined,
    else the first 300 code units of the cleaned body, else the
    snippet, else the fixed text; then the cap. *)
Definition summary_as_specified (emailContent : EmailContent.t) : jsstring :=
  let cleanedBody := cleanEmailBody (EmailContent.body emailContent) in
  let keyPhrases := KeyInfo.keyPhrases (extractKeyInfo cleanedBody) in
  let selected :=
    match keyPhrases with
    | _ :: _ => join (u ". ") keyPhrases
    | [] =>
        match cleanedBody with
        | _ :: _ => firstn 300 cleanedBody
        | [] =>
            match EmailContent.snippet emailContent with
            | Some (c :: t) => c :: t
            | _ => u "No readable content"
            end
        end
    end in
  if 400 <? length selected then firstn 397 selected ++ u "..." else selected.

End DigestSpec.

(** Vocabulary of the further properties. *)
Module Extra.

Import RegExp GmailService.

(** The value of the last header whose lower-cased name is [key], the
    empty string when there is none. *)
Definition lastValue (key : jsstring) (headers : list RawHeader) : jsstring :=
  match find (fun h => JsString.eqb (toLowerCase (name h)) key) (rev headers) with
  | Some h => value h
  | None => []
  end.

(** What [escapeHtml] makes of one code unit. *)
Definition escapeUnit (d : codeunit) : jsstring :=
  if (d =? 38)%N then u "&amp;"
  else if (d =? 60)%N then u "&lt;"
  else if (d =? 62)%N then u "&gt;"
  else [d].

(** Reading the three entities back. *)
Fixpoint unescape_go (s : jsstring) (skip : nat) : jsstring :=
  match skip with
  | S k =>
      match s with
      | _ :: rest => unescape_go rest k
      | [] => []
      end
  | O =>
      match s with
      | [] => []
      | d :: rest =>
          if App.startsWith (u "&amp;") s then 38%N :: unescape_go rest 4
          else if App.startsWith (u "&lt;") s then 60%N :: unescape_go rest 3
          else if App.startsWith (u "&gt;") s then 62%N :: unescape_go rest 3
          else d :: unescape_go rest 0
      end
  end.

Definition unescapeHtml (s : jsstring) : jsstring := unescape_go s 0.

(** The number of code units at the start of a text that satisfy [ok]. *)
Fixpoint run_of (ok : codeunit -> bool) (s : jsstring) : nat :=
  match s with
  | d :: rest => if ok d then S (run_of ok rest) else 0
  | [] => 0
  end.

(** The least number of code units a match of a pattern takes. *)
Fixpoint min_len (r : regex) : nat :=
  match r with
  | Char _ | Class _ _ | Dot => 1
  | Seq a b => min_len a + min_len b
  | Alt a b => Nat.min (min_len a) (min_len b)
  | _ => 0
  end.

(** The patterns of the cleaner, in the order of its passes. *)
Definition cleaningPatterns : list RegExp.t :=
  EmailProcessor.urlPattern :: EmailProcessor.footerPatterns
  ++ [EmailProcessor.quotedPattern; EmailProcessor.wrotePattern;
      EmailProcessor.newlinesPattern; EmailProcessor.blanksPattern].

(** [.], [!], [?] and the line feed, the class of the sentence breaks. *)
Definition is_break (d : codeunit) : bool :=
  in_class false [CChar 46%N; CChar 33%N; CChar 63%N; CChar 10%N] d.

(** The space and the tab, the class of the blanks pattern. *)
Definition is_blank (d : codeunit) : bool :=
  in_class false [CChar 32%N; CChar 9%N] d.

(** No two blanks stand in a row. *)
Definition blank_free (s : jsstring) : Prop :=
  Matching.every_suffix (fun t => run_of is_blank t <= 1) s.

(** The text starts with the code units of [w], in any case. *)
Definition word_head (w t : jsstring) : bool :=
  ClassifierSpec.is_some (Matching.strip true w (None, t)).

(** No text that remains after some code units of [s] has the head
    [head]; a head in [x ++ out] is one in [x ++ s]. *)
Definition head_free (head : jsstring -> bool) (s : jsstring) : Prop :=
  Matching.every_suffix (fun t => head t = false) s.

Definition head_lifts (head : jsstring -> bool) (s out : jsstring) : Prop :=
  forall x, head (x ++ out) = true -> head (x ++ s) = true.

(** [/unsubscribe.*$/gim], the first of the footer patterns. *)
Definition unsubscribeFooter : RegExp.t :=
  mk (Seq (lit "unsubscribe") EmailProcessor.rest_of_line) true true.

(** [x] occurs in [s] as it is. *)
Definition factor (x s : jsstring) : Prop :=
  exists before after, s = before ++ x ++ after.

End Extra.

(** * Properties *)

Import EmailProcessor ContextManager Store.

(** ** Lists and strings *)

Section ListFacts.

Context {A : Type}.

Lemma slice_last_length (n : nat) (l : list A) :
  length (slice_last n l) = Nat.min n (length l).
Proof.
  unfold slice_last. rewrite length_skipn. lia.
Qed.

Lemma slice_last_all (n : nat) (l : list A) :
  length l <= n -> slice_last n l = l.
Proof.
  intros H. unfold slice_last.
  replace (length l - n) with 0 by lia. reflexivity.
Qed.

Lemma slice_last_app (n : nat) (a b : list A) :
  slice_last n (slice_last n a ++ b) = slice_last n (a ++ b).
Proof.
  destruct (Nat.le_gt_cases (length a) n) as [Hle | Hgt].
  - now rewrite (slice_last_all a Hle).
  - unfold slice_last at 1 3.
    rewrite !length_app, slice_last_length.
    replace (Nat.min n (length a)) with n by lia.
    unfold slice_last.
    replace (length a + length b - n) with (length b + (length a - n)) by lia.
    rewrite <- skipn_skipn.
    rewrite (skipn_app (length a - n) a b).
    replace (length a - n - length a) with 0 by lia.
    simpl (skipn 0 b).
    f_equal. lia.
Qed.

End ListFacts.

Lemma eqb_eq (a b : jsstring) : JsString.eqb a b = true <-> a = b.
Proof.
  revert b. induction a as [| x a IH]; intros [| y b]; simpl;
    try (split; [discriminate | discriminate]).
  - tauto.
  - rewrite andb_true_iff, N.eqb_eq, IH. split.
    + intros [-> ->]. reflexivity.
    + intros E. now inversion E.
Qed.

Lemma eqb_refl (a : jsstring) : JsString.eqb a a = true.
Proof. now apply eqb_eq. Qed.

Lemma eqb_neq (a b : jsstring) : JsString.eqb a b = false <-> a <> b.
Proof.
  rewrite <- eqb_eq. destruct (JsString.eqb a b); split; congruence.
Qed.

Lemma existsb_eqb_In (x : jsstring) (l : list jsstring) :
  existsb (JsString.eqb x) l = true <-> In x l.
Proof.
  rewrite existsb_exists. split.
  - intros (y & Hy & E). apply eqb_eq in E. now subst.
  - intros H. exists x. split; [assumption | apply eqb_refl].
Qed.

Lemma distinct_NoDup (l : list jsstring) : distinct l = true -> NoDup l.
Proof.
  induction l as [| x l IH]; simpl; intros H.
  - constructor.
  - apply andb_prop in H. destruct H as [H1 H2].
    constructor; [| now apply IH].
    intros Hin. apply existsb_eqb_In in Hin.
    rewrite Hin in H1. discriminate.
Qed.

(** ** The insertion-ordered map *)

Section MapFacts.

Import ContextManager.

Lemma Map_get_None (k : jsstring) (m : Cache) :
  Map_get k m = None <-> ~ In k (keys m).
Proof.
  induction m as [| [k' v] m IH]; simpl.
  - tauto.
  - destruct (JsString.eqb k k') eqn:E.
    + apply eqb_eq in E. subst. split; [discriminate | tauto].
    + apply eqb_neq in E. rewrite IH. split.
      * intros H [H' | H']; [congruence | tauto].
      * tauto.
Qed.

Lemma Map_set_absent (k : jsstring) (v : CachedDigest) (m : Cache) :
  ~ In k (keys m) -> Map_set k v m = m ++ [(k, v)].
Proof.
  induction m as [| [k' v'] m IH]; simpl; intros H.
  - reflexivity.
  - destruct (JsString.eqb k k') eqn:E.
    + apply eqb_eq in E. subst. tauto.
    + rewrite IH by tauto. reflexivity.
Qed.

Lemma Map_set_keys_present (k : jsstring) (v : CachedDigest) (m : Cache) :
  In k (keys m) -> keys (Map_set k v m) = keys m.
Proof.
  induction m as [| [k' v'] m IH]; simpl; intros H.
  - tauto.
  - destruct (JsString.eqb k k') eqn:E.
    + reflexivity.
    + apply eqb_neq in E. simpl. f_equal. apply IH.
      destruct H; [congruence | assumption].
Qed.

Lemma Map_set_length (k : jsstring) (v : CachedDigest) (m : Cache) :
  length (Map_set k v m)
  = match Map_get k m with Some _ => length m | None => S (length m) end.
Proof.
  induction m as [| [k' v'] m IH]; simpl.
  - reflexivity.
  - destruct (JsString.eqb k k'); simpl.
    + reflexivity.
    + rewrite IH. now destruct (Map_get k m).
Qed.

Lemma Map_get_set_same (k : jsstring) (v : CachedDigest) (m : Cache) :
  Map_get k (Map_set k v m) = Some v.
Proof.
  induction m as [| [k' v'] m IH]; simpl.
  - now rewrite eqb_refl.
  - destruct (JsString.eqb k k') eqn:E; simpl; now rewrite E.
Qed.

Lemma Map_get_set_other (k k0 : jsstring) (v : CachedDigest) (m : Cache) :
  k0 <> k -> Map_get k0 (Map_set k v m) = Map_get k0 m.
Proof.
  intros Hne. induction m as [| [k' v'] m IH]; simpl.
  - destruct (JsString.eqb k0 k) eqn:E; [apply eqb_eq in E; congruence | reflexivity].
  - destruct (JsString.eqb k k') eqn:E; simpl.
    + apply eqb_eq in E. subst k'.
      destruct (JsString.eqb k0 k) eqn:E'; [apply eqb_eq in E'; congruence | reflexivity].
    + now rewrite IH.
Qed.

Lemma Map_set_keys_NoDup (k : jsstring) (v : CachedDigest) (m : Cache) :
  NoDup (keys m) -> NoDup (keys (Map_set k v m)).
Proof.
  intros H. destruct (in_dec (list_eq_dec N.eq_dec) k (keys m)) as [Hin | Hout].
  - now rewrite Map_set_keys_present.
  - rewrite Map_set_absent by assumption.
    unfold keys. rewrite map_app. simpl.
    apply NoDup_app; [assumption | repeat constructor; simpl; tauto |].
    intros x Hx [Hx' | []]. subst. tauto.
Qed.

Lemma evictFirst_cons (e : jsstring * CachedDigest) (m : Cache) :
  evictFirst (e :: m) = m.
Proof.
  destruct e as [k v]. simpl. now rewrite eqb_refl.
Qed.

Lemma evictFirst_length (m : Cache) :
  length (evictFirst m) = pred (length m).
Proof.
  destruct m as [| e m]; [reflexivity | now rewrite evictFirst_cons].
Qed.

Lemma evictFirst_NoDup (m : Cache) :
  NoDup (keys m) -> NoDup (keys (evictFirst m)).
Proof.
  destruct m as [| e m]; [trivial |].
  rewrite evictFirst_cons. simpl. now inversion 1.
Qed.

End MapFacts.

(** ** The context store *)

Section StoreFacts.

Lemma trimFront_skipn (limit : nat) (history : list Turn) :
  trimFront limit history = skipn (length history - limit) history.
Proof.
  induction history as [| x rest IH].
  - reflexivity.
  - cbn [trimFront]. destruct (limit <? length (x :: rest)) eqn:E.
    + apply Nat.ltb_lt in E. rewrite IH. simpl length in *.
      replace (S (length rest) - limit) with (S (length rest - limit)) by lia.
      reflexivity.
    + apply Nat.ltb_ge in E.
      replace (length (x :: rest) - limit) with 0 by lia. reflexivity.
Qed.

Lemma addExchange_history (userMsg agentMsg : jsstring) (now1 now2 : time)
  (s : ContextManager.t) :
  conversationHistory (addExchange userMsg agentMsg now1 now2 s)
  = slice_last (maxHistory s * 2)
      (conversationHistory s
       ++ [mkTurn user userMsg now1; mkTurn agent agentMsg now2]).
Proof.
  unfold addExchange. cbn [conversationHistory]. apply trimFront_skipn.
Qed.

Lemma recordAll_maxHistory (xs : list exchange) (s : ContextManager.t) :
  maxHistory (recordAll xs s) = maxHistory s.
Proof.
  revert s. induction xs as [| [[[a b] c] d] xs IH]; intros s.
  - reflexivity.
  - cbn [recordAll fold_left]. fold (recordAll xs). now rewrite IH.
Qed.

Lemma recordAll_history (xs : list exchange) (s : ContextManager.t) :
  length (conversationHistory s) <= maxHistory s * 2 ->
  conversationHistory (recordAll xs s)
  = slice_last (maxHistory s * 2)
      (conversationHistory s ++ flat_map exchangeTurns xs).
Proof.
  revert s. induction xs as [| [[[a b] c] d] xs IH]; intros s Hlen.
  - cbn [recordAll fold_left flat_map]. rewrite app_nil_r.
    now rewrite slice_last_all.
  - cbn [recordAll fold_left]. fold (recordAll xs).
    rewrite IH.
    + rewrite addExchange_history. cbn [addExchange maxHistory].
      rewrite slice_last_app, <- app_assoc. reflexivity.
    + rewrite addExchange_history, slice_last_length.
      cbn [addExchange maxHistory]. lia.
Qed.

Lemma NoDup_app_disjoint {A : Type} (a b : list A) (x : A) :
  NoDup (a ++ b) -> In x a -> ~ In x b.
Proof.
  induction a as [| y a IH]; simpl; intros Hnd Hin Hb.
  - assumption.
  - inversion Hnd as [| ? ? Hy Hnd']; subst.
    destruct Hin as [-> | Hin].
    + apply Hy, in_or_app. now right.
    + now apply IH.
Qed.

Lemma cacheEmail_ok (id : jsstring) (d : Digest.t) (now : time)
  (s : ContextManager.t) :
  cache_ok s -> cache_ok (cacheEmail id d now s).
Proof.
  intros (Hmax & Hlen & Hnd). unfold cache_ok, cacheEmail.
  cbn [maxCache emailCache]. split; [assumption |].
  rewrite Hmax. destruct (50 <=? length (emailCache s)) eqn:E.
  - apply Nat.leb_le in E. split.
    + rewrite Map_set_length.
      pose proof (evictFirst_length (emailCache s)).
      destruct (Map_get id (evictFirst (emailCache s))); lia.
    + now apply Map_set_keys_NoDup, evictFirst_NoDup.
  - apply Nat.leb_gt in E. split.
    + rewrite Map_set_length. destruct (Map_get id (emailCache s)); lia.
    + now apply Map_set_keys_NoDup.
Qed.

Lemma reachable_cache_ok (s : ContextManager.t) : reachable s -> cache_ok s.
Proof.
  induction 1; try assumption.
  - repeat split; simpl; [lia | constructor].
  - now apply cacheEmail_ok.
  - destruct IHreachable as (? & ? & ?). repeat split; simpl; [assumption | lia | constructor].
Qed.

Lemma reachable_cacheAll (calls : list caching) (s : ContextManager.t) :
  reachable s -> reachable (cacheAll calls s).
Proof.
  revert s. induction calls as [| c calls IH]; intros s H.
  - assumption.
  - cbn [cacheAll fold_left]. apply IH. now constructor.
Qed.

Lemma cacheAll_app (a b : list caching) (s : ContextManager.t) :
  cacheAll (a ++ b) s = cacheAll b (cacheAll a s).
Proof. apply fold_left_app. Qed.

(** Below capacity, new identifiers are appended in the order of the calls. *)
Lemma cacheAll_fresh (calls : list caching) (s : ContextManager.t) :
  NoDup (keys (emailCache s) ++ map cachingId calls) ->
  length (emailCache s) + length calls <= maxCache s ->
  emailCache (cacheAll calls s) = emailCache s ++ map cachingEntry calls
  /\ maxCache (cacheAll calls s) = maxCache s.
Proof.
  revert s. induction calls as [| [[id d] now] calls IH]; intros s Hnd Hlen.
  - simpl. now rewrite app_nil_r.
  - change (cacheAll ((id, d, now) :: calls) s)
      with (cacheAll calls (cacheEmail id d now s)).
    simpl in Hlen.
    assert (Hout : ~ In id (keys (emailCache s))).
    { intros Hin. apply (NoDup_app_disjoint _ _ id Hnd Hin). now left. }
    assert (Hstep : emailCache (cacheEmail id d now s)
                    = emailCache s ++ [(id, mkCached d now)]).
    { unfold cacheEmail. cbn [emailCache].
      destruct (maxCache s <=? length (emailCache s)) eqn:E.
      - apply Nat.leb_le in E. lia.
      - now apply Map_set_absent. }
    destruct (IH (cacheEmail id d now s)) as [H1 H2].
    + rewrite Hstep. unfold keys. rewrite map_app. simpl.
      rewrite <- app_assoc. exact Hnd.
    + rewrite Hstep, length_app.
      change (maxCache (cacheEmail id d now s)) with (maxCache s). simpl. lia.
    + rewrite H1, H2, Hstep, <- app_assoc. split; reflexivity.
Qed.

End StoreFacts.

Section StoreClaims.

Lemma Map_get_In (k : jsstring) (v : CachedDigest) (m : Cache) :
  NoDup (keys m) -> In (k, v) m -> Map_get k m = Some v.
Proof.
  induction m as [| [k' v'] m IH]; simpl; intros Hnd Hin.
  - contradiction.
  - inversion Hnd as [| ? ? Hk Hnd']; subst.
    destruct Hin as [E | Hin].
    + inversion E; subst. now rewrite eqb_refl.
    + destruct (JsString.eqb k k') eqn:E.
      * apply eqb_eq in E. subst k'. exfalso. apply Hk.
        change k with (fst (k, v)). now apply in_map.
      * now apply IH.
Qed.

Lemma keys_entries (calls : list caching) :
  keys (map cachingEntry calls) = map cachingId calls.
Proof.
  unfold keys. rewrite map_map. reflexivity.
Qed.

Lemma exchangeTurns_length (xs : list exchange) :
  length (flat_map exchangeTurns xs) = 2 * length xs.
Proof.
  induction xs as [| [[[a b] c] d] xs IH]; simpl; lia.
Qed.

(** C1. Every store the program can build keeps at most [maxCache]
    digests after [cacheEmail]; caching a new identifier at capacity
    drops the entry inserted first and appends the new one; in
    particular the fifty-first distinct identifier cached into a new
    store leaves the fifty cached after the first, in their order. *)
Theorem cacheEmail_capacity_fifo :
  (forall s, reachable s -> forall id d now,
      let s' := cacheEmail id d now s in
      length (emailCache s') <= maxCache s'
      /\ (getCachedEmail id s = None ->
          length (emailCache s) = maxCache s ->
          exists oldest rest,
            emailCache s = oldest :: rest
            /\ emailCache s' = rest ++ [(id, mkCached d now)]
            /\ getCachedEmail (fst oldest) s' = None))
  /\ (forall calls first,
      NoDup (map cachingId calls) -> length calls = 51 ->
      hd_error calls = Some first ->
      let s' := cacheAll calls constructor in
      maxCache s' = 50
      /\ length (emailCache s') = 50
      /\ emailCache s' = map cachingEntry (tl calls)
      /\ getCachedEmail (cachingId first) s' = None
      /\ (forall c, In c (tl calls) ->
          getCachedEmail (cachingId c) s' = Some (snd (cachingEntry c)))).
Proof.
  split.
  - intros s Hs id d now s'.
    pose proof (reachable_cache_ok Hs) as (Hmax & Hlen & Hnd).
    pose proof (cacheEmail_ok id d now (reachable_cache_ok Hs)) as (Hmax' & Hlen' & Hnd').
    fold s' in Hmax', Hlen', Hnd'. split; [lia |].
    intros Hnew Hfull. unfold getCachedEmail in Hnew.
    apply Map_get_None in Hnew.
    destruct (emailCache s) as [| oldest rest] eqn:Ec; [simpl in Hfull; lia |].
    exists oldest, rest. split; [reflexivity |].
    assert (Ecache : emailCache s' = rest ++ [(id, mkCached d now)]).
    { unfold s', cacheEmail. cbn [emailCache]. rewrite Ec, <- Hfull, Nat.leb_refl.
      rewrite evictFirst_cons. apply Map_set_absent.
      intros Hin. apply Hnew. simpl. now right. }
    split; [assumption |].
    unfold getCachedEmail. apply Map_get_None. rewrite Ecache.
    unfold keys. rewrite map_app. simpl. intros Hin.
    apply in_app_or in Hin. simpl in Hnd. inversion Hnd as [| ? ? Hk _]; subst.
    destruct Hin as [Hin | [E | []]].
    + now apply Hk.
    + apply Hnew. simpl. now left.
  - intros calls first Hnd Hlen Hfirst s'.
    destruct calls as [| c0 rest]; [discriminate |].
    simpl in Hfirst. injection Hfirst as <-.
    simpl in Hlen. cbn [tl].
    destruct (exists_last (l := rest)) as (mid & cl & ->);
      [destruct rest; [discriminate | discriminate] |].
    rewrite length_app in Hlen. simpl in Hlen.
    assert (Hmid : length mid = 49) by lia.
    remember (cacheAll (c0 :: mid) constructor) as s1 eqn:Es1.
    assert (Hs1 : emailCache s1 = map cachingEntry (c0 :: mid) /\ maxCache s1 = 50).
    { subst s1. apply (cacheAll_fresh (c0 :: mid) constructor).
      - rewrite app_comm_cons, map_app in Hnd.
        now apply NoDup_app_remove_r in Hnd.
      - simpl. lia. }
    destruct Hs1 as [Hc Hm].
    assert (Es' : s' = cacheEmail (fst (fst cl)) (snd (fst cl)) (snd cl) s1).
    { unfold s'. rewrite app_comm_cons, cacheAll_app, <- Es1. reflexivity. }
    assert (Ecache : emailCache s' = map cachingEntry (mid ++ [cl])).
    { rewrite Es'. unfold cacheEmail. cbn [emailCache].
      rewrite Hm, Hc. replace (length (map cachingEntry (c0 :: mid))) with 50
        by (rewrite length_map; simpl; lia).
      cbn [Nat.leb map]. rewrite evictFirst_cons, map_app.
      apply Map_set_absent. rewrite keys_entries.
      simpl in Hnd. inversion Hnd as [| ? ? _ Hnd']; subst.
      rewrite map_app in Hnd'. intros Hin.
      apply (NoDup_app_disjoint _ _ _ Hnd' Hin). now left. }
    assert (Hnd' : NoDup (keys (emailCache s'))).
    { rewrite Ecache, keys_entries. simpl in Hnd. now inversion Hnd. }
    repeat split.
    + rewrite Es'. exact Hm.
    + rewrite Ecache, length_map, length_app. simpl. lia.
    + exact Ecache.
    + unfold getCachedEmail. apply Map_get_None.
      rewrite Ecache, keys_entries. simpl in Hnd. now inversion Hnd.
    + intros c Hc'. unfold getCachedEmail. apply Map_get_In; [assumption |].
      rewrite Ecache. change (cachingId c, snd (cachingEntry c)) with (cachingEntry c).
      now apply in_map.
Qed.

Lemma cacheEmail_capacity_fifo_witness :
  length (emailCache (cacheEmail (u "new") emptyDigest 7%N
                        (cacheAll (sampleCalls 50) constructor))) <= 50
  /\ emailCache (cacheAll (sampleCalls 51) constructor)
     = map cachingEntry (tl (sampleCalls 51)).
Proof.
  split.
  - apply (proj1 cacheEmail_capacity_fifo
             (cacheAll (sampleCalls 50) constructor)
             (reachable_cacheAll (sampleCalls 50) reach_new)
             (u "new") emptyDigest 7%N).
  - refine (proj1 (proj2 (proj2 (proj2 cacheEmail_capacity_fifo (sampleCalls 51)
             (u "0", emptyDigest, 0%N) _ _ _)))).
    + apply distinct_NoDup. vm_compute. reflexivity.
    + vm_compute. reflexivity.
    + vm_compute. reflexivity.
Defined.

(** C10. Caching again, at capacity, an identifier that is cached still
    evicts the oldest entry first: when that is another identifier it is
    lost and the one cached again stays where it was in the insertion
    order; when the identifier was itself the oldest it goes to the back. *)
Theorem cacheEmail_recache_at_capacity :
  forall s, reachable s -> forall id d now,
    In id (keys (emailCache s)) ->
    length (emailCache s) = maxCache s ->
    let s' := cacheEmail id d now s in
    exists oldest rest,
      emailCache s = oldest :: rest
      /\ (id <> fst oldest ->
          keys (emailCache s') = keys rest
          /\ getCachedEmail (fst oldest) s' = None
          /\ getCachedEmail id s' = Some (mkCached d now)
          /\ length (emailCache s') = maxCache s - 1)
      /\ (id = fst oldest ->
          emailCache s' = rest ++ [(id, mkCached d now)]).
Proof.
  intros s Hs id d now Hin Hfull s'.
  pose proof (reachable_cache_ok Hs) as (Hmax & Hlen & Hnd).
  destruct (emailCache s) as [| oldest rest] eqn:Ec; [contradiction |].
  exists oldest, rest. split; [reflexivity |].
  assert (Ecache : emailCache s' = Map_set id (mkCached d now) rest).
  { unfold s', cacheEmail. cbn [emailCache].
    now rewrite Ec, <- Hfull, Nat.leb_refl, evictFirst_cons. }
  simpl in Hnd. inversion Hnd as [| ? ? Hk Hnd']; subst.
  split.
  - intros Hne. assert (Hin' : In id (keys rest)).
    { destruct Hin as [E | Hin]; [congruence | assumption]. }
    repeat split.
    + rewrite Ecache. now apply Map_set_keys_present.
    + unfold getCachedEmail. apply Map_get_None.
      rewrite Ecache, Map_set_keys_present; assumption.
    + unfold getCachedEmail. rewrite Ecache. apply Map_get_set_same.
    + rewrite Ecache, Map_set_length.
      destruct (Map_get id rest) eqn:Eg.
      * rewrite <- Hfull. simpl. lia.
      * apply Map_get_None in Eg. contradiction.
  - intros ->. rewrite Ecache. now apply Map_set_absent.
Qed.

Lemma cacheEmail_recache_at_capacity_witness :
  exists oldest rest,
    emailCache (cacheAll (sampleCalls 50) constructor) = oldest :: rest
    /\ (u "7" <> fst oldest ->
        keys (emailCache (cacheEmail (u "7") emptyDigest 9%N
                            (cacheAll (sampleCalls 50) constructor)))
        = keys rest
        /\ getCachedEmail (fst oldest)
             (cacheEmail (u "7") emptyDigest 9%N
                (cacheAll (sampleCalls 50) constructor)) = None
        /\ getCachedEmail (u "7")
             (cacheEmail (u "7") emptyDigest 9%N
                (cacheAll (sampleCalls 50) constructor))
           = Some (mkCached emptyDigest 9%N)
        /\ length (emailCache (cacheEmail (u "7") emptyDigest 9%N
                                 (cacheAll (sampleCalls 50) constructor)))
           = maxCache (cacheAll (sampleCalls 50) constructor) - 1)
    /\ (u "7" = fst oldest ->
        emailCache (cacheEmail (u "7") emptyDigest 9%N
                      (cacheAll (sampleCalls 50) constructor))
        = rest ++ [(u "7", mkCached emptyDigest 9%N)]).
Proof.
  apply (cacheEmail_recache_at_capacity
           (reachable_cacheAll (sampleCalls 50) reach_new)
           (u "7") emptyDigest 9%N).
  - apply (proj1 (existsb_eqb_In _ _)). vm_compute. reflexivity.
  - vm_compute. reflexivity.
Defined.

(** C4. [addExchange] pushes one user turn and then one agent turn and
    drops from the front exactly what exceeds [2 * maxHistory]; eleven
    exchanges recorded into a new store leave the twenty turns of the
    last ten. *)
Theorem addExchange_appends_and_trims :
  (forall s userMsg agentMsg now1 now2,
      let pushed := conversationHistory s
                    ++ [mkTurn user userMsg now1; mkTurn agent agentMsg now2] in
      let s' := addExchange userMsg agentMsg now1 now2 s in
      conversationHistory s'
      = skipn (length pushed - 2 * maxHistory s) pushed
      /\ length (conversationHistory s') <= 2 * maxHistory s')
  /\ (forall xs, length xs = 11 ->
      let s' := recordAll xs constructor in
      length (conversationHistory s') = 20
      /\ conversationHistory s' = flat_map exchangeTurns (tl xs)).
Proof.
  split.
  - intros s userMsg agentMsg now1 now2 pushed s'. unfold s'.
    rewrite addExchange_history. fold pushed. unfold slice_last.
    rewrite (Nat.mul_comm (maxHistory s)). split; [reflexivity |].
    rewrite length_skipn. cbn [addExchange maxHistory]. lia.
  - intros xs Hlen s'. unfold s'.
    rewrite recordAll_history by (simpl; lia).
    destruct xs as [| x rest]; [discriminate |].
    simpl in Hlen. cbn [tl constructor conversationHistory maxHistory app flat_map].
    assert (Hrest : length (flat_map exchangeTurns rest) = 20).
    { rewrite exchangeTurns_length. lia. }
    assert (E : slice_last (10 * 2) (exchangeTurns x ++ flat_map exchangeTurns rest)
                = flat_map exchangeTurns rest).
    { unfold slice_last. rewrite length_app, Hrest.
      destruct x as [[[a b] c] d]. reflexivity. }
    rewrite E. split; [assumption | reflexivity].
Qed.

Lemma addExchange_appends_and_trims_witness :
  conversationHistory
    (recordAll (map (fun n => (decimal n, u "ok", 1%N, 2%N)) (seq 0 11)) constructor)
  = flat_map exchangeTurns
      (tl (map (fun n => (decimal n, u "ok", 1%N, 2%N)) (seq 0 11))).
Proof.
  apply (proj2 addExchange_appends_and_trims
           (map (fun n => (decimal n, u "ok", 1%N, 2%N)) (seq 0 11))).
  vm_compute. reflexivity.
Defined.

End StoreClaims.

Section ActiveIds.

Lemma uniq_go_In (seen l : list jsstring) (x : jsstring) :
  In x (uniq_go seen l) <-> In x l /\ ~ In x seen.
Proof.
  revert seen. induction l as [| y l IH]; intros seen; simpl.
  - tauto.
  - destruct (existsb (JsString.eqb y) seen) eqn:E.
    + apply existsb_eqb_In in E. rewrite IH. split.
      * tauto.
      * intros [[-> | H] Hs]; tauto.
    + assert (Hy : ~ In y seen).
      { intros H. apply existsb_eqb_In in H. congruence. }
      simpl. rewrite IH. simpl. split.
      * intros [-> | [H1 H2]]; tauto.
      * intros [[-> | H] Hs]; [now left |].
        destruct (list_eq_dec N.eq_dec y x) as [-> | Hne]; [now left | right].
        split; [assumption |]. intros [? | ?]; tauto.
Qed.

Lemma uniq_go_NoDup (seen l : list jsstring) : NoDup (uniq_go seen l).
Proof.
  revert seen. induction l as [| y l IH]; intros seen; simpl.
  - constructor.
  - destruct (existsb (JsString.eqb y) seen); [apply IH |].
    constructor; [| apply IH].
    rewrite uniq_go_In. simpl. tauto.
Qed.

Lemma uniq_go_ext (s1 s2 l : list jsstring) :
  (forall x, In x s1 <-> In x s2) -> uniq_go s1 l = uniq_go s2 l.
Proof.
  revert s1 s2. induction l as [| y l IH]; intros s1 s2 H; simpl.
  - reflexivity.
  - assert (E : existsb (JsString.eqb y) s1 = existsb (JsString.eqb y) s2).
    { apply eq_true_iff_eq. rewrite !existsb_eqb_In. apply H. }
    rewrite E. destruct (existsb (JsString.eqb y) s2).
    + now apply IH.
    + f_equal. apply IH. intros x. simpl. now rewrite H.
Qed.

Lemma uniq_go_app (seen a b : list jsstring) :
  uniq_go seen (a ++ b) = uniq_go seen a ++ uniq_go (a ++ seen) b.
Proof.
  revert seen. induction a as [| y a IH]; intros seen; simpl.
  - reflexivity.
  - destruct (existsb (JsString.eqb y) seen) eqn:E.
    + rewrite IH. f_equal. apply uniq_go_ext. intros x.
      apply existsb_eqb_In in E. simpl. rewrite !in_app_iff.
      intuition (subst; auto).
    + simpl. f_equal. rewrite IH. f_equal. apply uniq_go_ext. intros x.
      simpl. rewrite !in_app_iff. simpl. tauto.
Qed.

Lemma uniq_go_fixed (seen a : list jsstring) :
  NoDup a -> (forall x, In x a -> ~ In x seen) -> uniq_go seen a = a.
Proof.
  revert seen. induction a as [| y a IH]; intros seen Hnd Hd; simpl.
  - reflexivity.
  - inversion Hnd as [| ? ? Hy Hnd']; subst.
    destruct (existsb (JsString.eqb y) seen) eqn:E.
    + apply existsb_eqb_In in E. exfalso. apply (Hd y); simpl; tauto.
    + f_equal. apply IH; [assumption |].
      intros x Hx [-> | Hs]; [contradiction |].
      apply (Hd x); simpl; tauto.
Qed.

(** [addActiveEmails] leaves no identifier twice, keeps every identifier
    of the old and of the new list, and, on a list without duplicates,
    keeps the old identifiers in place and appends the new ones in the
    order of their first appearance. *)
Lemma addActiveEmails_set_semantics (ids : Ids) (s : ContextManager.t) :
  let s' := addActiveEmails ids s in
  NoDup (activeEmailIds s')
  /\ (forall x, In x (activeEmailIds s')
                <-> In x (activeEmailIds s) \/ In x (asArray ids))
  /\ (NoDup (activeEmailIds s) ->
      activeEmailIds s'
      = activeEmailIds s ++ uniq_go (activeEmailIds s) (asArray ids)).
Proof.
  cbn [addActiveEmails activeEmailIds]. unfold uniq. split; [| split].
  - apply uniq_go_NoDup.
  - intros x. rewrite uniq_go_In, in_app_iff. simpl. tauto.
  - intros Hnd. rewrite uniq_go_app, app_nil_r.
    f_equal. apply uniq_go_fixed; [assumption | simpl; tauto].
Qed.

(** C5. [setActiveEmails] stores the identifiers it is given as they are:
    an array that names an identifier twice leaves it twice in
    [activeEmailIds], where [addActiveEmails] would have kept one. *)
Theorem setActiveEmails_keeps_duplicates :
  forall s,
    activeEmailIds (setActiveEmails (Many [u "a"; u "a"]) s) = [u "a"; u "a"]
    /\ ~ NoDup (activeEmailIds (setActiveEmails (Many [u "a"; u "a"]) s))
    /\ activeEmailIds (addActiveEmails (Many [u "a"; u "a"]) (clear s)) = [u "a"].
Proof.
  intros s. cbn [setActiveEmails activeEmailIds asArray]. repeat split.
  intros H. inversion H as [| ? ? Hin _]; subst. apply Hin. now left.
Qed.

End ActiveIds.

Section Rendering.

Lemma truncated_length (msg : Turn) : length (truncated msg) <= 150.
Proof.
  unfold truncated. destruct (150 <? length (content msg)) eqn:E.
  - apply Nat.ltb_lt in E. unfold substring0.
    rewrite length_app, length_firstn.
    change (length (u "...")) with 3. lia.
  - now apply Nat.ltb_ge in E.
Qed.

(** C9. The context block is empty when no active digest and no turn is
    there, as on a cleared store; with turns, it ends with the header
    and one line per turn of the last six at most, [role: content], a
    content of more than 150 code units cut to its first 147 and
    ["..."]. *)
Theorem getContextForLLM_empty_and_recent :
  (forall s, getActiveDigests s = [] -> conversationHistory s = [] ->
             getContextForLLM s = [])
  /\ (forall s, getContextForLLM (clear s) = [])
  /\ (forall s, conversationHistory s <> [] ->
      let recent := slice_last 6 (conversationHistory s) in
      getContextForLLM s
      = join [10%N] (activeParts s
                     ++ (10%N :: u "RECENT CONVERSATION:") :: map turnLine recent)
      /\ 0 < length recent <= 6
      /\ (exists older, conversationHistory s = older ++ recent)
      /\ (forall msg, In msg recent ->
          turnLine msg = role_name (role msg) ++ u ": " ++ truncated msg
          /\ length (truncated msg) <= 150
          /\ (length (content msg) <= 150 -> truncated msg = content msg)
          /\ (150 < length (content msg) ->
              truncated msg = firstn 147 (content msg) ++ u "..."))).
Proof.
  split; [| split].
  - intros s Hd Hh. unfold getContextForLLM, activeParts, recentParts.
    now rewrite Hd, Hh.
  - intros s. reflexivity.
  - intros s Hne recent.
    assert (Hlen : 0 < length recent <= 6).
    { unfold recent. rewrite slice_last_length.
      destruct (conversationHistory s); [congruence | cbn [length]; lia]. }
    split; [| split; [exact Hlen | split]].
    + unfold getContextForLLM, recentParts. fold recent.
      destruct recent; [simpl in Hlen; lia | reflexivity].
    + exists (firstn (length (conversationHistory s) - 6) (conversationHistory s)).
      unfold recent, slice_last. now rewrite firstn_skipn.
    + intros msg _. split; [reflexivity | split; [apply truncated_length |]].
      unfold truncated. split; intros H.
      * apply Nat.ltb_ge in H. now rewrite H.
      * apply Nat.ltb_lt in H. now rewrite H.
Qed.

Lemma getContextForLLM_empty_and_recent_witness :
  getContextForLLM constructor = []
  /\ getContextForLLM (addExchange (u "hi") (u "hello") 1%N 2%N constructor)
     = 10%N :: u "RECENT CONVERSATION:" ++ 10%N :: u "user: hi"
       ++ 10%N :: u "agent: hello".
Proof.
  split.
  - apply (proj1 getContextForLLM_empty_and_recent constructor); reflexivity.
  - destruct (proj2 (proj2 getContextForLLM_empty_and_recent)
                (addExchange (u "hi") (u "hello") 1%N 2%N constructor))
      as [E _].
    + discriminate.
    + rewrite E. reflexivity.
Defined.

End Rendering.

(** ** The digest builder *)

Section DigestClaims.

Lemma capSummary_length (summary : jsstring) : length (capSummary summary) <= 400.
Proof.
  unfold capSummary. destruct (400 <? length summary) eqn:E.
  - apply Nat.ltb_lt in E. unfold substring0.
    rewrite length_app, length_firstn.
    change (length (u "...")) with 3. lia.
  - now apply Nat.ltb_ge in E.
Qed.

(** C3. The summary of a digest has at most 400 code units: it is the
    selected text when that has at most 400, and otherwise its first 397
    followed by ["..."]; [actionRequired] holds exactly when
    [actionItems] is not empty. *)
Theorem buildDigest_summary_capped :
  forall emailContent,
    let d := buildDigest emailContent in
    let selected :=
      pickSummary (Digest.keyPoints d) (cleanedBodyOf emailContent)
        (EmailContent.snippet emailContent) in
    length (Digest.summary d) <= 400
    /\ (length selected <= 400 -> Digest.summary d = selected)
    /\ (400 < length selected ->
        Digest.summary d = firstn 397 selected ++ u "..."
        /\ length (Digest.summary d) = 400)
    /\ (Digest.actionRequired d = true <-> Digest.actionItems d <> []).
Proof.
  intros emailContent d selected.
  assert (E : Digest.summary d = capSummary selected) by reflexivity.
  rewrite E. split; [apply capSummary_length |].
  unfold capSummary. repeat split.
  - intros H. apply Nat.ltb_ge in H. now rewrite H.
  - apply Nat.ltb_lt in H. now rewrite H.
  - pose proof H as H'. apply Nat.ltb_lt in H'. rewrite H'. unfold substring0.
    rewrite length_app, length_firstn.
    change (length (u "...")) with 3. lia.
  - cbn [d buildDigest Digest.actionRequired Digest.actionItems].
    destruct (KeyInfo.actionItems _); [discriminate | intros _; discriminate].
  - cbn [d buildDigest Digest.actionRequired Digest.actionItems].
    destruct (KeyInfo.actionItems _); [congruence | reflexivity].
Qed.

(** C7, as stated, fails: a message without body is not summarised by
    its snippet as it is, but by what the cleaner and the extractor make
    of the snippet; here the link of the snippet has given way to the
    link token. *)
Lemma buildDigest_summary_cleans_snippet :
  Digest.summary
    (buildDigest (EmailContent.mk (Headers.mk None None None None) None
                    (Some (u "see http://a.b/c"))))
  = u "see [link]"
  /\ DigestSpec.summary_as_specified
       (EmailContent.mk (Headers.mk None None None None) None
          (Some (u "see http://a.b/c")))
     = u "see http://a.b/c"
  /\ ~ (forall emailContent,
          Digest.summary (buildDigest emailContent)
          = DigestSpec.summary_as_specified emailContent).
Proof.
  assert (H1 : Digest.summary
    (buildDigest (EmailContent.mk (Headers.mk None None None None) None
                    (Some (u "see http://a.b/c"))))
    = u "see [link]") by (vm_compute; reflexivity).
  assert (H2 : DigestSpec.summary_as_specified
       (EmailContent.mk (Headers.mk None None None None) None
          (Some (u "see http://a.b/c")))
     = u "see http://a.b/c") by (vm_compute; reflexivity).
  split; [exact H1 | split; [exact H2 |]].
  intros H. rewrite H, H2 in H1. discriminate.
Qed.

(** C7, amended.  The text that is cleaned is the body, or the snippet
    when the body is absent or empty.  The summary is selected from it:
    the key phrases of the cleaned text joined by [". "] when there are
    any; else the first 300 code units of the cleaned text when it is
    not empty; else the snippet when it is there and not empty; else
    ["No readable content"].  Whatever was selected, the summary is the
    selected text when that has at most 400 code units, and its first
    397 followed by ["..."] when it has more. *)
Theorem buildDigest_summary_selection :
  forall emailContent,
    let d := buildDigest emailContent in
    let body := EmailContent.body emailContent in
    let snippet := EmailContent.snippet emailContent in
    exists cleaned selected,
      (forall c t, body = Some (c :: t) -> cleaned = cleanEmailBody body)
      /\ (body = None \/ body = Some [] -> cleaned = cleanEmailBody snippet)
      /\ Digest.keyPoints d = KeyInfo.keyPhrases (extractKeyInfo cleaned)
      /\ (Digest.keyPoints d <> [] ->
          selected = join (u ". ") (Digest.keyPoints d))
      /\ (Digest.keyPoints d = [] -> cleaned <> [] ->
          selected = firstn 300 cleaned)
      /\ (Digest.keyPoints d = [] -> cleaned = [] ->
          forall text, snippet = Some text -> text <> [] -> selected = text)
      /\ (Digest.keyPoints d = [] -> cleaned = [] ->
          snippet = None \/ snippet = Some [] ->
          selected = u "No readable content")
      /\ (length selected <= 400 -> Digest.summary d = selected)
      /\ (400 < length selected ->
          Digest.summary d = firstn 397 selected ++ u "...").
Proof.
  intros emailContent d body snippet.
  set (cleaned := cleanedBodyOf emailContent).
  set (selected := pickSummary (Digest.keyPoints d) cleaned snippet).
  exists cleaned, selected.
  assert (Hsum : Digest.summary d = capSummary selected) by reflexivity.
  split; [| split; [| split; [reflexivity |]]].
  - intros c t E. unfold cleaned, cleanedBodyOf. fold body. now rewrite E.
  - intros E. unfold cleaned, cleanedBodyOf. fold body snippet.
    destruct E as [-> | ->]; cbn [or_else];
      now destruct snippet as [[| c t] |].
  - split; [| split; [| split; [| split; [| split]]]].
    + unfold selected, pickSummary.
      destruct (Digest.keyPoints d); [congruence | reflexivity].
    + unfold selected, pickSummary. intros -> H.
      destruct cleaned; [congruence | reflexivity].
    + unfold selected, pickSummary. intros -> -> text -> H.
      destruct text; [congruence | reflexivity].
    + unfold selected, pickSummary. intros -> -> [-> | ->]; reflexivity.
    + intros H. rewrite Hsum. unfold capSummary.
      apply Nat.ltb_ge in H. now rewrite H.
    + intros H. rewrite Hsum. unfold capSummary.
      apply Nat.ltb_lt in H. now rewrite H.
Qed.

Lemma buildDigest_summary_capped_witness :
  Digest.summary
    (buildDigest (EmailContent.mk (Headers.mk None None None None) None
                    (Some (u "unsubscribe" ++ repeat 120%N 500))))
  = u "unsubscribe" ++ repeat 120%N 386 ++ u "...".
Proof.
  destruct (buildDigest_summary_capped
              (EmailContent.mk (Headers.mk None None None None) None
                 (Some (u "unsubscribe" ++ repeat 120%N 500))))
    as (_ & _ & H & _).
  destruct H as [H _].
  - vm_compute. lia.
  - rewrite H. vm_compute. reflexivity.
Defined.

Lemma buildDigest_summary_selection_witness :
  Digest.summary
    (buildDigest (EmailContent.mk (Headers.mk None None None None)
                    (Some (u "unsubscribe")) (Some (u "Weekly news"))))
  = u "Weekly news"
  /\ Digest.summary
       (buildDigest (EmailContent.mk (Headers.mk None None None None) None
                       (Some (u "unsubscribe" ++ repeat 120%N 500))))
     = u "unsubscribe" ++ repeat 120%N 386 ++ u "...".
Proof.
  split.
  - destruct (buildDigest_summary_selection
                (EmailContent.mk (Headers.mk None None None None)
                   (Some (u "unsubscribe")) (Some (u "Weekly news"))))
      as (cleaned & selected & Hb & _ & Hk & _ & _ & Hc & _ & Hs & _).
    assert (Ec : cleaned = []) by (rewrite (Hb _ _ eq_refl); reflexivity).
    assert (Ek : Digest.keyPoints
                   (buildDigest
                      (EmailContent.mk (Headers.mk None None None None)
                         (Some (u "unsubscribe")) (Some (u "Weekly news"))))
                 = []) by (rewrite Hk, Ec; reflexivity).
    assert (E : selected = u "Weekly news")
      by (apply (Hc Ek Ec _ eq_refl); discriminate).
    rewrite Hs; [exact E |]. rewrite E. vm_compute. lia.
  - destruct (buildDigest_summary_selection
                (EmailContent.mk (Headers.mk None None None None) None
                   (Some (u "unsubscribe" ++ repeat 120%N 500))))
      as (cleaned & selected & _ & Hb & Hk & _ & _ & Hc & _ & _ & Hl).
    assert (Ec : cleaned = []) by (rewrite (Hb (or_introl eq_refl)); reflexivity).
    assert (Ek : Digest.keyPoints
                   (buildDigest
                      (EmailContent.mk (Headers.mk None None None None) None
                         (Some (u "unsubscribe" ++ repeat 120%N 500))))
                 = []) by (rewrite Hk, Ec; reflexivity).
    assert (E : selected = u "unsubscribe" ++ repeat 120%N 500)
      by (apply (Hc Ek Ec _ eq_refl); discriminate).
    rewrite Hl; rewrite E; [reflexivity |]. vm_compute. lia.
Defined.

End DigestClaims.

(** ** The matcher *)

Section MatcherFacts.

Import RegExp Matching.

Variables ic ml : bool.

Lemma last_unit_app (p : option codeunit) (a b : jsstring) :
  last_unit p (a ++ b) = last_unit (last_unit p a) b.
Proof.
  revert p. induction a as [| d a IH]; intros p; simpl; [reflexivity | apply IH].
Qed.

Lemma forward_refl (c : cursor) : forward c c.
Proof. now exists []. Qed.

Lemma forward_trans (a b c : cursor) : forward a b -> forward b c -> forward a c.
Proof.
  intros (m1 & E1 & P1) (m2 & E2 & P2). exists (m1 ++ m2).
  rewrite <- app_assoc, <- E2, <- E1, last_unit_app, <- P1, <- P2. tauto.
Qed.

Lemma accepts_forward (ok : codeunit -> bool) (c c' : cursor) :
  In c' (accepts ok c) -> forward c c'.
Proof.
  unfold accepts. destruct c as [p [| d rest]]; simpl; [tauto |].
  destruct (ok d); simpl; [| tauto].
  intros [<- | []]. now exists [d].
Qed.

Lemma guard_forward (b : bool) (c c' : cursor) :
  In c' (guard b c) -> forward c c'.
Proof.
  unfold guard. destruct b; simpl; [| tauto].
  intros [<- | []]. apply forward_refl.
Qed.

Lemma star_loop_forward (step : cursor -> list cursor) :
  (forall c c', In c' (step c) -> forward c c') ->
  forall fuel c c', In c' (star_loop step fuel c) -> forward c c'.
Proof.
  intros Hstep. induction fuel as [| k IH]; intros c c'; simpl.
  - intros [<- | []]. apply forward_refl.
  - rewrite in_app_iff, in_flat_map. intros [(c1 & H1 & H2) | [<- | []]].
    + destruct (length (snd c1) <? length (snd c)); [| contradiction].
      eapply forward_trans; [apply Hstep, H1 | apply IH, H2].
    + apply forward_refl.
Qed.

Lemma ends_forward (r : regex) (c c' : cursor) :
  In c' (ends ic ml r c) -> forward c c'.
Proof.
  revert c c'.
  induction r as [| a | neg items | | | | | r1 IHr1 r2 IHr2 | r1 IHr1 r2 IHr2 | r IHr];
    intros c c'; cbn [ends].
  - intros [<- | []]. apply forward_refl.
  - apply accepts_forward.
  - apply accepts_forward.
  - apply accepts_forward.
  - apply guard_forward.
  - apply guard_forward.
  - apply guard_forward.
  - rewrite in_flat_map. intros (c1 & H1 & H2).
    eapply forward_trans; [apply IHr1, H1 | apply IHr2, H2].
  - rewrite in_app_iff. intros [H | H]; [now apply IHr1 | now apply IHr2].
  - apply star_loop_forward. exact IHr.
Qed.

Lemma forward_length (c c' : cursor) :
  forward c c' -> length (snd c') <= length (snd c).
Proof.
  intros (m & E & _). rewrite E, length_app. lia.
Qed.

(** The fuel of [star_loop] is never used up: any amount above the
    length of the subject gives the same ends. *)
Lemma star_loop_fuel (step : cursor -> list cursor) (k1 k2 : nat) (c : cursor) :
  length (snd c) < k1 -> length (snd c) < k2 ->
  star_loop step k1 c = star_loop step k2 c.
Proof.
  revert k2 c. induction k1 as [| k1 IH]; intros k2 c H1 H2; [lia |].
  destruct k2 as [| k2]; [lia |]. simpl. f_equal.
  apply flat_map_ext. intros c1.
  destruct (length (snd c1) <? length (snd c)) eqn:E; [| reflexivity].
  apply Nat.ltb_lt in E. apply IH; lia.
Qed.

Lemma ends_Star (a : regex) (c : cursor) :
  ends ic ml (Star a) c
  = flat_map (fun c' =>
                if length (snd c') <? length (snd c)
                then ends ic ml (Star a) c' else [])
             (ends ic ml a c)
    ++ [c].
Proof.
  change (ends ic ml (Star a) c)
    with (star_loop (ends ic ml a) (S (length (snd c))) c).
  cbn [star_loop]. f_equal. apply flat_map_ext. intros c1.
  destruct (length (snd c1) <? length (snd c)) eqn:E; [| reflexivity].
  apply Nat.ltb_lt in E.
  change (ends ic ml (Star a) c1)
    with (star_loop (ends ic ml a) (S (length (snd c1))) c1).
  apply star_loop_fuel; lia.
Qed.

Lemma ends_Star_In_self (a : regex) (c : cursor) : In c (ends ic ml (Star a) c).
Proof.
  rewrite ends_Star, in_app_iff. right. now left.
Qed.

Lemma ends_Star_In_step (a : regex) (c c1 c' : cursor) :
  In c1 (ends ic ml a c) -> length (snd c1) < length (snd c) ->
  In c' (ends ic ml (Star a) c1) -> In c' (ends ic ml (Star a) c).
Proof.
  intros H1 Hlt H2. rewrite ends_Star, in_app_iff. left.
  rewrite in_flat_map. exists c1. split; [assumption |].
  apply Nat.ltb_lt in Hlt. now rewrite Hlt.
Qed.

Lemma ends_Seq_In (a b : regex) (c c' : cursor) :
  In c' (ends ic ml (Seq a b) c)
  <-> exists c1, In c1 (ends ic ml a c) /\ In c' (ends ic ml b c1).
Proof. cbn [ends]. apply in_flat_map. Qed.

Lemma eol_tail_sound (r : regex) (c c' : cursor) :
  eol_tail r = true -> In c' (ends ic ml r c) -> at_eol ml c' = true.
Proof.
  revert c c'.
  induction r as [| a | neg items | | | | | r1 IHr1 r2 IHr2 | r1 IHr1 r2 IHr2 | r IHr];
    intros c c'; cbn [eol_tail ends]; try discriminate.
  - intros _. unfold guard. destruct (at_eol ml c) eqn:E; simpl; [| tauto].
    intros [<- | []]. exact E.
  - intros H. rewrite in_flat_map. intros (c1 & _ & H2). now apply (IHr2 c1).
  - intros H. apply andb_prop in H. destruct H as [Ha Hb].
    rewrite in_app_iff. intros [H | H]; [now apply (IHr1 c) | now apply (IHr2 c)].
Qed.

End MatcherFacts.

Section ScanFacts.

Import RegExp Matching.

Variable re : RegExp.t.

Lemma first_end_forward (c c' : cursor) :
  first_end re c = Some c' -> forward c c'.
Proof.
  unfold first_end. intros H.
  apply (ends_forward (ignoreCase re) (multiline re) (pattern re)).
  destruct (ends _ _ _ c); [discriminate | injection H as ->; now left].
Qed.

Lemma exec_Some (p : option codeunit) (s : jsstring) (n : nat) :
  exec re (p, s) = Some n ->
  exists m s', s = m ++ s' /\ length m = n
               /\ first_end re (p, s) = Some (last_unit p m, s').
Proof.
  unfold exec. destruct (first_end re (p, s)) as [[p' s'] |] eqn:E; [| discriminate].
  intros H. injection H as <-.
  destruct (first_end_forward _ E) as (m & Hs & Hp). simpl in Hs, Hp.
  exists m, s'. subst s p'. rewrite length_app. repeat split. lia.
Qed.

Lemma exec_None (c : cursor) :
  exec re c = None <-> ends (ignoreCase re) (multiline re) (pattern re) c = [].
Proof.
  unfold exec, first_end. destruct (ends _ _ _ c); simpl; split; congruence.
Qed.

Lemma scan_skip (p : option codeunit) (m s : jsstring) :
  scan re p (m ++ s) (length m) = scan re (last_unit p m) s 0.
Proof.
  revert p. induction m as [| d m IH]; intros p; [reflexivity |].
  cbn [app length scan last_unit]. apply IH.
Qed.

Lemma scan_spec (s : jsstring) :
  forall p, Scan re p s (scan re p s 0).
Proof.
  induction s as [s IH] using (induction_ltof1 _ (@length N)).
  unfold ltof in IH. intros p. destruct s as [| d rest].
  - cbn [scan]. destruct (exec re (p, [])) as [n |] eqn:E.
    + destruct (exec_Some _ _ E) as (m & s' & Hs & Hn & _).
      symmetry in Hs. apply app_eq_nil in Hs. destruct Hs as [-> ->].
      simpl in Hn. subst n. now constructor.
    + now constructor.
  - cbn [scan]. destruct (exec re (p, d :: rest)) as [[| k] |] eqn:E.
    + apply Scan_empty; [assumption |]. apply IH. simpl. lia.
    + destruct (exec_Some _ _ E) as (m & s' & Hs & Hn & Hf).
      destruct m as [| d' m]; [discriminate |].
      simpl in Hs. injection Hs as <- ->. simpl in Hn. injection Hn as <-.
      replace (firstn (S (length m)) (d :: m ++ s')) with (d :: m).
      2:{ change (d :: m ++ s') with ((d :: m) ++ s').
          rewrite firstn_app, firstn_all2 by (simpl; lia).
          replace (S (length m) - length (d :: m)) with 0 by (simpl; lia).
          simpl. now rewrite app_nil_r. }
      rewrite scan_skip.
      change (d :: m ++ s') with ((d :: m) ++ s').
      apply Scan_hit; [discriminate | exact Hf |].
      apply IH. simpl. rewrite length_app. lia.
    + apply Scan_keep; [assumption |]. apply IH. simpl. lia.
Qed.

Lemma Scan_text (p : option codeunit) (s : jsstring) (ps : list piece) :
  Scan re p s ps -> flat_map piece_text ps = s.
Proof.
  induction 1; simpl; try rewrite IHScan; reflexivity.
Qed.

End ScanFacts.

(** ** The classifier *)

Section ClassifierFacts.

Import RegExp Matching Text ClassifierSpec.

Lemma accepts_none (c : cursor) : accepts (fun _ => false) c = [].
Proof. unfold accepts. now destruct (snd c). Qed.

Lemma ends_chars (ic ml : bool) (w : jsstring) (c : cursor) :
  ends ic ml (seqs (map Char w)) c
  = match strip ic w c with Some c' => [c'] | None => [] end.
Proof.
  revert c. induction w as [| a w IH]; intros c; [reflexivity |].
  destruct w as [| b w].
  - cbn [map seqs ends strip]. unfold accepts.
    destruct (snd c) as [| d rest]; [reflexivity |].
    now destruct (unit_eq ic a d).
  - change (seqs (map Char (a :: b :: w)))
      with (Seq (Char a) (seqs (map Char (b :: w)))).
    cbn [ends]. cbn [strip]. unfold accepts.
    destruct (snd c) as [| d rest]; [reflexivity |].
    destruct (unit_eq ic a d); [| reflexivity].
    cbn [flat_map]. rewrite app_nil_r. apply IH.
Qed.

Lemma ends_alts (ic ml : bool) (l : list regex) (c : cursor) :
  ends ic ml (alts l) c = flat_map (fun r => ends ic ml r c) l.
Proof.
  induction l as [| a l IH]; [apply accepts_none |].
  destruct l as [| b l].
  - cbn [alts flat_map]. now rewrite app_nil_r.
  - change (alts (a :: b :: l)) with (Alt a (alts (b :: l))).
    cbn [ends flat_map]. now rewrite IH.
Qed.

Lemma is_some_hd_flat_map {A B : Type} (f : A -> list B) (l : list A) :
  is_some (hd_error (flat_map f l)) = existsb (fun x => is_some (hd_error (f x))) l.
Proof.
  induction l as [| x l IH]; [reflexivity |].
  cbn [flat_map existsb]. destruct (f x); [exact IH | reflexivity].
Qed.

Lemma exec_words (ic ml : bool) (ws : list string) (c : cursor) :
  is_some (exec (mk (words ws) ic ml) c)
  = existsb (fun w => is_some (strip ic (u w) c)) ws.
Proof.
  unfold exec, first_end, words. cbn [pattern ignoreCase multiline].
  rewrite ends_alts.
  transitivity (is_some (hd_error
    (flat_map (fun r => ends ic ml r c) (map lit ws)))).
  { now destruct (hd_error _). }
  rewrite is_some_hd_flat_map.
  induction ws as [| w ws IH]; [reflexivity |].
  cbn [map existsb]. rewrite IH. f_equal.
  unfold lit. rewrite ends_chars. now destruct (strip ic (u w) c).
Qed.

Lemma unit_eq_caseless (a d : codeunit) :
  caseless a = true -> caseless d = true ->
  unit_eq true a d = (a =? d)%N.
Proof.
  unfold caseless, unit_eq, canonicalize, in_range. intros Ha Hd.
  apply negb_true_iff in Ha, Hd.
  apply eq_true_iff_eq. rewrite !N.eqb_eq.
  destruct (97 <=? a)%N eqn:A1, (a <=? 122)%N eqn:A2,
           (97 <=? d)%N eqn:D1, (d <=? 122)%N eqn:D2; cbn [andb];
    rewrite ?andb_false_iff, ?N.leb_le, ?N.leb_gt in *; lia.
Qed.

Lemma strip_caseless (w s : jsstring) (p : option codeunit) :
  forallb caseless w = true -> forallb caseless s = true ->
  is_some (strip true w (p, s)) = starts_with w s.
Proof.
  revert p s. induction w as [| a w IH]; intros p s Hw Hs; [reflexivity |].
  cbn [forallb] in Hw. apply andb_prop in Hw. destruct Hw as [Ha Hw].
  destruct s as [| d s]; [reflexivity |].
  cbn [forallb] in Hs. apply andb_prop in Hs. destruct Hs as [Hd Hs].
  cbn [strip snd starts_with]. rewrite (unit_eq_caseless _ _ Ha Hd).
  destruct (a =? d)%N; [now apply IH | reflexivity].
Qed.

Lemma existsb_orb {A : Type} (f g : A -> bool) (l : list A) :
  existsb (fun x => f x || g x) l = existsb f l || existsb g l.
Proof.
  induction l as [| x l IH]; [reflexivity |]. cbn [existsb]. rewrite IH.
  destruct (f x), (g x), (existsb f l), (existsb g l); reflexivity.
Qed.

Lemma existsb_eq_in {A : Type} (f g : A -> bool) (l : list A) :
  (forall x, In x l -> f x = g x) -> existsb f l = existsb g l.
Proof.
  induction l as [| x l IH]; intros H; [reflexivity |].
  cbn [existsb]. rewrite (H x), IH; [reflexivity | | now left].
  intros y Hy. apply H. now right.
Qed.

Lemma search_unfold (re : RegExp.t) (p : option codeunit) (s : jsstring) :
  search re p s
  = is_some (exec re (p, s))
    || match s with [] => false | d :: rest => search re (Some d) rest end.
Proof.
  destruct s; cbn [search]; now destruct (exec re _).
Qed.

(** On a text without capitals, the test of a vocabulary pattern is the
    search for one of its words. *)
Lemma test_words (ws : list string) (text : jsstring) :
  forallb (fun w => forallb caseless (u w)) ws = true ->
  forallb caseless text = true ->
  test (mk (words ws) true false) text = contains_any ws text.
Proof.
  intros Hws. unfold test. generalize (@None N) as p.
  assert (Hhead : forall p s, forallb caseless s = true ->
            is_some (exec (mk (words ws) true false) (p, s))
            = existsb (fun w => starts_with (u w) s) ws).
  { intros p s Hs. rewrite exec_words. apply existsb_eq_in. intros w Hw.
    apply strip_caseless; [| assumption].
    rewrite forallb_forall in Hws. now apply Hws. }
  induction text as [| d text IH]; intros p Htext; rewrite search_unfold, Hhead by assumption.
  - unfold contains_any. rewrite orb_false_r. apply existsb_eq_in.
    intros w _. cbn [contains]. now rewrite orb_false_r.
  - cbn [forallb] in Htext. apply andb_prop in Htext. destruct Htext as [_ Htext].
    rewrite IH by assumption. unfold contains_any.
    rewrite <- existsb_orb. reflexivity.
Qed.

Lemma codeUnits_caseless (cp : N) :
  caseless cp = true -> forallb caseless (codeUnits cp) = true.
Proof.
  intros H. unfold codeUnits. destruct (cp <? 65536)%N.
  - cbn [forallb]. now rewrite H.
  - cbn [forallb]. unfold caseless, in_range.
    rewrite !andb_true_r, andb_true_iff, !negb_true_iff, !andb_false_iff.
    split; right; apply N.leb_gt;
      (apply (N.lt_le_trans _ 55296); [reflexivity | apply N.le_add_r])
      || (apply (N.lt_le_trans _ 56320); [reflexivity | apply N.le_add_r]).
Qed.

(** No mapping of the table ends in a capital letter of Basic Latin,
    and these letters are all mapped. *)
Lemma lower_point_caseless (c : N) : forallb caseless (lower_point c) = true.
Proof.
  assert (Htable : forallb (fun r : N * N * N * N =>
                              let '(first, last, _, target) := r in
                              (target + (last - first) <? 65)%N
                              || (90 <? target)%N)
                     lower_ranges = true) by (vm_compute; reflexivity).
  assert (Hlatin : In (65, 90, 1, 97)%N lower_ranges)
    by (unfold lower_ranges; now left).
  unfold lower_point. destruct (c =? 304)%N; [reflexivity |].
  destruct (find (maps c) lower_ranges)
    as [[[[first last] step] target] |] eqn:F.
  - apply find_some in F. destruct F as [Hin Hm].
    rewrite forallb_forall in Htable. specialize (Htable _ Hin).
    cbn beta iota in Htable. unfold maps, in_range in Hm.
    apply andb_prop in Hm. destruct Hm as [Hm _].
    apply andb_prop in Hm. destruct Hm as [H1 H2]. apply N.leb_le in H1, H2.
    cbn [forallb]. rewrite andb_true_r. unfold caseless, in_range.
    apply negb_true_iff, andb_false_iff.
    apply orb_prop in Htable. destruct Htable as [Ht | Ht];
      apply N.ltb_lt in Ht; [left | right]; apply N.leb_gt; lia.
  - pose proof (find_none _ _ F _ Hlatin) as Hm.
    unfold maps in Hm. rewrite N.mod_1_r in Hm. cbn [N.eqb] in Hm.
    rewrite andb_true_r in Hm.
    cbn [forallb]. unfold caseless. now rewrite Hm.
Qed.

Lemma lower_points_caseless (l : list N) :
  forall after_cased, forallb caseless (lower_points after_cased l) = true.
Proof.
  induction l as [| c l IH]; intros after_cased; [reflexivity |].
  cbn [lower_points]. rewrite forallb_app, IH, andb_true_r.
  destruct (c =? 931)%N; [| apply lower_point_caseless].
  now destruct (after_cased && negb (followed_by_cased l)).
Qed.

Lemma toLowerCase_caseless (s : jsstring) : forallb caseless (toLowerCase s) = true.
Proof.
  unfold toLowerCase.
  pose proof (lower_points_caseless (codePoints s) false) as H.
  induction (lower_points false (codePoints s)) as [| q l IH]; [reflexivity |].
  cbn [forallb] in H. apply andb_prop in H. destruct H as [Hq Hl].
  cbn [flat_map]. rewrite forallb_app, (codeUnits_caseless _ Hq). now apply IH.
Qed.

Lemma combinedText_caseless (headers : Headers.t) (cleanedBody : field) :
  forallb caseless (combinedText headers cleanedBody) = true.
Proof.
  unfold combinedText. rewrite !forallb_app, !toLowerCase_caseless. reflexivity.
Qed.

Lemma classifyEmail_by_rules (headers : Headers.t) (cleanedBody : field) :
  classifyEmail headers cleanedBody
  = classify_by_rules (combinedText headers cleanedBody).
Proof.
  unfold classifyEmail, classify_by_rules, rules. cbn [first_match].
  pose proof (combinedText_caseless headers cleanedBody) as H.
  unfold bulkWords, priceWords, securityWords, billingWords, eventWords,
    noticeWords, devWords, EmailProcessor.rule.
  rewrite !test_words by (assumption || reflexivity).
  reflexivity.
Qed.

End ClassifierFacts.

Section ClassifierClaims.

Import Text ClassifierSpec.

Lemma first_match_wins (before after : list rule) (applies : jsstring -> bool)
  (label : jsstring -> Category) (text : jsstring) :
  (forall r, In r before -> fst r text = false) ->
  applies text = true ->
  first_match (before ++ (applies, label) :: after) text = label text.
Proof.
  induction before as [| [a l] before IH]; intros Hb Ha; cbn [app first_match].
  - now rewrite Ha.
  - pose proof (Hb (a, l) (or_introl eq_refl)) as Hf. cbn [fst] in Hf.
    rewrite Hf. apply IH; [| assumption].
    intros r Hr. apply Hb. now right.
Qed.

Lemma first_match_none (rs : list rule) (text : jsstring) :
  (forall r, In r rs -> fst r text = false) -> first_match rs text = personal.
Proof.
  induction rs as [| [a l] rs IH]; intros H; cbn [first_match]; [reflexivity |].
  pose proof (H (a, l) (or_introl eq_refl)) as Hf. cbn [fst] in Hf.
  rewrite Hf. apply IH. intros r Hr. apply H. now right.
Qed.

(** C2, as stated, fails: with sender [bob@web.de] and subject
    [almost done] the plain concatenation reads [...dealmost...] and
    holds the word [deal], while the program, which puts a space
    between the three texts, finds no word of any vocabulary. *)
Lemma classifyEmail_not_plain_concatenation :
  classifyEmail
    (Headers.mk (Some (u "bob@web.de")) None (Some (u "almost done")) None)
    (Some [])
  = personal
  /\ classify_as_specified
       (Headers.mk (Some (u "bob@web.de")) None (Some (u "almost done")) None)
       (Some [])
     = promotional
  /\ ~ (forall headers cleanedBody,
          classifyEmail headers cleanedBody
          = classify_as_specified headers cleanedBody).
Proof.
  assert (H1 : classifyEmail
    (Headers.mk (Some (u "bob@web.de")) None (Some (u "almost done")) None)
    (Some []) = personal) by (vm_compute; reflexivity).
  assert (H2 : classify_as_specified
    (Headers.mk (Some (u "bob@web.de")) None (Some (u "almost done")) None)
    (Some []) = promotional) by (vm_compute; reflexivity).
  split; [exact H1 | split; [exact H2 |]].
  intros H.
  assert (E : personal = promotional)
    by (etransitivity; [symmetry; exact H1 |]; etransitivity; [apply H | exact H2]).
  discriminate E.
Qed.

(** C2, amended.  [classifyEmail] is total into the eight categories; it
    is the first rule that applies, in the order of the rules, to the
    lower-cased sender, subject and body joined by single spaces; a text
    to which no rule applies, as when the three are empty, is
    [personal]. *)
Theorem classifyEmail_first_matching_rule :
  forall headers cleanedBody,
    let text :=
      toLowerCase (or_else (Headers.from headers) []) ++ [32%N]
      ++ toLowerCase (or_else (Headers.subject headers) []) ++ [32%N]
      ++ toLowerCase (or_else cleanedBody []) in
    classifyEmail headers cleanedBody = classify_by_rules text
    /\ In (classifyEmail headers cleanedBody) categories
    /\ (forall before applies label after,
          rules = before ++ (applies, label) :: after ->
          (forall r, In r before -> fst r text = false) ->
          applies text = true ->
          classifyEmail headers cleanedBody = label text)
    /\ ((forall r, In r rules -> fst r text = false) ->
        classifyEmail headers cleanedBody = personal)
    /\ (or_else (Headers.from headers) [] = [] ->
        or_else (Headers.subject headers) [] = [] ->
        or_else cleanedBody [] = [] ->
        classifyEmail headers cleanedBody = personal).
Proof.
  intros headers cleanedBody text.
  assert (E : classifyEmail headers cleanedBody = classify_by_rules text)
    by apply classifyEmail_by_rules.
  split; [exact E | split; [| split; [| split]]].
  - unfold categories. destruct (classifyEmail headers cleanedBody); simpl; tauto.
  - intros before applies label after Hr Hb Ha.
    rewrite E. unfold classify_by_rules. rewrite Hr. now apply first_match_wins.
  - intros H. rewrite E. now apply first_match_none.
  - intros H1 H2 H3. rewrite E. unfold text. rewrite H1, H2, H3. reflexivity.
Qed.

Lemma classifyEmail_first_matching_rule_witness :
  classifyEmail (Headers.mk (Some []) None None None) (Some []) = personal
  /\ classifyEmail
       (Headers.mk (Some (u "noreply@shop.com")) None
          (Some (u "50% OFF everything!")) None)
       (Some (u "unsubscribe"))
     = promotional
  /\ classifyEmail
       (Headers.mk (Some (u "mar" ++ [8490%N] ++ u "eting@corp.example"))
          None None None)
       (Some [])
     = newsletter.
Proof.
  split; [| split].
  - apply (classifyEmail_first_matching_rule
             (Headers.mk (Some []) None None None) (Some [])); reflexivity.
  - apply (proj1 (proj2 (proj2 (classifyEmail_first_matching_rule
             (Headers.mk (Some (u "noreply@shop.com")) None
                (Some (u "50% OFF everything!")) None)
             (Some (u "unsubscribe")))))
           [] (contains_any bulkVocabulary)
           (fun text => if contains_any priceVocabulary text
                        then promotional else newsletter)
           (tl rules)).
    + reflexivity.
    + intros r [].
    + vm_compute. reflexivity.
  - apply (proj1 (proj2 (proj2 (classifyEmail_first_matching_rule
             (Headers.mk (Some (u "mar" ++ [8490%N] ++ u "eting@corp.example"))
                None None None)
             (Some []))))
           [] (contains_any bulkVocabulary)
           (fun text => if contains_any priceVocabulary text
                        then promotional else newsletter)
           (tl rules)).
    + reflexivity.
    + intros r [].
    + vm_compute. reflexivity.
Defined.

End ClassifierClaims.

(** ** The extractor *)

Section ExtractorClaims.

Import RegExp Matching Text.

Lemma match_all_hits (re : RegExp.t) (s : jsstring) :
  match match_all re s with Some ms => ms | None => [] end
  = hits (scan re None s 0).
Proof.
  unfold match_all. now destruct (hits (scan re None s 0)).
Qed.

Lemma collectDates_families (cleanedBody : jsstring) :
  collectDates cleanedBody
  = concat (map (fun re => map trim (hits (scan re None cleanedBody 0)))
                datePatterns).
Proof.
  unfold collectDates.
  assert (H : forall l acc,
    fold_left (fun dates pattern =>
                 match match_all pattern cleanedBody with
                 | Some matches => dates ++ map trim matches
                 | None => dates
                 end) l acc
    = acc ++ concat (map (fun re => map trim (hits (scan re None cleanedBody 0))) l)).
  { induction l as [| re l IH]; intros acc; cbn [fold_left map concat].
    - now rewrite app_nil_r.
    - rewrite IH, <- (match_all_hits re cleanedBody).
      destruct (match_all re cleanedBody); cbn [map app].
      + now rewrite app_assoc.
      + reflexivity. }
  apply (H datePatterns []).
Qed.

Lemma NoDup_firstn {A : Type} (n : nat) (l : list A) :
  NoDup l -> NoDup (firstn n l).
Proof.
  intros H. rewrite <- (firstn_skipn n l) in H.
  now apply NoDup_app_remove_r in H.
Qed.

Lemma In_firstn {A : Type} (n : nat) (l : list A) (x : A) :
  In x (firstn n l) -> In x l.
Proof.
  intros H. rewrite <- (firstn_skipn n l). apply in_or_app. now left.
Qed.

(** C6, as stated, fails: in [today 3/15/2025] the word [today] comes
    first, but the numeric dates are collected before the relative
    terms. *)
Lemma extractKeyInfo_dates_not_in_text_order :
  KeyInfo.dates (extractKeyInfo (u "today 3/15/2025"))
  = [u "3/15/2025"; u "today"]
  /\ in_text_order (u "today 3/15/2025")
       (KeyInfo.dates (extractKeyInfo (u "today 3/15/2025")))
     = false
  /\ ~ (forall cleanedBody,
          in_text_order cleanedBody
            (KeyInfo.dates (extractKeyInfo cleanedBody)) = true).
Proof.
  assert (H : in_text_order (u "today 3/15/2025")
                (KeyInfo.dates (extractKeyInfo (u "today 3/15/2025"))) = false)
    by (vm_compute; reflexivity).
  split; [vm_compute; reflexivity | split; [exact H |]].
  intros H'. rewrite H' in H. discriminate.
Qed.

(** C6, amended.  [dates] has at most five entries, no two equal; they
    are the first five distinct texts of the list made of the matches of
    the first pattern, then those of the second, and so on through the
    five patterns, the matches of one pattern in the order of their
    place in the text. *)
Theorem extractKeyInfo_dates_by_family :
  forall cleanedBody,
    let dates := KeyInfo.dates (extractKeyInfo cleanedBody) in
    let family := fun re => map trim (hits (scan re None cleanedBody 0)) in
    length dates <= 5
    /\ NoDup dates
    /\ dates = firstn 5 (uniq (concat (map family datePatterns)))
    /\ (forall re, In re datePatterns ->
          flat_map piece_text (scan re None cleanedBody 0) = cleanedBody)
    /\ (forall d, In d dates ->
          exists re, In re datePatterns /\ In d (family re)).
Proof.
  intros cleanedBody dates family.
  assert (E : dates = firstn 5 (uniq (concat (map family datePatterns)))).
  { unfold dates, extractKeyInfo. destruct cleanedBody as [| d rest].
    - vm_compute. reflexivity.
    - cbn [KeyInfo.dates]. now rewrite collectDates_families. }
  split; [| split; [| split; [exact E | split]]].
  - rewrite E, length_firstn. lia.
  - rewrite E. apply NoDup_firstn, uniq_go_NoDup.
  - intros re _. apply (Scan_text (scan_spec re cleanedBody None)).
  - intros d Hd. rewrite E in Hd. apply In_firstn in Hd.
    apply uniq_go_In in Hd. destruct Hd as [Hd _].
    apply in_concat in Hd. destruct Hd as (l & Hl & Hd).
    apply in_map_iff in Hl. destruct Hl as (re & <- & Hre).
    now exists re.
Qed.

Lemma extractKeyInfo_dates_by_family_witness :
  KeyInfo.dates
    (extractKeyInfo (u "Invoice #123 due $250.00 by 3/15/2025, on Friday"))
  = [u "3/15/2025"; u "Friday"]
  /\ flat_map piece_text
       (scan (nth 2 datePatterns newlinesPattern) None
          (u "Invoice #123 due $250.00 by 3/15/2025, on Friday") 0)
     = u "Invoice #123 due $250.00 by 3/15/2025, on Friday".
Proof.
  destruct (extractKeyInfo_dates_by_family
              (u "Invoice #123 due $250.00 by 3/15/2025, on Friday"))
    as (_ & _ & E & H & _).
  split.
  - rewrite E. vm_compute. reflexivity.
  - apply H. cbn. tauto.
Defined.

End ExtractorClaims.

(** ** The cleaner *)

Section SuffixFacts.

Import RegExp Matching.

Lemma every_suffix_app (P : jsstring -> Prop) (a b : jsstring) :
  every_suffix P (a ++ b) -> every_suffix P b.
Proof.
  induction a as [| d a IH]; [trivial |]. cbn [app every_suffix]. tauto.
Qed.

Lemma every_suffix_split (P : jsstring -> Prop) (s : jsstring) :
  every_suffix P s <-> forall before after, s = before ++ after -> P after.
Proof.
  split.
  - intros H before after ->. apply every_suffix_app in H.
    destruct after; cbn [every_suffix] in H; tauto.
  - induction s as [| d s IH]; intros H; cbn [every_suffix].
    + split; [apply (H [] []); reflexivity | trivial].
    + split; [apply (H [] (d :: s)); reflexivity |].
      apply IH. intros before after ->. apply (H (d :: before) after). reflexivity.
Qed.

Lemma every_suffix_prefix (P : jsstring -> Prop) (a b : jsstring) :
  (forall t, P (t ++ b) -> P t) -> every_suffix P (a ++ b) -> every_suffix P a.
Proof.
  intros Hmono. induction a as [| d a IH]; cbn [app every_suffix].
  - intros H. split; [| trivial]. apply Hmono.
    destruct b; cbn [every_suffix] in H; tauto.
  - intros [H1 H2]. split; [now apply Hmono | now apply IH].
Qed.

Lemma every_suffix_cons (P : jsstring -> Prop) (d : codeunit) (s : jsstring) :
  P (d :: s) -> every_suffix P s -> every_suffix P (d :: s).
Proof. cbn [every_suffix]. tauto. Qed.

Lemma every_suffix_tail (P : jsstring -> Prop) (d : codeunit) (s : jsstring) :
  every_suffix P (d :: s) -> every_suffix P s.
Proof. cbn [every_suffix]. tauto. Qed.

Lemma every_suffix_head (P : jsstring -> Prop) (s : jsstring) :
  every_suffix P s -> P s.
Proof. destruct s; cbn [every_suffix]; tauto. Qed.

Lemma trimStart_suffix (s : jsstring) : exists a, s = a ++ trimStart s.
Proof.
  induction s as [| d s (a & IH)]; [now exists [] |].
  cbn [trimStart]. destruct (is_white_space d).
  - exists (d :: a). cbn [app]. now f_equal.
  - now exists [].
Qed.

Lemma trim_factor (s : jsstring) : exists a b, s = a ++ trim s ++ b.
Proof.
  destruct (trimStart_suffix s) as (a & Ha).
  destruct (trimStart_suffix (rev (trimStart s))) as (b & Hb).
  exists a, (rev b). unfold trim, trimEnd.
  rewrite <- rev_app_distr, <- Hb, rev_involutive. exact Ha.
Qed.

(** What [trim] leaves neither starts nor ends with white space. *)
Lemma trimStart_visible (s : jsstring) :
  match trimStart s with
  | d :: _ => is_white_space d = false
  | [] => True
  end.
Proof.
  induction s as [| d s IH]; [exact I |]. cbn [trimStart].
  destruct (is_white_space d) eqn:E; [exact IH | exact E].
Qed.

Lemma trim_visible (s : jsstring) :
  match trim s with
  | d :: _ => is_white_space d = false
  | [] => True
  end
  /\ match rev (trim s) with
     | d :: _ => is_white_space d = false
     | [] => True
     end.
Proof.
  unfold trim, trimEnd. split.
  - pose proof (trimStart_visible s) as Hv.
    destruct (trimStart_suffix (rev (trimStart s))) as (w & E).
    apply (f_equal (@rev N)) in E. rewrite rev_involutive, rev_app_distr in E.
    destruct (rev (trimStart (rev (trimStart s)))) as [| d t]; [exact I |].
    rewrite E in Hv. exact Hv.
  - rewrite rev_involutive. apply trimStart_visible.
Qed.

Lemma every_suffix_factor (P : jsstring -> Prop) (a t b : jsstring) :
  (forall x y, P (x ++ y) -> P x) ->
  every_suffix P (a ++ t ++ b) -> every_suffix P t.
Proof.
  intros Hmono H. apply every_suffix_app in H.
  apply every_suffix_prefix in H; [assumption |]. intros x. apply Hmono.
Qed.

Lemma accepts_shorter (ok : codeunit -> bool) (c c' : cursor) :
  In c' (accepts ok c) -> length (snd c') < length (snd c).
Proof.
  unfold accepts. destruct c as [p [| d rest]]; cbn [snd]; [intros [] |].
  destruct (ok d); [| intros []]. intros [<- | []]. cbn [snd length]. lia.
Qed.

Lemma consumes_shorter (ic ml : bool) (r : regex) (c c' : cursor) :
  consumes r = true -> In c' (ends ic ml r c) ->
  length (snd c') < length (snd c).
Proof.
  revert c c'.
  induction r as [| a | neg items | | | | | r1 IHr1 r2 IHr2 | r1 IHr1 r2 IHr2 | r IHr];
    intros c c'; cbn [consumes ends]; try discriminate; intros Hc.
  1-3: now apply accepts_shorter.
  - rewrite in_flat_map. intros (c1 & H1 & H2).
    pose proof (forward_length (ends_forward _ _ _ _ _ H1)).
    pose proof (forward_length (ends_forward _ _ _ _ _ H2)).
    apply orb_true_iff in Hc. destruct Hc as [Hc | Hc].
    + specialize (IHr1 _ _ Hc H1). lia.
    + specialize (IHr2 _ _ Hc H2). lia.
  - apply andb_prop in Hc. destruct Hc as [Ha Hb].
    rewrite in_app_iff. intros [H | H]; [now apply IHr1 | now apply IHr2].
Qed.

Lemma exec_consumes (re : RegExp.t) (c : cursor) :
  consumes (pattern re) = true -> exec re c <> Some 0.
Proof.
  intros Hc. unfold exec. destruct (first_end re c) as [c' |] eqn:E; [| discriminate].
  assert (Hin : In c' (ends (ignoreCase re) (multiline re) (pattern re) c)).
  { unfold first_end in E. destruct (ends _ _ _ c); [discriminate |].
    injection E as ->. now left. }
  pose proof (consumes_shorter _ _ _ _ _ Hc Hin) as Hlt.
  intros H. injection H as H. lia.
Qed.

Lemma first_end_In (re : RegExp.t) (c c' : cursor) :
  first_end re c = Some c' ->
  In c' (ends (ignoreCase re) (multiline re) (pattern re) c).
Proof.
  unfold first_end. destruct (ends _ _ _ c); [discriminate |].
  intros E. injection E as ->. now left.
Qed.

(** What follows a match of a pattern that ends with [$]: nothing, or a
    line terminator. *)
Lemma first_end_eol (re : RegExp.t) (c : cursor) (p : option codeunit)
  (s : jsstring) :
  eol_tail (pattern re) = true -> first_end re c = Some (p, s) ->
  match s with [] => True | d :: _ => is_line_terminator d = true end.
Proof.
  intros He Hf. apply first_end_In in Hf.
  pose proof (eol_tail_sound _ _ _ _ _ He Hf) as H.
  unfold at_eol in H. cbn [snd] in H. destruct s; [trivial |].
  now apply andb_prop in H.
Qed.

End SuffixFacts.

Section LinkFacts.

Import RegExp Matching ClassifierSpec.

Lemma ws_range (d : codeunit) :
  is_white_space d = true -> (d <= 32 \/ 160 <= d)%N.
Proof.
  unfold is_white_space, in_range. intros H.
  repeat (apply orb_true_iff in H; destruct H as [H | H]);
    try (apply andb_prop in H; destruct H as [H1 H2];
         apply N.leb_le in H1, H2);
    try apply N.eqb_eq in H; lia.
Qed.

Lemma unit_eq_visible_ws (a d : codeunit) :
  (33 <= a <= 127)%N -> is_white_space d = true -> unit_eq true a d = false.
Proof.
  intros Ha Hd. apply ws_range in Hd. unfold unit_eq, canonicalize, in_range.
  apply N.eqb_neq.
  destruct (97 <=? a)%N eqn:A1, (a <=? 122)%N eqn:A2,
           (97 <=? d)%N eqn:D1, (d <=? 122)%N eqn:D2; cbn [andb];
    rewrite ?N.leb_le, ?N.leb_gt in *; lia.
Qed.

Lemma link_step_ws (state : nat) (d : codeunit) :
  is_white_space d = true -> link_step state d = Reject.
Proof.
  intros H. unfold link_step.
  assert (E : forall a, (33 <= a <= 127)%N -> unit_eq true a d = false)
    by (intros a Ha; now apply unit_eq_visible_ws).
  do 8 (destruct state as [| state]; [rewrite !E by lia; reflexivity |]).
  unfold link_unit. now rewrite H.
Qed.

Lemma link_run_cut (state : nat) (x y z : jsstring) :
  match y with [] => True | d :: _ => is_white_space d = true end ->
  link_run state (x ++ y) = true -> link_run state (x ++ z) = true.
Proof.
  intros Hy. revert state. induction x as [| a x IH]; intros state; cbn [app].
  - destruct y as [| d y]; cbn [link_run]; [discriminate |].
    now rewrite (link_step_ws state d Hy).
  - cbn [link_run]. destruct (link_step state a); [trivial | discriminate | apply IH].
Qed.

Lemma link_run_more (state : nat) (x z : jsstring) :
  link_run state x = true -> link_run state (x ++ z) = true.
Proof.
  intros H. apply (link_run_cut state x [] z I). now rewrite app_nil_r.
Qed.

Lemma link_run_bracket (state : nat) (x y z : jsstring) (d : codeunit) :
  link_unit d = true ->
  link_run state (x ++ 91%N :: y) = true -> link_run state (x ++ d :: z) = true.
Proof.
  intros Hd. revert state. induction x as [| a x IH]; intros state; cbn [app].
  - cbn [link_run].
    do 8 (destruct state as [| state]; [discriminate |]).
    cbn [link_step]. now rewrite Hd.
  - cbn [link_run]. destruct (link_step state a); [trivial | discriminate | apply IH].
Qed.

Lemma link_head_first (d : codeunit) (s : jsstring) :
  link_head (d :: s) = true -> link_unit d = true.
Proof.
  unfold link_head. cbn [link_run link_step].
  destruct (unit_eq true 104 d) eqn:E; [intros _ | discriminate].
  unfold unit_eq, canonicalize in E.
  destruct (in_range 97 122 d) eqn:R; apply N.eqb_eq in E; cbn in E.
  - unfold in_range in R. apply andb_prop in R. destruct R as [R1 R2].
    apply N.leb_le in R1, R2. assert (d = 104%N) by lia. now subst.
  - now subst.
Qed.

End LinkFacts.

Section LinkPattern.

Import RegExp Matching ClassifierSpec.

Lemma can_Seq (ic ml : bool) (a b : regex) (c : cursor) :
  is_some (hd_error (ends ic ml (Seq a b) c))
  = existsb (fun c1 => is_some (hd_error (ends ic ml b c1))) (ends ic ml a c).
Proof. cbn [ends]. apply is_some_hd_flat_map. Qed.

Lemma can_Star (ic ml : bool) (a : regex) (c : cursor) :
  is_some (hd_error (ends ic ml (Star a) c)) = true.
Proof.
  rewrite ends_Star. now destruct (flat_map _ _).
Qed.

Lemma can_plus_accepts (ic ml : bool) (ok : codeunit -> bool) (a : regex)
  (c : cursor) :
  ends ic ml a c = accepts ok c ->
  is_some (hd_error (ends ic ml (plus a) c))
  = match snd c with d :: _ => ok d | [] => false end.
Proof.
  intros E. unfold plus. rewrite can_Seq, E. unfold accepts.
  destruct (snd c) as [| d rest]; [reflexivity |].
  destruct (ok d); [| reflexivity]. cbn [existsb]. now rewrite can_Star.
Qed.

Lemma can_plus_class (ic ml neg : bool) (items : list class_item) (c : cursor) :
  is_some (hd_error (ends ic ml (plus (Class neg items)) c))
  = match snd c with
    | d :: _ => xorb neg (in_class ic items d)
    | [] => false
    end.
Proof. now apply can_plus_accepts. Qed.

Lemma is_some_exec (re : RegExp.t) (c : cursor) :
  is_some (exec re c)
  = is_some (hd_error (ends (ignoreCase re) (multiline re) (pattern re) c)).
Proof.
  unfold exec, first_end. now destruct (hd_error _).
Qed.

(** A symbol without case is matched by itself only. *)
Lemma unit_eq_symbol (a d : codeunit) :
  in_range 65 90 a = false -> in_range 97 122 a = false ->
  unit_eq true a d = (d =? a)%N.
Proof.
  unfold unit_eq, canonicalize, in_range. intros H1 H2. rewrite H2.
  apply eq_true_iff_eq. rewrite !N.eqb_eq.
  apply andb_false_iff in H1, H2.
  rewrite !N.leb_gt in H1, H2.
  destruct (97 <=? d)%N eqn:D1, (d <=? 122)%N eqn:D2; cbn [andb];
    rewrite ?N.leb_le, ?N.leb_gt in *; lia.
Qed.

Lemma unit_eq_same (a b d : codeunit) :
  unit_eq true a d = true -> unit_eq true b d = true ->
  canonicalize a = canonicalize b.
Proof.
  unfold unit_eq. rewrite !N.eqb_eq. congruence.
Qed.

Lemma link_tail (q : option codeunit) (t : jsstring) :
  is_some (hd_error
    (flat_map
       (ends true false
          (plus (Class true [CSpace; CChar (ch ")"); CChar (ch ">"); CChar (ch "]")])))
       (ends true false (seqs (map Char [58; 47; 47]%N)) (q, t))))
  = link_run 5 t.
Proof.
  rewrite ends_chars.
  destruct t as [| d0 t]; [reflexivity |]. cbn [strip snd link_run link_step].
  destruct (unit_eq true 58 d0); [| reflexivity].
  destruct t as [| d1 t]; [reflexivity |]. cbn [strip snd link_run link_step].
  destruct (unit_eq true 47 d1); [| reflexivity].
  destruct t as [| d2 t]; [reflexivity |]. cbn [strip snd link_run link_step].
  destruct (unit_eq true 47 d2); [| reflexivity].
  cbn [flat_map]. rewrite app_nil_r, can_plus_class. cbn [snd].
  destruct t as [| d3 t]; [reflexivity |]. cbn [link_run link_step].
  unfold link_unit, in_class. cbn [existsb in_item xorb].
  rewrite !unit_eq_symbol by reflexivity.
  change (ch ")") with 41%N. change (ch ">") with 62%N. change (ch "]") with 93%N.
  rewrite orb_false_r, <- !orb_assoc.
  now destruct (is_white_space d3 || ((d3 =? 41)%N || ((d3 =? 62)%N || (d3 =? 93)%N))).
Qed.

(** The link pattern matches at a position exactly when the automaton
    accepts the text from there. *)
Lemma exec_urlPattern (p : option codeunit) (s : jsstring) :
  is_some (exec urlPattern (p, s)) = link_head s.
Proof.
  rewrite is_some_exec.
  unfold urlPattern. cbn [pattern ignoreCase multiline seqs].
  rewrite can_Seq. unfold lit. rewrite ends_chars.
  change (u "http") with [104; 116; 116; 112]%N.
  change (u "://") with [58; 47; 47]%N.
  change (ch "s") with 115%N.
  unfold link_head.
  destruct s as [| d0 s]; [reflexivity |]. cbn [strip snd link_run link_step].
  destruct (unit_eq true 104 d0); [| reflexivity].
  destruct s as [| d1 s]; [reflexivity |]. cbn [strip snd link_run link_step].
  destruct (unit_eq true 116 d1); [| reflexivity].
  destruct s as [| d2 s]; [reflexivity |]. cbn [strip snd link_run link_step].
  destruct (unit_eq true 116 d2); [| reflexivity].
  destruct s as [| d3 s]; [reflexivity |]. cbn [strip snd link_run link_step].
  destruct (unit_eq true 112 d3); [| reflexivity].
  cbn [existsb]. rewrite orb_false_r, can_Seq.
  unfold opt. cbn [ends]. unfold accepts at 1. cbn [snd].
  rewrite existsb_app. cbn [existsb]. rewrite orb_false_r, link_tail.
  destruct s as [| d4 s]; [reflexivity |]. cbn [link_run link_step].
  destruct (unit_eq true 115 d4) eqn:E1.
  - cbn [existsb]. rewrite orb_false_r, link_tail.
    destruct (unit_eq true 58 d4) eqn:E2; [| now rewrite orb_false_r].
    pose proof (unit_eq_same _ _ _ E1 E2) as H. discriminate.
  - cbn [existsb]. reflexivity.
Qed.

End LinkPattern.

Section LinkFree.

Import RegExp Matching ClassifierSpec.

Lemma render_Kept (rep : jsstring) (d : codeunit) (ps : list piece) :
  render rep (Kept d :: ps) = d :: render rep ps.
Proof. reflexivity. Qed.

Lemma render_Hit (rep m : jsstring) (ps : list piece) :
  render rep (Hit m :: ps) = rep ++ render rep ps.
Proof. reflexivity. Qed.

Lemma lifts_refl (s : jsstring) : lifts s s.
Proof. now intros x. Qed.

Lemma lifts_cons (d : codeunit) (s out : jsstring) :
  lifts s out -> lifts (d :: s) (d :: out).
Proof.
  intros H x.
  change (x ++ d :: out) with (x ++ [d] ++ out).
  change (x ++ d :: s) with (x ++ [d] ++ s).
  rewrite !app_assoc. apply H.
Qed.

Lemma lifts_drop (m s out : jsstring) :
  match s with [] => True | d :: _ => is_white_space d = true end ->
  lifts s out -> lifts (m ++ s) out.
Proof.
  intros Hs H x Hx. apply (link_run_cut 0 x s (m ++ s) Hs). now apply H.
Qed.

Lemma lifts_blank (s rep out : jsstring) :
  match rep with [] => False | d :: _ => is_white_space d = true end ->
  lifts s (rep ++ out).
Proof.
  intros Hrep x Hx. destruct rep as [| r0 rep]; [contradiction |].
  now apply (link_run_cut 0 x ((r0 :: rep) ++ out) s Hrep).
Qed.

Lemma link_free_cons (d : codeunit) (s out : jsstring) :
  link_free out -> lifts s out -> link_head (d :: s) = false ->
  link_free (d :: out).
Proof.
  intros Ho Hl Hd. apply every_suffix_cons; [| exact Ho].
  destruct (link_head (d :: out)) eqn:E; [| reflexivity].
  apply (lifts_cons d) in Hl. specialize (Hl [] E). cbn [app] in Hl. congruence.
Qed.

Lemma line_terminator_white_space (d : codeunit) :
  is_line_terminator d = true -> is_white_space d = true.
Proof.
  unfold is_line_terminator, is_white_space, in_range. intros H.
  repeat (apply orb_true_iff in H; destruct H as [H | H]);
    apply N.eqb_eq in H; subst; reflexivity.
Qed.

Lemma link_free_blank_app (rep out : jsstring) :
  forallb is_white_space rep = true -> link_free out -> link_free (rep ++ out).
Proof.
  induction rep as [| d rep IH]; [trivial |]. cbn [forallb app]. intros H Ho.
  apply andb_prop in H. destruct H as [Hd Hrep].
  apply every_suffix_cons; [| now apply IH].
  unfold link_head. cbn [link_run]. now rewrite (link_step_ws 0 d Hd).
Qed.

(** The first pass: where a link started there is now the token, and no
    new link starts across the seams. *)
Lemma link_free_first_pass (p : option codeunit) (s : jsstring) (ps : list piece) :
  Scan urlPattern p s ps ->
  link_free (render linkToken ps) /\ lifts s (render linkToken ps).
Proof.
  assert (Hc : consumes (pattern urlPattern) = true) by reflexivity.
  induction 1 as [p He | p He | p d s ps He _ [IH1 IH2] | p d s ps He
                 | p m s ps Hm Hf _ [IH1 IH2]].
  - split; [repeat constructor | apply lifts_refl].
  - now apply exec_consumes in He.
  - rewrite render_Kept. split; [| now apply lifts_cons].
    apply link_free_cons with (s := s); [exact IH1 | exact IH2 |].
    rewrite <- exec_urlPattern with (p := p). now rewrite He.
  - now apply exec_consumes in He.
  - rewrite render_Hit.
    assert (Hhead : link_head (m ++ s) = true).
    { rewrite <- exec_urlPattern with (p := p). unfold exec. now rewrite Hf. }
    destruct m as [| h m]; [congruence |]. cbn [app] in Hhead.
    pose proof (link_head_first _ _ Hhead) as Hh.
    split.
    + unfold linkToken. repeat (apply every_suffix_cons; [reflexivity |]).
      exact IH1.
    + intros x Hx. unfold linkToken in Hx. cbn [app] in Hx |- *.
      unfold link_head in *.
      now apply link_run_bracket with (d := h) (z := m ++ s) in Hx.
Qed.

(** Removing what a pattern that ends with [$] matches starts no link. *)
Lemma link_free_removal (re : RegExp.t) (p : option codeunit) (s : jsstring)
  (ps : list piece) :
  eol_tail (pattern re) = true ->
  Scan re p s ps -> link_free s ->
  link_free (render [] ps) /\ lifts s (render [] ps).
Proof.
  intros He.
  induction 1 as [p Hx | p Hx | p d s ps Hx _ IH | p d s ps Hx _ IH
                 | p m s ps Hm Hf _ IH]; intros Hs.
  - split; [exact Hs | apply lifts_refl].
  - split; [exact Hs | apply lifts_refl].
  - destruct (IH (@every_suffix_tail _ _ _ Hs)) as [IH1 IH2].
    rewrite render_Kept. split; [| now apply lifts_cons].
    apply link_free_cons with (s := s); [exact IH1 | exact IH2 |]. now apply every_suffix_head in Hs.
  - destruct (IH (@every_suffix_tail _ _ _ Hs)) as [IH1 IH2].
    rewrite render_Hit, render_Kept. cbn [app]. split; [| now apply lifts_cons].
    apply link_free_cons with (s := s); [exact IH1 | exact IH2 |]. now apply every_suffix_head in Hs.
  - destruct (IH (@every_suffix_app _ m s Hs)) as [IH1 IH2].
    rewrite render_Hit. cbn [app]. split; [exact IH1 |].
    apply lifts_drop; [| exact IH2].
    pose proof (@first_end_eol _ _ _ _ He Hf) as Heol.
    destruct s; [trivial | now apply line_terminator_white_space].
Qed.

(** Putting white space in the place of matches starts no link. *)
Lemma link_free_blanking (re : RegExp.t) (rep : jsstring) (p : option codeunit)
  (s : jsstring) (ps : list piece) :
  rep <> [] -> forallb is_white_space rep = true ->
  Scan re p s ps -> link_free s ->
  link_free (render rep ps) /\ lifts s (render rep ps).
Proof.
  intros Hne Hws.
  assert (Hrep : match rep with [] => False | d :: _ => is_white_space d = true end).
  { destruct rep as [| d rep]; [congruence |]. cbn [forallb] in Hws.
    now apply andb_prop in Hws. }
  induction 1 as [p Hx | p Hx | p d s ps Hx _ IH | p d s ps Hx _ IH
                 | p m s ps Hm Hf _ IH]; intros Hs.
  - split; [exact Hs | apply lifts_refl].
  - rewrite render_Hit. cbn [render flat_map].
    split; [now apply link_free_blank_app | now apply lifts_blank].
  - destruct (IH (@every_suffix_tail _ _ _ Hs)) as [IH1 IH2].
    rewrite render_Kept. split; [| now apply lifts_cons].
    apply link_free_cons with (s := s); [exact IH1 | exact IH2 |]. now apply every_suffix_head in Hs.
  - destruct (IH (@every_suffix_tail _ _ _ Hs)) as [IH1 IH2].
    rewrite render_Hit, render_Kept.
    split; [| now apply lifts_blank].
    apply link_free_blank_app; [assumption |].
    apply link_free_cons with (s := s); [exact IH1 | exact IH2 |]. now apply every_suffix_head in Hs.
  - destruct (IH (@every_suffix_app _ m s Hs)) as [IH1 IH2].
    rewrite render_Hit.
    split; [now apply link_free_blank_app | now apply lifts_blank].
Qed.

Lemma link_free_factor (a t b : jsstring) :
  link_free (a ++ t ++ b) -> link_free t.
Proof.
  apply every_suffix_factor. intros x y H.
  destruct (link_head x) eqn:E; [| reflexivity].
  apply (link_run_more 0 x y) in E. unfold link_head in H. congruence.
Qed.

End LinkFree.

Section NewlinesPattern.

Import RegExp Matching ClassifierSpec.

Lemma nl_run_firstn (s : jsstring) :
  firstn (nl_run s) s = repeat 10%N (nl_run s).
Proof.
  induction s as [| d s IH]; [reflexivity |]. cbn [nl_run].
  destruct (d =? 10)%N eqn:E; [| reflexivity].
  apply N.eqb_eq in E. subst d. cbn [firstn repeat]. now f_equal.
Qed.

Lemma nl_run_skipn (s : jsstring) : nl_run (skipn (nl_run s) s) = 0.
Proof.
  induction s as [| d s IH]; [reflexivity |]. cbn [nl_run].
  destruct (d =? 10)%N eqn:E; [exact IH |]. cbn [skipn nl_run]. now rewrite E.
Qed.

Lemma nl_run_length (s : jsstring) : nl_run s <= length s.
Proof.
  induction s as [| d s IH]; [reflexivity |]. cbn [nl_run length].
  destruct (d =? 10)%N; lia.
Qed.

Lemma nl_run_repeat (n : nat) (s : jsstring) :
  nl_run (repeat 10%N n ++ s) = n + nl_run s.
Proof.
  induction n as [| n IH]; [reflexivity |]. cbn [repeat app nl_run N.eqb Pos.eqb].
  now rewrite IH.
Qed.

(** The greedy star of line feeds first ends behind all of them. *)
Lemma star_line_feeds (p : option codeunit) (s : jsstring) :
  hd_error (ends false false (Star (Char 10)) (p, s))
  = Some (last_unit p (repeat 10%N (nl_run s)), skipn (nl_run s) s).
Proof.
  revert p. induction s as [| d s IH]; intros p; rewrite ends_Star.
  - reflexivity.
  - change (ends false false (Char 10) (p, d :: s))
      with (accepts (unit_eq false 10) (p, d :: s)).
    unfold accepts. cbn [snd unit_eq nl_run]. rewrite N.eqb_sym.
    destruct (d =? 10)%N eqn:E; [| reflexivity].
    apply N.eqb_eq in E. subst d.
    cbn [flat_map snd length]. rewrite app_nil_r.
    replace (length s <? S (length s)) with true
      by (symmetry; apply Nat.ltb_lt; lia).
    specialize (IH (Some 10%N)).
    destruct (ends false false (Star (Char 10)) (Some 10%N, s)); [discriminate |].
    cbn [app hd_error] in *. exact IH.
Qed.

Lemma first_end_newlines (p : option codeunit) (s : jsstring) :
  first_end newlinesPattern (p, s)
  = if 3 <=? nl_run s
    then Some (last_unit p (repeat 10%N (nl_run s)), skipn (nl_run s) s)
    else None.
Proof.
  unfold first_end, newlinesPattern, at_least.
  cbn [pattern ignoreCase multiline times].
  set (star := Star (Char 10)).
  cbn [ends].
  destruct s as [| d0 s]; [reflexivity |].
  cbn [accepts snd unit_eq nl_run]. rewrite (N.eqb_sym 10 d0).
  destruct (d0 =? 10)%N eqn:E0; [| reflexivity].
  cbn [flat_map]. rewrite !app_nil_r.
  destruct s as [| d1 s]; [reflexivity |].
  cbn [accepts snd unit_eq nl_run]. rewrite (N.eqb_sym 10 d1).
  destruct (d1 =? 10)%N eqn:E1; [| reflexivity].
  cbn [flat_map]. rewrite !app_nil_r.
  destruct s as [| d2 s]; [reflexivity |].
  cbn [accepts snd unit_eq nl_run]. rewrite (N.eqb_sym 10 d2).
  destruct (d2 =? 10)%N eqn:E2; [| reflexivity].
  cbn [flat_map]. rewrite !app_nil_r.
  apply N.eqb_eq in E0, E1, E2. subst. subst star.
  rewrite star_line_feeds. reflexivity.
Qed.

Lemma exec_newlines_None (p : option codeunit) (s : jsstring) :
  exec newlinesPattern (p, s) = None -> nl_run s <= 2.
Proof.
  unfold exec. rewrite first_end_newlines.
  destruct (3 <=? nl_run s) eqn:E; [discriminate |].
  apply Nat.leb_gt in E. lia.
Qed.

(** A match of the pattern is a run of three line feeds or more, all
    that are there. *)
Lemma first_end_newlines_hit (p p' : option codeunit) (m s : jsstring) :
  first_end newlinesPattern (p, m ++ s) = Some (p', s) ->
  m = repeat 10%N (length m) /\ 3 <= length m /\ nl_run s = 0.
Proof.
  rewrite first_end_newlines.
  destruct (3 <=? nl_run (m ++ s)) eqn:E; [| discriminate].
  apply Nat.leb_le in E. intros H. injection H as _ Hs.
  pose proof (nl_run_length (m ++ s)) as Hlen.
  assert (Hk : nl_run (m ++ s) = length m).
  { apply (f_equal (@length N)) in Hs.
    rewrite length_skipn, length_app in Hs. rewrite length_app in Hlen. lia. }
  repeat split.
  - rewrite <- Hk, <- nl_run_firstn, Hk.
    rewrite firstn_app, firstn_all, Nat.sub_diag. cbn [firstn].
    now rewrite app_nil_r.
  - lia.
  - rewrite <- Hs at 1. apply nl_run_skipn.
Qed.

End NewlinesPattern.

Section QuoteAndGap.

Import RegExp Matching ClassifierSpec.

Lemma quote_head_cons (d : codeunit) (s : jsstring) :
  quote_head (d :: s) = is_line_terminator d && starts_with_gt s.
Proof. reflexivity. Qed.

Lemma line_terminator_not_gt (d : codeunit) :
  is_line_terminator d = true -> (d =? 62)%N = false.
Proof.
  unfold is_line_terminator. intros H.
  repeat (apply orb_true_iff in H; destruct H as [H | H]);
    apply N.eqb_eq in H; subst; reflexivity.
Qed.

Lemma starts_with_gt_eol (s : jsstring) :
  match s with [] => True | d :: _ => is_line_terminator d = true end ->
  starts_with_gt s = false.
Proof.
  destruct s as [| d s]; [reflexivity |]. apply line_terminator_not_gt.
Qed.

Lemma starts_with_gt_cons (d : codeunit) (s t : jsstring) :
  starts_with_gt (d :: s) = true -> starts_with_gt (d :: t) = true.
Proof. trivial. Qed.

(** [.*] can always run to the end of the line. *)
Lemma star_dot_eol (ic : bool) (p : option codeunit) (s : jsstring) :
  exists c', In c' (ends ic true (Star Dot) (p, s)) /\ at_eol true c' = true.
Proof.
  revert p. induction s as [| d s IH]; intros p.
  - exists (p, []). split; [apply ends_Star_In_self | reflexivity].
  - destruct (is_line_terminator d) eqn:E.
    + exists (p, d :: s). split; [apply ends_Star_In_self |].
      unfold at_eol. cbn [snd]. now rewrite E.
    + destruct (IH (Some d)) as (c' & Hin & Heol). exists c'. split; [| exact Heol].
      apply ends_Star_In_step with (c1 := (Some d, s)); [| cbn; lia | exact Hin].
      cbn [ends]. unfold accepts. cbn [snd]. rewrite E. now left.
Qed.

(** At the start of a line, [>] starts a match of the quote pattern. *)
Lemma exec_quotedPattern (p : option codeunit) (s : jsstring) :
  at_bol true (p, s) = true -> starts_with_gt s = true ->
  exec quotedPattern (p, s) <> None.
Proof.
  intros Hb Hg. destruct s as [| d s]; [discriminate |].
  assert (d = 62%N) as -> by now apply N.eqb_eq.
  destruct (star_dot_eol false (Some 62%N) s) as (c' & Hin & Heol).
  rewrite exec_None. intros Hnil.
  assert (H : In c' (ends false true (pattern quotedPattern) (p, 62%N :: s))).
  { unfold quotedPattern. cbn [pattern seqs].
    apply ends_Seq_In. exists (p, 62%N :: s). split.
    { cbn [ends]. rewrite Hb. now left. }
    apply ends_Seq_In. exists (Some 62%N, s). split; [now left |].
    apply ends_Seq_In. exists c'. split; [exact Hin |].
    cbn [ends]. rewrite Heol. now left. }
  cbn [ignoreCase multiline quotedPattern] in Hnil. rewrite Hnil in H. contradiction.
Qed.

Lemma quote_free_cons (d : codeunit) (out : jsstring) :
  quote_free out ->
  (starts_with_gt out = true -> is_line_terminator d = false) ->
  quote_free (d :: out).
Proof.
  intros Ho H. apply every_suffix_cons; [| exact Ho].
  rewrite quote_head_cons. destruct (starts_with_gt out).
  - now rewrite H.
  - apply andb_false_r.
Qed.

Lemma quote_free_head (d : codeunit) (s : jsstring) :
  quote_free (d :: s) -> starts_with_gt s = true -> is_line_terminator d = false.
Proof.
  intros H Hg. apply every_suffix_head in H. rewrite quote_head_cons, Hg in H.
  now rewrite andb_true_r in H.
Qed.

(** The quote pattern leaves no [>] at the start of a line. *)
Lemma quote_free_quoted_pass (p : option codeunit) (s : jsstring) (ps : list piece) :
  Scan quotedPattern p s ps ->
  quote_free (render [] ps)
  /\ (starts_with_gt (render [] ps) = true ->
      starts_with_gt s = true /\ at_bol true (p, s) = false).
Proof.
  assert (Hc : consumes (pattern quotedPattern) = true) by reflexivity.
  assert (He : eol_tail (pattern quotedPattern) = true) by reflexivity.
  induction 1 as [p Hx | p Hx | p d s ps Hx _ [IH1 IH2] | p d s ps Hx
                 | p m s ps Hm Hf _ [IH1 IH2]].
  - split; [repeat constructor | discriminate].
  - now apply exec_consumes in Hx.
  - rewrite render_Kept. split.
    + apply quote_free_cons; [exact IH1 |]. intros Hg.
      destruct (IH2 Hg) as [_ Hb]. unfold at_bol in Hb. now cbn [fst andb] in Hb.
    + intros Hg. split; [now apply starts_with_gt_cons with (s := render [] ps) |].
      destruct (at_bol true (p, d :: s)) eqn:Hb; [| reflexivity].
      exfalso. apply (@exec_quotedPattern p (d :: s) Hb); [| exact Hx].
      now apply starts_with_gt_cons with (s := render [] ps).
  - now apply exec_consumes in Hx.
  - rewrite render_Hit. cbn [app]. split; [exact IH1 |].
    intros Hg. destruct (IH2 Hg) as [Hs _].
    rewrite starts_with_gt_eol in Hs; [discriminate |].
    exact (@first_end_eol _ _ _ _ He Hf).
Qed.

(** Removing what a pattern that ends with [$] matches brings no [>] to
    the start of a line. *)
Lemma quote_free_removal (re : RegExp.t) (p : option codeunit) (s : jsstring)
  (ps : list piece) :
  eol_tail (pattern re) = true ->
  Scan re p s ps -> quote_free s ->
  quote_free (render [] ps)
  /\ (starts_with_gt (render [] ps) = true -> starts_with_gt s = true).
Proof.
  intros He.
  induction 1 as [p Hx | p Hx | p d s ps Hx _ IH | p d s ps Hx _ IH
                 | p m s ps Hm Hf _ IH]; intros Hs.
  - split; [exact Hs | trivial].
  - split; [exact Hs | trivial].
  - destruct (IH (@every_suffix_tail _ _ _ Hs)) as [IH1 IH2].
    rewrite render_Kept. split.
    + apply quote_free_cons; [exact IH1 |]. intros Hg.
      apply (@quote_free_head d s Hs). now apply IH2.
    + intros Hg. now apply starts_with_gt_cons with (s := render [] ps).
  - destruct (IH (@every_suffix_tail _ _ _ Hs)) as [IH1 IH2].
    rewrite render_Hit, render_Kept. cbn [app]. split.
    + apply quote_free_cons; [exact IH1 |]. intros Hg.
      apply (@quote_free_head d s Hs). now apply IH2.
    + intros Hg. now apply starts_with_gt_cons with (s := render [] ps).
  - destruct (IH (@every_suffix_app _ m s Hs)) as [IH1 IH2].
    rewrite render_Hit. cbn [app]. split; [exact IH1 |].
    intros Hg. apply IH2 in Hg.
    rewrite starts_with_gt_eol in Hg; [discriminate |].
    exact (@first_end_eol _ _ _ _ He Hf).
Qed.

Lemma quote_free_repeat (n : nat) (s : jsstring) :
  quote_free (repeat 10%N (S n) ++ s) -> starts_with_gt s = false.
Proof.
  induction n as [| n IH].
  - cbn [repeat app]. intros H. apply every_suffix_head in H.
    rewrite quote_head_cons in H. exact H.
  - intros H. apply IH. change (repeat 10%N (S (S n)) ++ s)
      with (10%N :: repeat 10%N (S n) ++ s) in H.
    now apply every_suffix_tail in H.
Qed.

(** Collapsing the runs of line feeds brings no [>] to the start of a
    line, and leaves no three line feeds in a row. *)
Lemma newlines_pass (p : option codeunit) (s : jsstring) (ps : list piece) :
  Scan newlinesPattern p s ps ->
  let out := render [10; 10]%N ps in
  (gap_free out /\ nl_run out <= nl_run s)
  /\ (quote_free s ->
      quote_free out /\ (starts_with_gt out = true -> starts_with_gt s = true)).
Proof.
  assert (Hc : consumes (pattern newlinesPattern) = true) by reflexivity.
  induction 1 as [p Hx | p Hx | p d s ps Hx _ [[IG IR] IQ] | p d s ps Hx
                 | p m s ps Hm Hf _ [[IG IR] IQ]]; cbn zeta in *.
  - cbn. repeat split; trivial; lia.
  - now apply exec_consumes in Hx.
  - rewrite render_Kept. apply exec_newlines_None in Hx.
    assert (Hrun : nl_run (d :: render [10; 10]%N ps) <= nl_run (d :: s)).
    { cbn [nl_run]. destruct (d =? 10)%N; lia. }
    split; [split; [| exact Hrun] |].
    + apply every_suffix_cons; [lia | exact IG].
    + intros Hs. destruct (IQ (@every_suffix_tail _ _ _ Hs)) as [IQ1 IQ2]. split.
      * apply quote_free_cons; [exact IQ1 |]. intros Hg.
        apply (@quote_free_head d s Hs). now apply IQ2.
      * intros Hg. now apply starts_with_gt_cons with (s := render [10; 10]%N ps).
  - now apply exec_consumes in Hx.
  - rewrite render_Hit.
    destruct (@first_end_newlines_hit _ _ _ _ Hf) as (Em & Hlen & Hrun).
    assert (Hout : nl_run (render [10; 10]%N ps) = 0) by lia.
    split; [split |].
    + cbn [app]. repeat (apply every_suffix_cons; [cbn [nl_run N.eqb Pos.eqb]; lia |]).
      exact IG.
    + rewrite Em, nl_run_repeat. cbn [app nl_run N.eqb Pos.eqb]. lia.
    + intros Hs. destruct (IQ (@every_suffix_app _ m s Hs)) as [IQ1 IQ2].
      assert (Hg : starts_with_gt (render [10; 10]%N ps) = false).
      { destruct (starts_with_gt (render [10; 10]%N ps)) eqn:E; [| reflexivity].
        specialize (IQ2 eq_refl). rewrite Em in Hs.
        destruct (length m) as [| n]; [lia |].
        apply quote_free_repeat in Hs. congruence. }
      split; [| discriminate]. cbn [app].
      apply quote_free_cons; [| discriminate].
      apply quote_free_cons; [exact IQ1 | congruence].
Qed.

(** Putting one space in the place of matches keeps both properties. *)
Lemma blanks_pass (re : RegExp.t) (p : option codeunit) (s : jsstring)
  (ps : list piece) :
  Scan re p s ps ->
  let out := render [32%N] ps in
  (gap_free s -> gap_free out /\ nl_run out <= nl_run s)
  /\ (quote_free s ->
      quote_free out /\ (starts_with_gt out = true -> starts_with_gt s = true)).
Proof.
  induction 1 as [p Hx | p Hx | p d s ps Hx _ [IG IQ] | p d s ps Hx _ [IG IQ]
                 | p m s ps Hm Hf _ [IG IQ]]; cbn zeta in *.
  - split; intros Hs; split; trivial.
  - cbn. repeat split; (lia || discriminate || trivial).
  - rewrite render_Kept. split; intros Hs.
    + destruct (IG (@every_suffix_tail _ _ _ Hs)) as [IG1 IG2].
      assert (Hrun : nl_run (d :: render [32%N] ps) <= nl_run (d :: s)).
      { cbn [nl_run]. destruct (d =? 10)%N; lia. }
      split; [| exact Hrun]. apply every_suffix_cons; [| exact IG1].
      apply every_suffix_head in Hs. lia.
    + destruct (IQ (@every_suffix_tail _ _ _ Hs)) as [IQ1 IQ2]. split.
      * apply quote_free_cons; [exact IQ1 |]. intros Hg.
        apply (@quote_free_head d s Hs). now apply IQ2.
      * intros Hg. now apply starts_with_gt_cons with (s := render [32%N] ps).
  - rewrite render_Hit, render_Kept. cbn [app]. split; intros Hs.
    + destruct (IG (@every_suffix_tail _ _ _ Hs)) as [IG1 IG2].
      split; [| cbn; lia].
      apply every_suffix_cons; [cbn; lia |].
      apply every_suffix_cons; [| exact IG1].
      apply every_suffix_head in Hs.
      assert (Hrun : nl_run (d :: render [32%N] ps) <= nl_run (d :: s)).
      { cbn [nl_run]. destruct (d =? 10)%N; lia. }
      lia.
    + destruct (IQ (@every_suffix_tail _ _ _ Hs)) as [IQ1 IQ2].
      split; [| discriminate].
      apply quote_free_cons; [| intros _; reflexivity].
      apply quote_free_cons; [exact IQ1 |]. intros Hg.
      apply (@quote_free_head d s Hs). now apply IQ2.
  - rewrite render_Hit. cbn [app]. split; intros Hs.
    + destruct (IG (@every_suffix_app _ m s Hs)) as [IG1 IG2].
      split; [| cbn; lia]. apply every_suffix_cons; [cbn; lia | exact IG1].
    + destruct (IQ (@every_suffix_app _ m s Hs)) as [IQ1 IQ2].
      split; [| discriminate]. apply quote_free_cons; [exact IQ1 | intros _; reflexivity].
Qed.

Lemma quote_free_factor (a t b : jsstring) :
  quote_free (a ++ t ++ b) -> quote_free t.
Proof.
  apply every_suffix_factor. intros x y H.
  destruct x as [| d [| e x]]; [reflexivity | | exact H].
  cbn [quote_head starts_with_gt]. apply andb_false_r.
Qed.

Lemma nl_run_app_le (x y : jsstring) : nl_run x <= nl_run (x ++ y).
Proof.
  induction x as [| d x IH]; cbn [app nl_run]; [lia |].
  destruct (d =? 10)%N; lia.
Qed.

Lemma gap_free_factor (a t b : jsstring) :
  gap_free (a ++ t ++ b) -> gap_free t.
Proof.
  apply every_suffix_factor. intros x y H.
  pose proof (nl_run_app_le x y). lia.
Qed.

End QuoteAndGap.

Section CleanerClaims.

Import RegExp Matching ClassifierSpec Lines.

Lemma replace_Scan (re : RegExp.t) (rep s : jsstring) :
  exists ps, Scan re None s ps /\ replace re rep s = render rep ps.
Proof.
  exists (scan re None s 0). split; [apply scan_spec | reflexivity].
Qed.

Lemma removal_keeps (re : RegExp.t) (s : jsstring) :
  eol_tail (pattern re) = true ->
  (link_free s -> link_free (replace re [] s))
  /\ (quote_free s -> quote_free (replace re [] s)).
Proof.
  intros He. destruct (replace_Scan re [] s) as (ps & Hscan & ->). split; intros Hs.
  - now apply (link_free_removal He Hscan).
  - now apply (quote_free_removal He Hscan).
Qed.

Lemma stripFooters_link_free (s : jsstring) :
  link_free s -> link_free (stripFooters s).
Proof.
  unfold stripFooters.
  assert (H : forallb (fun re => eol_tail (pattern re)) footerPatterns = true)
    by reflexivity.
  revert s. induction footerPatterns as [| re l IH]; intros s Hs; [exact Hs |].
  cbn [forallb] in H. apply andb_prop in H. destruct H as [He Hl].
  cbn [fold_left]. apply (IH Hl). now apply removal_keeps.
Qed.

(** The three properties of every cleaned text. *)
Lemma cleanEmailBody_free (rawBody : field) :
  link_free (cleanEmailBody rawBody)
  /\ quote_free (cleanEmailBody rawBody)
  /\ gap_free (cleanEmailBody rawBody).
Proof.
  assert (Hnil : link_free [] /\ quote_free [] /\ gap_free []).
  { cbn. repeat split; (lia || trivial). }
  destruct rawBody as [[| d rest] |]; [exact Hnil | | exact Hnil].
  cbn [cleanEmailBody].
  remember (replace urlPattern linkToken (d :: rest)) as s1 eqn:E1.
  remember (stripFooters s1) as s2 eqn:E2.
  remember (replace quotedPattern [] s2) as s3 eqn:E3.
  remember (replace wrotePattern [] s3) as s4 eqn:E4.
  remember (replace newlinesPattern [10; 10]%N s4) as s5 eqn:E5.
  remember (replace blanksPattern [32%N] s5) as s6 eqn:E6.
  assert (L1 : link_free s1).
  { destruct (replace_Scan urlPattern linkToken (d :: rest)) as (ps & Hscan & E).
    rewrite E1, E. now apply (link_free_first_pass Hscan). }
  assert (L2 : link_free s2) by (rewrite E2; now apply stripFooters_link_free).
  assert (L3 : link_free s3) by (rewrite E3; now apply removal_keeps).
  assert (Q3 : quote_free s3).
  { destruct (replace_Scan quotedPattern [] s2) as (ps & Hscan & E).
    rewrite E3, E. now apply (quote_free_quoted_pass Hscan). }
  assert (L4 : link_free s4) by (rewrite E4; now apply removal_keeps).
  assert (Q4 : quote_free s4) by (rewrite E4; now apply removal_keeps).
  destruct (replace_Scan newlinesPattern [10; 10]%N s4) as (ps5 & Hscan5 & R5).
  rewrite <- E5 in R5.
  assert (L5 : link_free s5).
  { rewrite R5.
    destruct (@link_free_blanking newlinesPattern [10; 10]%N None s4 ps5) as [H _];
      [discriminate | reflexivity | exact Hscan5 | exact L4 | exact H]. }
  destruct (newlines_pass Hscan5) as [[G5 _] Q5]. rewrite <- R5 in G5, Q5.
  apply Q5 in Q4. destruct Q4 as [Q5' _].
  destruct (replace_Scan blanksPattern [32%N] s5) as (ps6 & Hscan6 & R6).
  rewrite <- E6 in R6.
  assert (L6 : link_free s6).
  { rewrite R6.
    destruct (@link_free_blanking blanksPattern [32%N] None s5 ps6) as [H _];
      [discriminate | reflexivity | exact Hscan6 | exact L5 | exact H]. }
  destruct (blanks_pass Hscan6) as [G6 Q6]. rewrite <- R6 in G6, Q6.
  apply G6 in G5. destruct G5 as [G6' _].
  apply Q6 in Q5'. destruct Q5' as [Q6' _].
  destruct (trim_factor s6) as (a & b & E).
  rewrite E in L6, Q6', G6'.
  split; [| split].
  - exact (link_free_factor _ _ _ L6).
  - exact (quote_free_factor _ _ _ Q6').
  - exact (gap_free_factor _ _ _ G6').
Qed.

(** *** Lines *)

Lemma lines_go_head (s : jsstring) :
  forall cur, exists pre rest tail,
    lines_go cur s = (rev cur ++ pre) :: tail
    /\ s = pre ++ rest
    /\ ((rest = [] /\ tail = [])
        \/ exists r, rest = 10%N :: r /\ tail = lines_go [] r).
Proof.
  induction s as [| d s IH]; intros cur.
  - exists [], [], []. rewrite app_nil_r. repeat split. now left.
  - cbn [lines_go]. destruct (d =? 10)%N eqn:E.
    + apply N.eqb_eq in E. subst d. exists [], (10%N :: s), (lines_go [] s).
      rewrite app_nil_r. repeat split. right. now exists s.
    + destruct (IH (d :: cur)) as (pre & rest & tail & E1 & E2 & E3).
      exists (d :: pre), rest, tail. split; [| split; [| exact E3]].
      * rewrite E1. cbn [rev]. now rewrite <- app_assoc.
      * cbn [app]. now f_equal.
Qed.

(** A line but the first stands right behind a line feed. *)
Lemma lines_tail_In (s : jsstring) :
  forall cur l, In l (tl (lines_go cur s)) ->
                exists before after, s = before ++ 10%N :: l ++ after.
Proof.
  induction s as [| d s IH]; intros cur l Hin; [destruct Hin |].
  cbn [lines_go] in Hin. destruct (d =? 10)%N eqn:E.
  - apply N.eqb_eq in E. subst d. cbn [tl] in Hin.
    destruct (lines_go_head s []) as (pre & rest & tail & E1 & E2 & _).
    cbn [rev app] in E1. rewrite E1 in Hin. destruct Hin as [<- | Hin].
    + exists [], rest. cbn [app]. now f_equal.
    + assert (Ht : tail = tl (lines_go [] s)) by now rewrite E1.
      rewrite Ht in Hin. destruct (IH _ _ Hin) as (before & after & ->).
      now exists (10%N :: before), after.
  - destruct (IH _ _ Hin) as (before & after & ->).
    now exists (d :: before), after.
Qed.

(** Two empty lines in a row: the text starts with an empty line and a
    second one, or holds three line feeds in a row, or ends with two. *)
Lemma empty_run_inv (s : jsstring) :
  forall cur,
    run_of_two is_empty (lines_go cur s) = true ->
    (cur = [] /\ (s = [10%N] \/ exists r, s = 10%N :: 10%N :: r))
    \/ (exists before after, s = before ++ 10%N :: 10%N :: 10%N :: after)
    \/ (exists before, s = before ++ [10; 10]%N).
Proof.
  induction s as [| d s IH]; intros cur H; [discriminate |].
  cbn [lines_go] in H. destruct (d =? 10)%N eqn:E.
  - apply N.eqb_eq in E. subst d.
    destruct (lines_go_head s []) as (pre & rest & tail & E1 & E2 & E3).
    cbn [rev app] in E1.
    assert (Hrun : (is_empty (rev cur) && is_empty pre
                    || run_of_two is_empty (lines_go [] s)) = true)
      by (rewrite E1 in H |- *; exact H).
    apply orb_prop in Hrun. destruct Hrun as [Hrun | Hrun].
    + apply andb_prop in Hrun. destruct Hrun as [Hc Hp].
      left. split.
      * destruct cur as [| c cur]; [reflexivity |]. cbn [rev] in Hc.
        now destruct (rev cur).
      * destruct pre; [| discriminate]. cbn [app] in E2. subst rest.
        destruct E3 as [[-> _] | (r & -> & _)]; [now left | right; now exists r].
    + destruct (IH _ Hrun)
        as [[_ [-> | (r & ->)]] | [(before & after & ->) | (before & ->)]].
      * right. right. now exists [].
      * right. left. now exists [], r.
      * right. left. now exists (10%N :: before), after.
      * right. right. now exists (10%N :: before).
  - destruct (IH _ H)
      as [[Hc _] | [(before & after & ->) | (before & ->)]].
    + discriminate.
    + right. left. now exists (d :: before), after.
    + right. right. now exists (d :: before).
Qed.

Lemma cleanEmailBody_trimmed (rawBody : field) :
  exists x, cleanEmailBody rawBody = trim x.
Proof.
  destruct rawBody as [[| d rest] |]; [now exists [] | | now exists []].
  cbn [cleanEmailBody]. eauto.
Qed.

(** C8, as stated, fails in two of its parts.  A quote mark behind a
    blank at the very start of the body is not at the start of a line
    when the quoted lines are removed, and is when the text has been
    trimmed.  Lines are collapsed by runs of three line feeds or more
    only: lines that hold a blank, and lines that end with a carriage
    return before the line feed, stay as many as they were. *)
Lemma cleanEmailBody_keeps_quote_and_blank_lines :
  cleanEmailBody (Some (u " >x")) = u ">x"
  /\ cleanEmailBody (Some (u "a" ++ [10; 32; 10; 32; 10; 32; 10]%N ++ u "b"))
     = u "a" ++ [10; 32; 10; 32; 10; 32; 10]%N ++ u "b"
  /\ cleanEmailBody
       (Some (u "a" ++ [13; 10; 13; 10; 13; 10; 13; 10]%N ++ u "b"))
     = u "a" ++ [13; 10; 13; 10; 13; 10; 13; 10]%N ++ u "b"
  /\ ~ (forall rawBody,
          forallb (fun l => negb (starts_with_gt l))
            (lines (cleanEmailBody rawBody)) = true)
  /\ ~ (forall rawBody,
          run_of_two is_blank_line (lines (cleanEmailBody rawBody)) = false).
Proof.
  assert (E1 : cleanEmailBody (Some (u " >x")) = u ">x")
    by (vm_compute; reflexivity).
  assert (E2 : cleanEmailBody
                 (Some (u "a" ++ [10; 32; 10; 32; 10; 32; 10]%N ++ u "b"))
               = u "a" ++ [10; 32; 10; 32; 10; 32; 10]%N ++ u "b")
    by (vm_compute; reflexivity).
  assert (E3 : cleanEmailBody
                 (Some (u "a" ++ [13; 10; 13; 10; 13; 10; 13; 10]%N ++ u "b"))
               = u "a" ++ [13; 10; 13; 10; 13; 10; 13; 10]%N ++ u "b")
    by (vm_compute; reflexivity).
  split; [exact E1 | split; [exact E2 | split; [exact E3 | split]]].
  - intros H. specialize (H (Some (u " >x"))). rewrite E1 in H. discriminate.
  - intros H.
    specialize (H (Some (u "a" ++ [10; 32; 10; 32; 10; 32; 10]%N ++ u "b"))).
    rewrite E2 in H. discriminate.
Qed.

(** C8, amended.  In the cleaned text no match of the link pattern
    starts anywhere.  No [>] stands right behind a line terminator
    (line feed, carriage return, line or paragraph separator), so that
    no line but, possibly, the first starts with [>].  No three line
    feeds stand in a row and, the text being trimmed, no two empty
    lines follow each other, lines being what line feeds separate.  An
    absent or empty body gives the empty text. *)
Theorem cleanEmailBody_output :
  forall rawBody,
    let cleaned := cleanEmailBody rawBody in
    (forall before after p,
        cleaned = before ++ after -> exec urlPattern (p, after) = None)
    /\ (forall before d after,
          cleaned = before ++ d :: 62%N :: after ->
          is_line_terminator d = false)
    /\ (forall l, In l (tl (lines cleaned)) -> starts_with_gt l = false)
    /\ (forall before after,
          cleaned <> before ++ 10%N :: 10%N :: 10%N :: after)
    /\ run_of_two is_empty (lines cleaned) = false
    /\ (rawBody = None \/ rawBody = Some [] -> cleaned = []).
Proof.
  intros rawBody cleaned.
  destruct (cleanEmailBody_free rawBody) as (L & Q & G). fold cleaned in L, Q, G.
  assert (Hquote : forall before d after,
             cleaned = before ++ d :: 62%N :: after ->
             is_line_terminator d = false).
  { intros before d after E.
    pose proof (proj1 (every_suffix_split _ cleaned) Q before _ E) as H.
    cbn beta in H. rewrite quote_head_cons in H. cbn [starts_with_gt] in H.
    now rewrite N.eqb_refl, andb_true_r in H. }
  assert (Hgap : forall before after,
             cleaned <> before ++ 10%N :: 10%N :: 10%N :: after).
  { intros before after E.
    pose proof (proj1 (every_suffix_split _ cleaned) G before _ E) as H.
    cbn in H. lia. }
  split; [| split; [exact Hquote | split; [| split; [exact Hgap | split]]]].
  - intros before after p E.
    pose proof (proj1 (every_suffix_split _ cleaned) L before after E) as H.
    cbn beta in H. rewrite <- (exec_urlPattern p) in H.
    now destruct (exec urlPattern (p, after)).
  - intros l Hin. destruct (starts_with_gt l) eqn:Hg; [| reflexivity].
    destruct l as [| d l]; [discriminate |]. cbn [starts_with_gt] in Hg.
    apply N.eqb_eq in Hg. subst d.
    destruct (lines_tail_In _ _ _ Hin) as (before & after & E).
    cbn [app] in E. now apply Hquote in E.
  - destruct (run_of_two is_empty (lines cleaned)) eqn:Hrun; [| reflexivity].
    exfalso. destruct (cleanEmailBody_trimmed rawBody) as (x & Ex).
    fold cleaned in Ex. destruct (trim_visible x) as [V1 V2].
    rewrite <- Ex in V1, V2. clearbody cleaned.
    destruct (empty_run_inv _ _ Hrun)
      as [[_ [-> | (r & ->)]] | [(before & after & ->) | (before & ->)]].
    + discriminate.
    + discriminate.
    + now apply (Hgap before after).
    + rewrite rev_app_distr in V2. discriminate.
  - intros [-> | ->]; reflexivity.
Qed.

Lemma cleanEmailBody_output_witness :
  cleanEmailBody (Some []) = []
  /\ exec urlPattern
       (None, cleanEmailBody (Some (u "see http://a.b/c now"))) = None
  /\ starts_with_gt (u "b") = false.
Proof.
  split; [| split].
  - apply (proj2 (proj2 (proj2 (proj2 (proj2
             (cleanEmailBody_output (Some []))))))).
    now right.
  - apply (proj1 (cleanEmailBody_output (Some (u "see http://a.b/c now")))
             [] _ None).
    reflexivity.
  - apply (proj1 (proj2 (proj2
             (cleanEmailBody_output
                (Some (u "a" ++ [10; 10; 10; 10]%N ++ u "b")))))).
    vm_compute. tauto.
Defined.

End CleanerClaims.

(** * Further properties *)

(** ** The context store: lookups, invariants, reset *)

Section StoreExtras.

Lemma Map_get_evictFirst (k : jsstring) (m : Cache) :
  hd_error (keys m) <> Some k -> Map_get k (evictFirst m) = Map_get k m.
Proof.
  destruct m as [| [k0 v0] rest]; [reflexivity |].
  rewrite evictFirst_cons. cbn [keys map hd_error fst Map_get]. intros H.
  destruct (JsString.eqb k k0) eqn:E; [| reflexivity].
  apply eqb_eq in E. congruence.
Qed.

(** What was just cached is found, whatever the store; every other
    identifier keeps its entry, but for the oldest one when the cache
    was full. *)
Theorem cacheEmail_lookup :
  forall s id d now,
    let s' := cacheEmail id d now s in
    getCachedEmail id s' = Some (mkCached d now)
    /\ (forall k, k <> id ->
          length (emailCache s) < maxCache s
          \/ hd_error (keys (emailCache s)) <> Some k ->
          getCachedEmail k s' = getCachedEmail k s).
Proof.
  intros s id d now s'. unfold s', getCachedEmail, cacheEmail. cbn [emailCache].
  split; [apply Map_get_set_same |].
  intros k Hk H. rewrite Map_get_set_other by assumption.
  destruct (maxCache s <=? length (emailCache s)) eqn:E; [| reflexivity].
  apply Nat.leb_le in E. destruct H as [H | H]; [lia |].
  now apply Map_get_evictFirst.
Qed.

Lemma cacheEmail_lookup_witness :
  getCachedEmail (u "3")
    (cacheEmail (u "new") emptyDigest 7%N (cacheAll (sampleCalls 50) constructor))
  = getCachedEmail (u "3") (cacheAll (sampleCalls 50) constructor).
Proof.
  apply (proj2 (cacheEmail_lookup (cacheAll (sampleCalls 50) constructor)
                  (u "new") emptyDigest 7%N) (u "3")).
  - discriminate.
  - right. vm_compute. discriminate.
Defined.

Lemma slice_last_whole_exchanges (xs : list exchange) (x : exchange) :
  length xs <= 10 ->
  exists ys,
    slice_last (10 * 2) (flat_map exchangeTurns xs ++ exchangeTurns x)
    = flat_map exchangeTurns ys
    /\ length ys <= 10.
Proof.
  intros Hlen. destruct (Nat.eq_dec (length xs) 10) as [E | Hne].
  - destruct xs as [| x0 rest]; [discriminate |].
    exists (rest ++ [x]). simpl in E. split; [| rewrite length_app; simpl; lia].
    unfold slice_last. rewrite length_app, exchangeTurns_length.
    replace (length (exchangeTurns x)) with 2
      by (destruct x as [[[a b] c] d]; reflexivity).
    cbn [length]. replace (2 * S (length rest) + 2 - 10 * 2) with 2 by lia.
    rewrite flat_map_app. cbn [flat_map]. rewrite app_nil_r.
    destruct x0 as [[[a b] c] d]. reflexivity.
  - exists (xs ++ [x]). split; [| rewrite length_app; simpl; lia].
    rewrite flat_map_app. cbn [flat_map]. rewrite app_nil_r.
    apply slice_last_all. rewrite length_app, exchangeTurns_length.
    replace (length (exchangeTurns x)) with 2
      by (destruct x as [[[a b] c] d]; reflexivity).
    lia.
Qed.

(** Every store the program can build has the limits of the
    constructor, at most fifty cached digests under identifiers that
    are all different, and a history made of at most ten whole
    exchanges, each a user turn followed by an agent turn. *)
Theorem reachable_invariants :
  forall s, reachable s ->
    maxHistory s = 10 /\ maxCache s = 50
    /\ length (emailCache s) <= 50
    /\ NoDup (keys (emailCache s))
    /\ exists xs,
         conversationHistory s = flat_map exchangeTurns xs /\ length xs <= 10.
Proof.
  intros s Hs. pose proof (reachable_cache_ok Hs) as (Hc1 & Hc2 & Hc3).
  split; [| split; [exact Hc1 | split; [exact Hc2 | split; [exact Hc3 |]]]].
  - clear Hc1 Hc2 Hc3. induction Hs; trivial.
  - clear Hc1 Hc2 Hc3.
    assert (Hm : maxHistory s = 10) by (induction Hs; trivial).
    induction Hs as [| id d now s Hs IH | ids s Hs IH | ids s Hs IH
                    | userMsg agentMsg now1 now2 s Hs IH | s Hs IH].
    + exists []. split; [reflexivity | simpl; lia].
    + now apply IH.
    + now apply IH.
    + now apply IH.
    + cbn [addExchange maxHistory] in Hm.
      destruct (IH Hm) as (xs & E & Hlen).
      rewrite addExchange_history, E, Hm.
      apply (slice_last_whole_exchanges xs (userMsg, agentMsg, now1, now2) Hlen).
    + exists []. split; [reflexivity | simpl; lia].
Qed.

Lemma reachable_invariants_witness :
  length (emailCache (cacheAll (sampleCalls 51) constructor)) <= 50.
Proof.
  apply (reachable_invariants (reachable_cacheAll (sampleCalls 51) reach_new)).
Defined.

Lemma reachable_limits (s : ContextManager.t) :
  reachable s -> maxHistory s = 10 /\ maxCache s = 50.
Proof.
  intros Hs. split; [| apply (reachable_cache_ok Hs)].
  induction Hs; trivial.
Qed.

(** [clear] brings every such store back to the state of the
    constructor. *)
Theorem clear_resets :
  forall s, reachable s ->
    clear s = constructor
    /\ (forall id, getCachedEmail id (clear s) = None)
    /\ getActiveDigests (clear s) = [].
Proof.
  intros s Hs. destruct (reachable_limits Hs) as (H1 & H2).
  unfold clear. rewrite H1, H2. repeat split.
Qed.

Lemma clear_resets_witness :
  clear (addExchange (u "hi") (u "hello") 1%N 2%N
           (cacheAll (sampleCalls 3) constructor))
  = constructor.
Proof.
  apply (clear_resets
           (reach_addExchange (u "hi") (u "hello") 1%N 2%N
              (reachable_cacheAll (sampleCalls 3) reach_new))).
Defined.

(** The active digests are the entries cached under the active
    identifiers: an identifier that is not cached, or not any more,
    gives none, and none is an error. *)
Theorem getActiveDigests_cached :
  forall s,
    (forall c, In c (getActiveDigests s)
               <-> exists id, In id (activeEmailIds s)
                              /\ getCachedEmail id s = Some c)
    /\ length (getActiveDigests s) <= length (activeEmailIds s)
    /\ ((forall id, In id (activeEmailIds s) -> getCachedEmail id s = None)
        -> getActiveDigests s = []).
Proof.
  intros s. unfold getActiveDigests, getCachedEmail.
  generalize (activeEmailIds s) as ids. intros ids. split; [| split].
  - intros c. rewrite in_flat_map. split.
    + intros (id & Hid & Hc). exists id. split; [exact Hid |].
      destruct (Map_get id (emailCache s)); [| contradiction].
      destruct Hc as [-> | []]. reflexivity.
    + intros (id & Hid & Hc). exists id. split; [exact Hid |].
      rewrite Hc. now left.
  - induction ids as [| id ids IH]; [reflexivity |]. cbn [flat_map].
    rewrite length_app. destruct (Map_get id (emailCache s)); simpl; lia.
  - induction ids as [| id ids IH]; [reflexivity |]. intros H. cbn [flat_map].
    rewrite (H id) by now left. apply IH. intros k Hk. apply H. now right.
Qed.

Lemma getActiveDigests_cached_witness :
  getActiveDigests (setActiveEmails (Many [u "x"; u "y"]) constructor) = [].
Proof.
  apply (proj2 (proj2 (getActiveDigests_cached
           (setActiveEmails (Many [u "x"; u "y"]) constructor)))).
  intros id _. reflexivity.
Defined.

Lemma addActiveEmails_set_semantics_witness :
  activeEmailIds
    (addActiveEmails (Many [u "b"; u "a"; u "c"; u "b"])
       (setActiveEmails (Many [u "a"; u "b"]) constructor))
  = [u "a"; u "b"; u "c"].
Proof.
  destruct (addActiveEmails_set_semantics (Many [u "b"; u "a"; u "c"; u "b"])
              (setActiveEmails (Many [u "a"; u "b"]) constructor))
    as (_ & _ & H).
  rewrite H; [reflexivity |].
  apply distinct_NoDup. reflexivity.
Defined.

Lemma uniq_go_seen (seen l : list jsstring) :
  (forall x, In x l -> In x seen) -> uniq_go seen l = [].
Proof.
  intros H. destruct (uniq_go seen l) as [| x rest] eqn:E; [reflexivity |].
  assert (Hx : In x (uniq_go seen l)) by (rewrite E; now left).
  apply uniq_go_In in Hx. destruct Hx as [Hx Hs]. exfalso. apply Hs, H, Hx.
Qed.

Lemma addActiveEmails_known (ids : Ids) (s : ContextManager.t) :
  NoDup (activeEmailIds s) ->
  (forall x, In x (asArray ids) -> In x (activeEmailIds s)) ->
  addActiveEmails ids s = s.
Proof.
  intros Hnd Hin. unfold addActiveEmails, uniq.
  rewrite uniq_go_app, app_nil_r.
  rewrite uniq_go_fixed by (trivial; intros x _ []).
  rewrite uniq_go_seen by assumption. rewrite app_nil_r. now destruct s.
Qed.

(** Adding identifiers that are all active already changes nothing, so
    that adding the same identifiers twice is adding them once. *)
Theorem addActiveEmails_again :
  forall ids s,
    (NoDup (activeEmailIds s) ->
     (forall x, In x (asArray ids) -> In x (activeEmailIds s)) ->
     addActiveEmails ids s = s)
    /\ addActiveEmails ids (addActiveEmails ids s) = addActiveEmails ids s.
Proof.
  intros ids s. split; [apply addActiveEmails_known |].
  apply addActiveEmails_known.
  - cbn [addActiveEmails activeEmailIds]. apply uniq_go_NoDup.
  - intros x Hx. cbn [addActiveEmails activeEmailIds]. unfold uniq.
    rewrite uniq_go_In, in_app_iff. cbn [In]. tauto.
Qed.

Lemma addActiveEmails_again_witness :
  addActiveEmails (One (u "a")) (setActiveEmails (Many [u "a"; u "b"]) constructor)
  = setActiveEmails (Many [u "a"; u "b"]) constructor.
Proof.
  apply (proj1 (addActiveEmails_again (One (u "a"))
           (setActiveEmails (Many [u "a"; u "b"]) constructor))).
  - apply distinct_NoDup. reflexivity.
  - intros x [<- | []]. simpl. now left.
Defined.

Lemma join_nonempty (sep x : jsstring) (rest : list jsstring) :
  x <> [] -> join sep (x :: rest) <> [].
Proof.
  intros Hx. cbn [join]. destruct rest; [exact Hx |].
  destruct x; [congruence | discriminate].
Qed.

Lemma getContextForLLM_nil_inv (s : ContextManager.t) :
  getContextForLLM s = [] ->
  getActiveDigests s = [] /\ conversationHistory s = [].
Proof.
  unfold getContextForLLM, activeParts, recentParts. intros H.
  destruct (getActiveDigests s) as [| c cs] eqn:Ed.
  - split; [reflexivity |].
    destruct (conversationHistory s) as [| t ts] eqn:Eh; [reflexivity |].
    exfalso.
    assert (Hlen : length (slice_last 6 (t :: ts)) <> 0).
    { rewrite slice_last_length. cbn [length]. lia. }
    destruct (slice_last 6 (t :: ts)) as [| r rs]; [now apply Hlen |].
    cbn [app] in H. revert H. apply join_nonempty. discriminate.
  - exfalso. cbn [app] in H. revert H. apply join_nonempty. discriminate.
Qed.

(** The context block is empty exactly when there is no active digest
    and no turn: any digest or turn gives a block that is not empty. *)
Theorem getContextForLLM_empty_iff :
  forall s,
    getContextForLLM s = []
    <-> getActiveDigests s = [] /\ conversationHistory s = [].
Proof.
  intros s. split; [apply getContextForLLM_nil_inv |].
  intros [Hd Hh]. unfold getContextForLLM, activeParts, recentParts.
  now rewrite Hd, Hh.
Qed.

Lemma getContextForLLM_empty_iff_witness :
  getContextForLLM (setActiveEmails (One (u "m1")) constructor) = [].
Proof.
  apply (proj2 (@getContextForLLM_empty_iff
                  (setActiveEmails (One (u "m1")) constructor))).
  split; reflexivity.
Defined.

End StoreExtras.

(** ** The agent: reading a message, answering a query *)

Section AgentExtras.

Import Agent.

Lemma addActiveEmails_one (id : jsstring) (s : ContextManager.t) :
  let s' := addActiveEmails (One id) s in
  emailCache s' = emailCache s
  /\ In id (activeEmailIds s')
  /\ NoDup (activeEmailIds s').
Proof.
  cbn [addActiveEmails activeEmailIds emailCache asArray]. unfold uniq.
  split; [reflexivity | split; [| apply uniq_go_NoDup]].
  rewrite uniq_go_In, in_app_iff. cbn [In]. tauto.
Qed.

Lemma getActiveDigests_In (id : jsstring) (c : CachedDigest) (s : ContextManager.t) :
  In id (activeEmailIds s) -> getCachedEmail id s = Some c ->
  In c (getActiveDigests s).
Proof.
  intros Hid Hc. unfold getActiveDigests. rewrite in_flat_map.
  exists id. split; [exact Hid |]. unfold getCachedEmail in Hc. rewrite Hc. now left.
Qed.

Variable fetch : jsstring -> EmailContent.t + jsstring.

(** [read_email] answers from the cache when the message is cached and
    fetches it otherwise; when the fetch fails the store is left as it
    was; in the two other cases the message is cached and active
    afterwards, so that its digest is among the active digests. *)
Theorem readEmailTool_outcomes :
  forall messageId now store,
    let store' := fst (readEmailTool fetch messageId now store) in
    match snd (readEmailTool fetch messageId now store) with
    | CachedEmail cached =>
        getCachedEmail messageId store = Some cached
        /\ emailCache store' = emailCache store
        /\ In cached (getActiveDigests store')
    | BuiltEmail digest =>
        getCachedEmail messageId store = None
        /\ (exists emailContent,
              fetch messageId = inl emailContent
              /\ digest = buildDigest emailContent)
        /\ getCachedEmail messageId store' = Some (mkCached digest now)
        /\ In (mkCached digest now) (getActiveDigests store')
    | ReadError message =>
        getCachedEmail messageId store = None
        /\ fetch messageId = inr message
        /\ store' = store
    end.
Proof.
  intros messageId now store. unfold readEmailTool.
  destruct (getCachedEmail messageId store) as [cached |] eqn:Ec.
  - cbn [fst snd].
    destruct (addActiveEmails_one messageId store) as (H1 & H2 & _).
    split; [reflexivity | split; [exact H1 |]].
    apply getActiveDigests_In with (id := messageId); [exact H2 |].
    unfold getCachedEmail in *. now rewrite H1.
  - destruct (fetch messageId) as [emailContent | message] eqn:Ef; cbn [fst snd].
    + set (digest := buildDigest emailContent).
      set (cachedStore := cacheEmail messageId digest now store).
      destruct (addActiveEmails_one messageId cachedStore) as (H1 & H2 & _).
      assert (Hget : getCachedEmail messageId
                       (addActiveEmails (One messageId) cachedStore)
                     = Some (mkCached digest now)).
      { unfold getCachedEmail. rewrite H1. apply Map_get_set_same. }
      split; [reflexivity | split; [now exists emailContent | split; [exact Hget |]]].
      now apply getActiveDigests_In with (id := messageId).
    + repeat split.
Qed.

Lemma readEmailTool_cached_after (messageId : jsstring) (now : time)
  (store : ContextManager.t) :
  (forall message,
      snd (readEmailTool fetch messageId now store) <> ReadError message) ->
  let store' := fst (readEmailTool fetch messageId now store) in
  exists cached,
    getCachedEmail messageId store' = Some cached
    /\ addActiveEmails (One messageId) store' = store'
    /\ match snd (readEmailTool fetch messageId now store) with
       | CachedEmail first => cached = first
       | BuiltEmail digest => cached = mkCached digest now
       | ReadError _ => False
       end.
Proof.
  intros Hok. unfold readEmailTool in *.
  destruct (getCachedEmail messageId store) as [first |] eqn:Ec.
  - cbn [fst snd] in *.
    destruct (addActiveEmails_one messageId store) as (H1 & H2 & H3).
    exists first. split; [| split; [| reflexivity]].
    + unfold getCachedEmail in *. now rewrite H1.
    + apply addActiveEmails_known; [exact H3 |].
      intros x [<- | []]. exact H2.
  - destruct (fetch messageId) as [emailContent | message]; cbn [fst snd] in *.
    + set (digest := buildDigest emailContent).
      set (cachedStore := cacheEmail messageId digest now store).
      destruct (addActiveEmails_one messageId cachedStore) as (H1 & H2 & H3).
      exists (mkCached digest now). split; [| split; [| reflexivity]].
      * unfold getCachedEmail. rewrite H1. apply Map_get_set_same.
      * apply addActiveEmails_known; [exact H3 |].
        intros x [<- | []]. exact H2.
    + now specialize (Hok message).
Qed.

(** A message that was just read is served from the cache when it is
    read again: nothing is fetched, the digest is the one of the first
    reading and the store does not change. *)
Theorem readEmailTool_again :
  forall (fetch' : jsstring -> EmailContent.t + jsstring) messageId now now' store,
    (forall message,
        snd (readEmailTool fetch messageId now store) <> ReadError message) ->
    let store' := fst (readEmailTool fetch messageId now store) in
    exists cached,
      readEmailTool fetch' messageId now' store' = (store', CachedEmail cached)
      /\ match snd (readEmailTool fetch messageId now store) with
         | CachedEmail first => cached = first
         | BuiltEmail digest => cached = mkCached digest now
         | ReadError _ => False
         end.
Proof.
  intros fetch' messageId now now' store Hok store'.
  pose proof (readEmailTool_cached_after messageId now store Hok) as H.
  destruct H as (cached & Hget & Hkeep & Hres).
  exists cached. split; [| exact Hres].
  fold store' in Hget, Hkeep.
  assert (Hhit : forall st c, getCachedEmail messageId st = Some c ->
            readEmailTool fetch' messageId now' st
            = (addActiveEmails (One messageId) st, CachedEmail c)).
  { intros st c E. unfold readEmailTool. now rewrite E. }
  rewrite (Hhit store' cached Hget). now rewrite Hkeep.
Qed.

End AgentExtras.

Lemma readEmailTool_again_witness :
  exists cached,
    Agent.readEmailTool (fun _ => inr (u "offline")) (u "m1") 9%N
      (fst (Agent.readEmailTool
              (fun _ => inl (EmailContent.mk (Headers.mk None None None None)
                               (Some (u "Hello")) None))
              (u "m1") 5%N constructor))
    = (fst (Agent.readEmailTool
              (fun _ => inl (EmailContent.mk (Headers.mk None None None None)
                               (Some (u "Hello")) None))
              (u "m1") 5%N constructor),
       Agent.CachedEmail cached).
Proof.
  destruct (readEmailTool_again
              (fun _ => inl (EmailContent.mk (Headers.mk None None None None)
                               (Some (u "Hello")) None))
              (fun _ => inr (u "offline")) (u "m1") 5%N 9%N constructor)
    as (cached & H & _).
  - intros message. vm_compute. discriminate.
  - exists cached. exact H.
Defined.

Section QueryExtras.

Import Agent.

Variable invoke :
  AgentInput -> ContextManager.t -> ContextManager.t * Outcome.

Lemma slice_last_keeps_pair {A : Type} (n : nat) (h : list A) (a b : A) :
  1 <= n -> exists older, slice_last (n * 2) (h ++ [a; b]) = older ++ [a; b].
Proof.
  intros Hn. unfold slice_last. rewrite length_app. cbn [length].
  exists (skipn (length h + 2 - n * 2) h).
  rewrite skipn_app.
  replace (length h + 2 - n * 2 - length h) with 0 by lia. reflexivity.
Qed.

(** The prompt of a query: the query itself when the store has no
    active digest and no turn, or when an interrupt is resumed; else
    the context block between its two markers and then the query. *)
Theorem enrich_prompt :
  forall query store,
    (getActiveDigests store = [] -> conversationHistory store = [] ->
     enrich query None store = query)
    /\ (query <> [] ->
        getActiveDigests store <> [] \/ conversationHistory store <> [] ->
        enrich query None store
        = u "[CONTEXT]" ++ [10%N] ++ getContextForLLM store ++ [10%N]
          ++ u "[/CONTEXT]" ++ [10%N; 10%N] ++ u "User: " ++ query)
    /\ (forall resume, exists before, enrich query resume store = before ++ query)
    /\ (forall r, enrich query (Some r) store = query).
Proof.
  intros query store. split; [| split; [| split]].
  - intros Hd Hh. unfold enrich. destruct query; [reflexivity |].
    assert (E : getContextForLLM store = []).
    { unfold getContextForLLM, activeParts, recentParts. now rewrite Hd, Hh. }
    now rewrite E.
  - intros Hq Hs. unfold enrich. destruct query as [| d rest]; [congruence |].
    destruct (getContextForLLM store) as [| c cs] eqn:E; [| reflexivity].
    apply getContextForLLM_nil_inv in E. destruct E as [E1 E2].
    destruct Hs; congruence.
  - intros resume. unfold enrich.
    destruct resume; [now exists [] |].
    destruct query as [| d rest]; [now exists [] |].
    destruct (getContextForLLM store) as [| c cs]; [now exists [] |].
    unfold withContext. eexists. rewrite !app_assoc. reflexivity.
  - intros r. unfold enrich. reflexivity.
Qed.

Lemma enrich_prompt_witness :
  enrich (u "what next?") None (clear constructor) = u "what next?".
Proof.
  apply (proj1 (enrich_prompt (u "what next?") (clear constructor)));
    reflexivity.
Defined.

(** Whatever the agent does, [handleQuery] hands back its outcome and
    leaves its cache and active identifiers alone; when the query is not
    empty and the last message of the response has a text, it records
    the query and the first 300 code units of that text as one exchange,
    and otherwise it records nothing. *)
Theorem handleQuery_records :
  forall query resume now1 now2 store,
    let input :=
      match resume with
      | Some (interruptId, decision) => ResumeCommand interruptId decision
      | None => UserMessage (enrich query resume store)
      end in
    let afterAgent := fst (invoke input store) in
    let outcome := snd (invoke input store) in
    let final := fst (handleQuery invoke query resume now1 now2 store) in
    snd (handleQuery invoke query resume now1 now2 store) = outcome
    /\ emailCache final = emailCache afterAgent
    /\ activeEmailIds final = activeEmailIds afterAgent
    /\ (forall response text,
          outcome = Returned response -> lastContent response = Some text ->
          query <> [] ->
          conversationHistory final
          = slice_last (maxHistory afterAgent * 2)
              (conversationHistory afterAgent
               ++ [mkTurn user query now1;
                   mkTurn agent (firstn 300 text) now2])
          /\ (1 <= maxHistory afterAgent ->
              exists older,
                conversationHistory final
                = older ++ [mkTurn user query now1;
                            mkTurn agent (firstn 300 text) now2]))
    /\ (query = []
        \/ (forall response, outcome = Returned response ->
                             lastContent response = None) ->
        final = afterAgent).
Proof.
  intros query resume now1 now2 store input afterAgent outcome final.
  unfold final, handleQuery. fold input.
  destruct (invoke input store) as [s1 o] eqn:Ei.
  unfold afterAgent, outcome. cbn [fst snd].
  destruct o as [response | error].
  - destruct query as [| d rest].
    + cbn [fst snd].
      split; [reflexivity | split; [reflexivity | split; [reflexivity | split]]].
      * intros response0 text _ _ H. congruence.
      * reflexivity.
    + destruct (lastContent response) as [text |] eqn:El; cbn [fst snd].
      * split; [reflexivity | split; [reflexivity | split; [reflexivity | split]]].
        -- intros response0 text0 E0 El0 _. injection E0 as <-.
           rewrite El in El0. injection El0 as <-.
           rewrite addExchange_history. split; [reflexivity |].
           intros Hm. now apply slice_last_keeps_pair.
        -- intros [H | H]; [discriminate |].
           specialize (H response eq_refl). congruence.
      * split; [reflexivity | split; [reflexivity | split; [reflexivity | split]]].
        -- intros response0 text0 E0 El0 _. injection E0 as <-. congruence.
        -- reflexivity.
  - cbn [fst snd].
    split; [reflexivity | split; [reflexivity | split; [reflexivity | split]]].
    + intros response text H. discriminate.
    + reflexivity.
Qed.

End QueryExtras.

Lemma handleQuery_records_witness :
  fst (Agent.handleQuery (fun _ s => (s, Agent.Thrown (u "rate_limit")))
         (u "hi") None 1%N 2%N constructor)
  = constructor.
Proof.
  apply (proj2 (proj2 (proj2 (proj2
           (handleQuery_records (fun _ s => (s, Agent.Thrown (u "rate_limit")))
              (u "hi") None 1%N 2%N constructor))))).
  right. intros response H. discriminate.
Defined.


(** ** The headers of a message *)

Section HeaderExtras.

Import GmailService Extra.

Lemma parseEmailHeaders_snoc (headers : list RawHeader) (h : RawHeader) :
  let extracted := parseEmailHeaders headers in
  let name := toLowerCase (name h) in
  let pick := fun key old =>
    if JsString.eqb name (u key) then Some (value h) else old in
  parseEmailHeaders (headers ++ [h])
  = Headers.mk (pick "from"%string (Headers.from extracted))
      (pick "to"%string (Headers.to extracted))
      (pick "subject"%string (Headers.subject extracted))
      (pick "date"%string (Headers.date extracted)).
Proof.
  cbn zeta. unfold parseEmailHeaders. rewrite fold_left_app. cbn [fold_left].
  set (extracted := fold_left _ headers _).
  destruct (JsString.eqb (toLowerCase (name h)) (u "from"));
    destruct (JsString.eqb (toLowerCase (name h)) (u "subject"));
    destruct (JsString.eqb (toLowerCase (name h)) (u "date"));
    destruct (JsString.eqb (toLowerCase (name h)) (u "to"));
    destruct extracted; reflexivity.
Qed.

Lemma lastValue_snoc (key : jsstring) (headers : list RawHeader) (h : RawHeader) :
  lastValue key (headers ++ [h])
  = if JsString.eqb (toLowerCase (name h)) key then value h
    else lastValue key headers.
Proof.
  unfold lastValue. rewrite rev_app_distr. cbn [rev app find].
  now destruct (JsString.eqb (toLowerCase (name h)) key).
Qed.

Lemma parseEmailHeaders_fields (headers : list RawHeader) :
  parseEmailHeaders headers
  = Headers.mk (Some (lastValue (u "from") headers))
      (Some (lastValue (u "to") headers))
      (Some (lastValue (u "subject") headers))
      (Some (lastValue (u "date") headers)).
Proof.
  induction headers as [| h headers IH] using rev_ind; [reflexivity |].
  rewrite parseEmailHeaders_snoc, IH, !lastValue_snoc. cbn [Headers.from
    Headers.to Headers.subject Headers.date].
  destruct (JsString.eqb (toLowerCase (name h)) (u "from"));
    destruct (JsString.eqb (toLowerCase (name h)) (u "subject"));
    destruct (JsString.eqb (toLowerCase (name h)) (u "date"));
    destruct (JsString.eqb (toLowerCase (name h)) (u "to")); reflexivity.
Qed.

(** Each of the four fields is the value of the last header of that
    name, whatever the case of the letters of the name, and the empty
    string when no header has the name. *)
Theorem parseEmailHeaders_last_wins :
  forall headers,
    parseEmailHeaders headers
    = Headers.mk (Some (lastValue (u "from") headers))
        (Some (lastValue (u "to") headers))
        (Some (lastValue (u "subject") headers))
        (Some (lastValue (u "date") headers))
    /\ (forall key,
          (forall h, In h headers -> toLowerCase (name h) <> key) ->
          lastValue key headers = [])
    /\ (forall key before h after,
          headers = before ++ h :: after ->
          toLowerCase (name h) = key ->
          (forall h', In h' after -> toLowerCase (name h') <> key) ->
          lastValue key headers = value h).
Proof.
  intros headers. split; [apply parseEmailHeaders_fields | split].
  - intros key. induction headers as [| x headers IH] using rev_ind;
      intros Hno; [reflexivity |].
    rewrite lastValue_snoc.
    assert (Hx : JsString.eqb (toLowerCase (name x)) key = false).
    { apply eqb_neq, Hno, in_or_app. right. now left. }
    rewrite Hx. apply IH. intros h Hh. apply Hno, in_or_app. now left.
  - intros key before h after -> Hh.
    induction after as [| x after IH] using rev_ind; intros Hno.
    + rewrite lastValue_snoc.
      now rewrite (proj2 (eqb_eq _ _) Hh).
    + change (before ++ h :: after ++ [x])
        with (before ++ (h :: after) ++ [x]).
      rewrite app_assoc, lastValue_snoc.
      assert (Hx : JsString.eqb (toLowerCase (name x)) key = false).
      { apply eqb_neq, Hno, in_or_app. right. now left. }
      rewrite Hx. apply IH. intros h' Hh'. apply Hno, in_or_app. now left.
Qed.

Lemma parseEmailHeaders_last_wins_witness :
  lastValue (u "from")
    [mkRaw (u "From") (u "a@x.org"); mkRaw (u "FROM") (u "b@x.org");
     mkRaw (u "To") (u "c@x.org")]
  = u "b@x.org".
Proof.
  apply (proj2 (proj2 (@parseEmailHeaders_last_wins
                         [mkRaw (u "From") (u "a@x.org");
                          mkRaw (u "FROM") (u "b@x.org");
                          mkRaw (u "To") (u "c@x.org")])))
    with (before := [mkRaw (u "From") (u "a@x.org")])
         (h := mkRaw (u "FROM") (u "b@x.org"))
         (after := [mkRaw (u "To") (u "c@x.org")]).
  - reflexivity.
  - reflexivity.
  - intros h' [<- | []]. vm_compute. discriminate.
Defined.

(** A digest built on parsed headers shows [Unknown] and [No Subject]
    for a sender and a subject that are missing or empty, and the
    parsed values everywhere else. *)
Theorem buildDigest_parsed_headers :
  forall headers body snippet,
    let d := buildDigest
               (EmailContent.mk (parseEmailHeaders headers) body snippet) in
    Digest.from d
    = match lastValue (u "from") headers with
      | [] => u "Unknown"
      | sender => sender
      end
    /\ Digest.subject d
       = match lastValue (u "subject") headers with
         | [] => u "No Subject"
         | subject => subject
         end
    /\ Digest.to d = lastValue (u "to") headers
    /\ Digest.date d = lastValue (u "date") headers.
Proof.
  intros headers body snippet d. unfold d, buildDigest.
  cbn [Digest.from Digest.subject Digest.to Digest.date EmailContent.headers].
  rewrite parseEmailHeaders_fields.
  cbn [Headers.from Headers.to Headers.subject Headers.date or_else].
  repeat split;
    match goal with |- context [lastValue ?k headers] =>
      now destruct (lastValue k headers) end.
Qed.

End HeaderExtras.

(** ** Escaping *)

Section EscapeExtras.

Import App Extra Matching.

Lemma replaceAll_unit (c : codeunit) (rep s : jsstring) :
  replaceAll [c] rep s = flat_map (fun d => if (c =? d)%N then rep else [d]) s.
Proof.
  unfold replaceAll. induction s as [| d s IH]; [reflexivity |].
  cbn [replaceAll_go startsWith length flat_map]. rewrite andb_true_r.
  destruct (c =? d)%N; cbn [app]; now rewrite IH.
Qed.

Lemma flat_map_flat_map {A B C : Type} (f : A -> list B) (g : B -> list C)
  (l : list A) :
  flat_map g (flat_map f l) = flat_map (fun x => flat_map g (f x)) l.
Proof.
  induction l as [| x l IH]; [reflexivity |].
  cbn [flat_map]. now rewrite flat_map_app, IH.
Qed.

Lemma escapeHtml_units (s : jsstring) : escapeHtml s = flat_map escapeUnit s.
Proof.
  unfold escapeHtml.
  change (u ">") with [62%N]. change (u "<") with [60%N]. change (u "&") with [38%N].
  rewrite !replaceAll_unit, !flat_map_flat_map.
  apply flat_map_ext. intros d. unfold escapeUnit.
  rewrite (N.eqb_sym 38 d), (N.eqb_sym d 60), (N.eqb_sym d 62).
  destruct (d =? 38)%N eqn:E1; [reflexivity |].
  cbn [flat_map app].
  destruct (60 =? d)%N eqn:E2; [reflexivity |].
  cbn [flat_map app]. now destruct (62 =? d)%N.
Qed.

Lemma escapeUnit_cases (d : codeunit) :
  (d = 38%N /\ escapeUnit d = u "&amp;")
  \/ (d = 60%N /\ escapeUnit d = u "&lt;")
  \/ (d = 62%N /\ escapeUnit d = u "&gt;")
  \/ (d <> 38%N /\ d <> 60%N /\ d <> 62%N /\ escapeUnit d = [d]).
Proof.
  unfold escapeUnit.
  destruct (d =? 38)%N eqn:E1; [apply N.eqb_eq in E1; tauto |].
  destruct (d =? 60)%N eqn:E2; [apply N.eqb_eq in E2; tauto |].
  destruct (d =? 62)%N eqn:E3; [apply N.eqb_eq in E3; tauto |].
  apply N.eqb_neq in E1, E2, E3. tauto.
Qed.

(** An escaped text holds no [<] and no [>], and each [&] in it starts
    one of the three entities. *)
Theorem escapeHtml_safe :
  forall s,
    ~ In 60%N (escapeHtml s)
    /\ ~ In 62%N (escapeHtml s)
    /\ (forall before after,
          escapeHtml s = before ++ 38%N :: after ->
          startsWith (u "amp;") after = true
          \/ startsWith (u "lt;") after = true
          \/ startsWith (u "gt;") after = true).
Proof.
  intros s. rewrite escapeHtml_units. split; [| split].
  - rewrite in_flat_map. intros (d & _ & H).
    destruct (escapeUnit_cases d) as [[_ E] | [[_ E] | [[_ E] | (_ & H1 & _ & E)]]];
      rewrite E in H; cbn in H; intuition congruence.
  - rewrite in_flat_map. intros (d & _ & H).
    destruct (escapeUnit_cases d) as [[_ E] | [[_ E] | [[_ E] | (_ & _ & H1 & E)]]];
      rewrite E in H; cbn in H; intuition congruence.
  - assert (H : every_suffix
                  (fun t => match t with
                            | 38%N :: after =>
                                startsWith (u "amp;") after = true
                                \/ startsWith (u "lt;") after = true
                                \/ startsWith (u "gt;") after = true
                            | _ => True
                            end) (flat_map escapeUnit s)).
    { induction s as [| d s IH]; [cbn; tauto |]. cbn [flat_map].
      destruct (escapeUnit_cases d)
        as [[_ E] | [[_ E] | [[_ E] | (H1 & _ & _ & E)]]]; rewrite E.
      - repeat (apply every_suffix_cons; [cbn; tauto |]). exact IH.
      - repeat (apply every_suffix_cons; [cbn; tauto |]). exact IH.
      - repeat (apply every_suffix_cons; [cbn; tauto |]). exact IH.
      - apply every_suffix_cons; [| exact IH]. cbn [app].
        destruct d as [| p]; [trivial |].
        destruct (N.eq_dec (N.pos p) 38) as [E38 | _]; [congruence |].
        repeat (destruct p as [p | p |]; trivial); congruence. }
    intros before after E.
    exact (proj1 (every_suffix_split _ _) H before _ E).
Qed.

Lemma escapeHtml_safe_witness :
  startsWith (u "amp;") (u "amp;b") = true
  \/ startsWith (u "lt;") (u "amp;b") = true
  \/ startsWith (u "gt;") (u "amp;b") = true.
Proof.
  apply (proj2 (proj2 (@escapeHtml_safe (u "a&b")))) with (before := u "a").
  reflexivity.
Defined.

Lemma unescape_skip (m t : jsstring) :
  unescape_go (m ++ t) (length m) = unescape_go t 0.
Proof.
  induction m as [| d m IH]; [reflexivity |]. cbn [app length unescape_go]. exact IH.
Qed.

(** Nothing is lost in escaping: the text is read back from its escaped
    form, two texts with the same escaped form are the same, and a text
    without [&], [<] and [>] is its own escaped form. *)
Theorem escapeHtml_faithful :
  forall s,
    unescapeHtml (escapeHtml s) = s
    /\ (forall t, escapeHtml s = escapeHtml t -> s = t)
    /\ (~ In 38%N s -> ~ In 60%N s -> ~ In 62%N s -> escapeHtml s = s).
Proof.
  assert (Hback : forall s, unescapeHtml (escapeHtml s) = s).
  { intros s. rewrite escapeHtml_units. unfold unescapeHtml.
    induction s as [| d s IH]; [reflexivity |]. cbn [flat_map].
    destruct (escapeUnit_cases d)
      as [[-> E] | [[-> E] | [[-> E] | (H1 & H2 & H3 & E)]]]; rewrite E.
    - change (u "&amp;" ++ flat_map escapeUnit s)
        with (38%N :: u "amp;" ++ flat_map escapeUnit s).
      cbn [unescape_go]. change (startsWith (u "&amp;") _) with true. cbn iota.
      f_equal. rewrite (unescape_skip (u "amp;")). exact IH.
    - change (u "&lt;" ++ flat_map escapeUnit s)
        with (38%N :: u "lt;" ++ flat_map escapeUnit s).
      cbn [unescape_go]. change (startsWith (u "&amp;") _) with false.
      change (startsWith (u "&lt;") _) with true. cbn iota.
      f_equal. rewrite (unescape_skip (u "lt;")). exact IH.
    - change (u "&gt;" ++ flat_map escapeUnit s)
        with (38%N :: u "gt;" ++ flat_map escapeUnit s).
      cbn [unescape_go]. change (startsWith (u "&amp;") _) with false.
      change (startsWith (u "&lt;") _) with false.
      change (startsWith (u "&gt;") _) with true. cbn iota.
      f_equal. rewrite (unescape_skip (u "gt;")). exact IH.
    - cbn [app unescape_go].
      assert (E38 : (38 =? d)%N = false) by (apply N.eqb_neq; congruence).
      change (u "&amp;") with (38%N :: u "amp;").
      change (u "&lt;") with (38%N :: u "lt;").
      change (u "&gt;") with (38%N :: u "gt;").
      cbn [startsWith]. rewrite E38. cbn [andb]. now f_equal. }
  intros s. split; [apply Hback | split].
  - intros t E. rewrite <- (Hback s), <- (Hback t). now f_equal.
  - intros H1 H2 H3. rewrite escapeHtml_units.
    induction s as [| d s IH]; [reflexivity |]. cbn [flat_map].
    cbn [In] in H1, H2, H3.
    destruct (escapeUnit_cases d)
      as [[-> E] | [[-> E] | [[-> E] | (_ & _ & _ & E)]]]; try tauto.
    rewrite E. cbn [app]. f_equal. apply IH; tauto.
Qed.

Lemma escapeHtml_faithful_witness :
  escapeHtml (u "plain text") = u "plain text".
Proof.
  apply (proj2 (proj2 (escapeHtml_faithful (u "plain text"))));
    cbn; intuition discriminate.
Defined.

End EscapeExtras.

(** ** Further properties of the cleaner *)

Section CleanerExtras.

Import RegExp Matching Extra.

(** *** Lengths *)

Lemma ends_min_len (ic ml : bool) (r : regex) :
  forall c c', In c' (ends ic ml r c) ->
               length (snd c') + min_len r <= length (snd c).
Proof.
  induction r as [| a | neg items | | | | | a IHa b IHb | a IHa b IHb | a IHa];
    intros c c' H; cbn [min_len];
    try (apply ends_forward, forward_length in H; lia).
  - cbn [ends] in H. apply accepts_shorter in H. lia.
  - cbn [ends] in H. apply accepts_shorter in H. lia.
  - cbn [ends] in H. apply accepts_shorter in H. lia.
  - apply ends_Seq_In in H. destruct H as (c1 & H1 & H2).
    apply IHa in H1. apply IHb in H2. lia.
  - cbn [ends] in H. apply in_app_or in H. destruct H as [H | H].
    + apply IHa in H. lia.
    + apply IHb in H. lia.
Qed.

Lemma first_end_min_len (re : RegExp.t) (c c' : cursor) :
  first_end re c = Some c' ->
  length (snd c') + min_len (pattern re) <= length (snd c).
Proof.
  intros H. apply first_end_In in H. now apply ends_min_len in H.
Qed.

Lemma render_length (re : RegExp.t) (rep : jsstring) (p : option codeunit)
  (s : jsstring) (ps : list piece) :
  length rep <= min_len (pattern re) ->
  Scan re p s ps -> length (render rep ps) <= length s.
Proof.
  intros Hrep Hscan.
  induction Hscan as [p H | p H | p d s ps H Hs IH | p d s ps H Hs IH
                     | p m s ps Hm H Hs IH].
  - cbn. lia.
  - apply exec_Some in H. destruct H as (m & s' & E & Hlen & H).
    apply first_end_min_len in H. cbn [snd length] in H.
    rewrite render_Hit, length_app. cbn. lia.
  - rewrite render_Kept. cbn [length]. lia.
  - apply exec_Some in H. destruct H as (m & s' & E & Hlen & H).
    apply first_end_min_len in H. cbn [snd] in H.
    rewrite E, length_app in H.
    rewrite render_Hit, render_Kept, length_app. cbn [length]. lia.
  - apply first_end_min_len in H. cbn [snd] in H. rewrite length_app in H.
    rewrite render_Hit, !length_app. lia.
Qed.

Lemma replace_length (re : RegExp.t) (rep s : jsstring) :
  length rep <= min_len (pattern re) -> length (replace re rep s) <= length s.
Proof.
  intros H. unfold replace. exact (@render_length re rep None s _ H (@scan_spec re s None)).
Qed.

Lemma removals_length (l : list RegExp.t) (s : jsstring) :
  length (fold_left (fun cleaned pattern => replace pattern [] cleaned) l s)
  <= length s.
Proof.
  revert s. induction l as [| re l IH]; intros s; [reflexivity |].
  cbn [fold_left]. etransitivity; [apply IH |].
  apply replace_length. cbn. lia.
Qed.

Lemma trim_length (s : jsstring) : length (trim s) <= length s.
Proof.
  destruct (trim_factor s) as (a & b & E).
  rewrite E at 2. rewrite !length_app. lia.
Qed.

(** *** Runs of a class *)

Lemma run_of_length (ok : codeunit -> bool) (s : jsstring) :
  run_of ok s <= length s.
Proof.
  induction s as [| d s IH]; [reflexivity |]. cbn [run_of length].
  destruct (ok d); lia.
Qed.

Lemma run_of_skipn (ok : codeunit -> bool) (s : jsstring) :
  run_of ok (skipn (run_of ok s) s) = 0.
Proof.
  induction s as [| d s IH]; [reflexivity |]. cbn [run_of].
  destruct (ok d) eqn:E; [exact IH |]. cbn [skipn run_of]. now rewrite E.
Qed.

Lemma run_of_app (ok : codeunit -> bool) (x y : jsstring) :
  run_of ok x <= run_of ok (x ++ y).
Proof.
  induction x as [| d x IH]; [cbn [run_of]; lia |]. cbn [app run_of].
  destruct (ok d); lia.
Qed.

(** The greedy star of a class first ends behind the whole run. *)
Lemma star_class_run (ic ml neg : bool) (items : list class_item)
  (p : option codeunit) (s : jsstring) :
  let ok := fun d => xorb neg (in_class ic items d) in
  hd_error (ends ic ml (Star (Class neg items)) (p, s))
  = Some (last_unit p (firstn (run_of ok s) s), skipn (run_of ok s) s).
Proof.
  cbn zeta. revert p. induction s as [| d s IH]; intros p; rewrite ends_Star.
  - reflexivity.
  - change (ends ic ml (Class neg items) (p, d :: s))
      with (accepts (fun d => xorb neg (in_class ic items d)) (p, d :: s)).
    unfold accepts. cbn [snd run_of].
    destruct (xorb neg (in_class ic items d)) eqn:E; [| reflexivity].
    cbn [flat_map snd length]. rewrite app_nil_r.
    replace (length s <? S (length s)) with true
      by (symmetry; apply Nat.ltb_lt; lia).
    specialize (IH (Some d)).
    destruct (ends ic ml (Star (Class neg items)) (Some d, s)); [discriminate |].
    cbn [app hd_error firstn skipn last_unit] in *. exact IH.
Qed.

Lemma first_end_blanks (p : option codeunit) (s : jsstring) :
  first_end blanksPattern (p, s)
  = if 2 <=? run_of is_blank s
    then Some (last_unit p (firstn (run_of is_blank s) s),
               skipn (run_of is_blank s) s)
    else None.
Proof.
  unfold first_end.
  set (star := Star (Class false [CChar 32%N; CChar 9%N])).
  change (ends (ignoreCase blanksPattern) (multiline blanksPattern)
            (pattern blanksPattern) (p, s))
    with (flat_map (ends false false star)
            (flat_map (accepts is_blank) (accepts is_blank (p, s)))).
  destruct s as [| d0 s]; [reflexivity |].
  unfold accepts at 2. cbn [snd run_of].
  destruct (is_blank d0) eqn:E0; [| reflexivity].
  cbn [flat_map]. rewrite !app_nil_r.
  destruct s as [| d1 s]; [reflexivity |].
  unfold accepts. cbn [snd run_of].
  destruct (is_blank d1) eqn:E1; [| reflexivity].
  cbn [flat_map]. rewrite !app_nil_r.
  subst star. rewrite star_class_run.
  change (fun d => xorb false (in_class false [CChar 32%N; CChar 9%N] d))
    with is_blank.
  reflexivity.
Qed.

Lemma exec_blanks_None (p : option codeunit) (s : jsstring) :
  exec blanksPattern (p, s) = None -> run_of is_blank s <= 1.
Proof.
  unfold exec. rewrite first_end_blanks.
  destruct (2 <=? run_of is_blank s) eqn:E; [discriminate |].
  apply Nat.leb_gt in E. lia.
Qed.

Lemma first_end_blanks_hit (p p' : option codeunit) (m s : jsstring) :
  first_end blanksPattern (p, m ++ s) = Some (p', s) ->
  2 <= run_of is_blank (m ++ s) /\ run_of is_blank s = 0.
Proof.
  rewrite first_end_blanks.
  destruct (2 <=? run_of is_blank (m ++ s)) eqn:E; [| discriminate].
  apply Nat.leb_le in E. intros H. injection H as _ Hs.
  split; [exact E |]. rewrite <- Hs at 1. apply run_of_skipn.
Qed.

(** Behind the pass of the blanks pattern no two blanks are left in a
    row, and the text starts with a blank only where it did before. *)
Lemma blanks_single (p : option codeunit) (s : jsstring) (ps : list piece) :
  Scan blanksPattern p s ps ->
  blank_free (render [32%N] ps)
  /\ (run_of is_blank s = 0 -> run_of is_blank (render [32%N] ps) = 0).
Proof.
  intros Hscan.
  induction Hscan as [p H | p H | p d s ps H Hs IH | p d s ps H Hs IH
                     | p m s ps Hm H Hs IH].
  - cbn. split; [split; [lia | trivial] | trivial].
  - exfalso. revert H. now apply exec_consumes.
  - destruct IH as [IH1 IH2]. apply exec_blanks_None in H.
    rewrite render_Kept. cbn [run_of] in *.
    destruct (is_blank d) eqn:E.
    + assert (Hz : run_of is_blank s = 0) by lia.
      split; [| discriminate].
      apply every_suffix_cons; [| exact IH1].
      cbn [run_of]. rewrite E, (IH2 Hz). lia.
    + split; [| trivial].
      apply every_suffix_cons; [| exact IH1]. cbn [run_of]. rewrite E. lia.
  - exfalso. revert H. now apply exec_consumes.
  - destruct IH as [IH1 IH2]. apply first_end_blanks_hit in H.
    destruct H as [H2 H0]. rewrite render_Hit. cbn [app].
    split; [| intros Hz; lia].
    apply every_suffix_cons; [| exact IH1].
    change (run_of is_blank (32%N :: render [32%N] ps))
      with (S (run_of is_blank (render [32%N] ps))).
    rewrite (IH2 H0). lia.
Qed.

Lemma blank_free_factor (a t b : jsstring) :
  blank_free (a ++ t ++ b) -> blank_free t.
Proof.
  apply every_suffix_factor. intros x y H.
  pose proof (run_of_app is_blank x y). lia.
Qed.

(** *** White space at the two ends *)

Lemma trimStart_all (s : jsstring) :
  forallb is_white_space s = true -> trimStart s = [].
Proof.
  induction s as [| d s IH]; [reflexivity |]. cbn [forallb trimStart].
  intros H. apply andb_prop in H. destruct H as [-> H]. now apply IH.
Qed.

Lemma trimStart_fixed (s : jsstring) :
  match s with d :: _ => is_white_space d = false | [] => True end ->
  trimStart s = s.
Proof.
  destruct s as [| d s]; [reflexivity |]. cbn [trimStart]. now intros ->.
Qed.

Lemma trim_trim (s : jsstring) : trim (trim s) = trim s.
Proof.
  destruct (trim_visible s) as [H1 H2].
  unfold trim at 1. unfold trimEnd.
  rewrite (@trimStart_fixed _ H1), (@trimStart_fixed _ H2).
  apply rev_involutive.
Qed.

(** *** Texts without a match *)

Lemma scan_no_match (re : RegExp.t) (s : jsstring) :
  forall p, search re p s = false -> scan re p s 0 = map Kept s.
Proof.
  induction s as [| d s IH]; intros p H; rewrite search_unfold in H;
    apply orb_false_elim in H; destruct H as [H1 H2]; cbn [scan map].
  - now destruct (exec re (p, [])).
  - destruct (exec re (p, d :: s)); [discriminate |]. now rewrite (IH (Some d) H2).
Qed.

Lemma render_map_Kept (rep s : jsstring) : render rep (map Kept s) = s.
Proof.
  induction s as [| d s IH]; [reflexivity |].
  cbn [map]. now rewrite render_Kept, IH.
Qed.

Lemma replace_no_match (re : RegExp.t) (rep s : jsstring) :
  test re s = false -> replace re rep s = s.
Proof.
  intros H. unfold replace. rewrite (@scan_no_match re s None H).
  apply render_map_Kept.
Qed.

Lemma removals_no_match (l : list RegExp.t) (s : jsstring) :
  forallb (fun re => negb (test re s)) l = true ->
  fold_left (fun cleaned pattern => replace pattern [] cleaned) l s = s.
Proof.
  induction l as [| re l IH]; [reflexivity |]. cbn [forallb fold_left].
  intros H. apply andb_prop in H. destruct H as [H1 H2].
  apply negb_true_iff in H1. rewrite (@replace_no_match re [] s H1). now apply IH.
Qed.

(** *** White space only *)

Lemma render_units (re : RegExp.t) (rep : jsstring) (p : option codeunit)
  (s : jsstring) (ps : list piece) (d : codeunit) :
  Scan re p s ps -> In d (render rep ps) -> In d s \/ In d rep.
Proof.
  intros Hscan.
  induction Hscan as [p H | p H | p d0 s ps H Hs IH | p d0 s ps H Hs IH
                     | p m s ps Hm H Hs IH].
  - intros [].
  - rewrite render_Hit, app_nil_r. now right.
  - rewrite render_Kept. intros [-> | Hin]; [left; now left |].
    destruct (IH Hin); [left; now right | now right].
  - rewrite render_Hit, render_Kept. intros Hin.
    apply in_app_or in Hin. destruct Hin as [Hin | [-> | Hin]];
      [now right | left; now left |].
    destruct (IH Hin); [left; now right | now right].
  - rewrite render_Hit. intros Hin.
    apply in_app_or in Hin. destruct Hin as [Hin | Hin]; [now right |].
    destruct (IH Hin); [left; apply in_or_app; now right | now right].
Qed.

Lemma replace_white (re : RegExp.t) (rep s : jsstring) :
  forallb is_white_space rep = true -> forallb is_white_space s = true ->
  forallb is_white_space (replace re rep s) = true.
Proof.
  rewrite !forallb_forall. intros Hrep Hs d Hin. unfold replace in Hin.
  destruct (@render_units re rep None s _ d (@scan_spec re s None) Hin); auto.
Qed.

Lemma removals_white (l : list RegExp.t) (s : jsstring) :
  forallb is_white_space s = true ->
  forallb is_white_space
    (fold_left (fun cleaned pattern => replace pattern [] cleaned) l s) = true.
Proof.
  revert s. induction l as [| re l IH]; intros s H; [exact H |].
  cbn [fold_left]. apply IH. now apply replace_white.
Qed.

Lemma search_urlPattern_white (s : jsstring) :
  forallb is_white_space s = true ->
  forall p, search urlPattern p s = false.
Proof.
  induction s as [| d s IH]; intros H p; rewrite search_unfold, exec_urlPattern.
  - reflexivity.
  - cbn [forallb] in H. apply andb_prop in H. destruct H as [Hd H].
    unfold link_head. cbn [link_run]. rewrite (@link_step_ws 0 _ Hd).
    now apply IH.
Qed.

Lemma cleanEmailBody_white (s : jsstring) :
  forallb is_white_space s = true -> cleanEmailBody (Some s) = [].
Proof.
  intros H. destruct s as [| d rest]; [reflexivity |].
  cbn [cleanEmailBody].
  rewrite (replace_no_match urlPattern linkToken (d :: rest))
    by (now apply search_urlPattern_white).
  unfold trim. rewrite trimStart_all; [reflexivity |].
  apply replace_white; [reflexivity |].
  apply replace_white; [reflexivity |].
  apply replace_white; [reflexivity |].
  apply replace_white; [reflexivity |].
  now apply removals_white.
Qed.

(** The cleaned text is never longer than the body: a link gives way to
    the six code units of its token, a run of line feeds to two, a run
    of blanks to one, and the rest is removed. *)
Theorem cleanEmailBody_never_longer :
  forall rawBody,
    length (cleanEmailBody rawBody) <= length (or_else rawBody []).
Proof.
  intros [[| d rest] |]; [reflexivity | | reflexivity].
  cbn [cleanEmailBody or_else].
  etransitivity; [apply trim_length |].
  etransitivity; [apply replace_length; cbn; lia |].
  etransitivity; [apply replace_length; cbn; lia |].
  etransitivity; [apply replace_length; cbn; lia |].
  etransitivity; [apply replace_length; cbn; lia |].
  etransitivity; [apply removals_length |].
  apply replace_length. cbn. lia.
Qed.

(** The cleaned text neither starts nor ends with white space, and no
    two blanks (spaces, tabs) stand in a row in it. *)
Theorem cleanEmailBody_tidy :
  forall rawBody,
    let cleaned := cleanEmailBody rawBody in
    (forall d rest, cleaned = d :: rest -> is_white_space d = false)
    /\ (forall front d, cleaned = front ++ [d] -> is_white_space d = false)
    /\ (forall before d1 d2 after,
          cleaned = before ++ d1 :: d2 :: after ->
          is_blank d1 && is_blank d2 = false).
Proof.
  intros [[| d0 rest0] |]; cbn zeta;
    try (cbn [cleanEmailBody]; split; [| split]; intros;
         match goal with
         | H : [] = _ :: _ |- _ => discriminate H
         | H : [] = ?x ++ _ |- _ => now destruct x
         end).
  cbn [cleanEmailBody].
  set (s5 := replace newlinesPattern _ _).
  destruct (trim_visible (replace blanksPattern [32%N] s5)) as [V1 V2].
  destruct (replace_Scan blanksPattern [32%N] s5) as (ps & Hscan & R).
  pose proof (proj1 (@blanks_single _ _ _ Hscan)) as B. rewrite <- R in B.
  destruct (trim_factor (replace blanksPattern [32%N] s5)) as (a & b & E).
  rewrite E in B. apply blank_free_factor in B.
  set (cleaned := trim (replace blanksPattern [32%N] s5)) in *.
  clearbody cleaned. clear E R Hscan.
  split; [| split].
  - intros d rest Ec. rewrite Ec in V1. exact V1.
  - intros front d Ec. rewrite Ec, rev_app_distr in V2. exact V2.
  - intros before d1 d2 after Ec.
    pose proof (proj1 (every_suffix_split _ cleaned) B before _ Ec) as H.
    cbn [run_of] in H.
    destruct (is_blank d1); [| reflexivity].
    destruct (is_blank d2); [lia | reflexivity].
Qed.

Lemma cleanEmailBody_tidy_witness : is_white_space 72%N = false.
Proof.
  apply (proj1 (@cleanEmailBody_tidy (Some (u " Hi ")))) with (rest := u "i").
  vm_compute. reflexivity.
Defined.

(** A text in which none of the patterns of the cleaner matches
    anywhere, and which neither starts nor ends with white space, is
    its own cleaned text. *)
Theorem cleanEmailBody_fixed_point :
  forall s,
    forallb (fun re => negb (test re s)) cleaningPatterns = true ->
    trim s = s ->
    cleanEmailBody (Some s) = s.
Proof.
  intros s H Ht. destruct s as [| d rest]; [reflexivity |].
  unfold cleaningPatterns in H. cbn [forallb] in H.
  apply andb_prop in H. destruct H as [Hurl H].
  rewrite forallb_app in H. apply andb_prop in H. destruct H as [Hfoot H].
  cbn [forallb] in H.
  apply andb_prop in H. destruct H as [Hq H].
  apply andb_prop in H. destruct H as [Hw H].
  apply andb_prop in H. destruct H as [Hn H].
  apply andb_prop in H. destruct H as [Hb _].
  apply negb_true_iff in Hurl, Hq, Hw, Hn, Hb.
  cbn [cleanEmailBody].
  rewrite (@replace_no_match _ _ _ Hurl).
  unfold stripFooters. rewrite (@removals_no_match _ _ Hfoot).
  rewrite (@replace_no_match _ _ _ Hq), (@replace_no_match _ _ _ Hw),
    (@replace_no_match _ _ _ Hn), (@replace_no_match _ _ _ Hb).
  exact Ht.
Qed.

Lemma cleanEmailBody_fixed_point_witness :
  cleanEmailBody (Some (u "Lunch at noon")) = u "Lunch at noon".
Proof.
  apply (@cleanEmailBody_fixed_point (u "Lunch at noon")); vm_compute; reflexivity.
Defined.

(** A message whose text is white space only, or is missing, has
    nothing to show: the lists of its digest are empty, no action is
    required, and the summary is the snippet, or [No readable content]
    without one. *)
Theorem buildDigest_blank_text :
  forall emailContent,
    let body := EmailContent.body emailContent in
    let snippet := EmailContent.snippet emailContent in
    forallb is_white_space (or_else body (or_else snippet [])) = true ->
    let d := buildDigest emailContent in
    Digest.keyPoints d = []
    /\ Digest.actionItems d = []
    /\ Digest.dates d = []
    /\ Digest.amounts d = []
    /\ Digest.actionRequired d = false
    /\ Digest.summary d
       = capSummary (or_else snippet (u "No readable content")).
Proof.
  intros emailContent body snippet H d.
  assert (E : cleanedBodyOf emailContent = [])
    by (unfold cleanedBodyOf; now apply cleanEmailBody_white).
  unfold d, buildDigest.
  cbn [Digest.keyPoints Digest.actionItems Digest.dates Digest.amounts
       Digest.actionRequired Digest.summary].
  rewrite E. cbn [extractKeyInfo KeyInfo.keyPhrases KeyInfo.actionItems
                  KeyInfo.dates KeyInfo.amounts pickSummary].
  repeat split.
Qed.

Lemma buildDigest_blank_text_witness :
  Digest.summary
    (buildDigest
       (EmailContent.mk (Headers.mk None None None None)
          (Some [32; 10; 9]%N) None))
  = u "No readable content".
Proof.
  apply (@buildDigest_blank_text
           (EmailContent.mk (Headers.mk None None None None)
              (Some [32; 10; 9]%N) None)).
  reflexivity.
Defined.

End CleanerExtras.

(** ** Further properties of the extractor *)

Section ExtractorExtras.

Import RegExp Matching Text ClassifierSpec Extra.

(** *** Matched texts *)

Lemma factor_cons (x s : jsstring) (d : codeunit) :
  factor x s -> factor x (d :: s).
Proof.
  intros (a & b & ->). now exists (d :: a), b.
Qed.

Lemma factor_app (x s m : jsstring) : factor x s -> factor x (m ++ s).
Proof.
  intros (a & b & ->). exists (m ++ a), b. now rewrite app_assoc.
Qed.

Lemma factor_trans (x y s : jsstring) : factor x y -> factor y s -> factor x s.
Proof.
  intros (a & b & ->) (a' & b' & ->). exists (a' ++ a), (b ++ b').
  now rewrite <- !app_assoc.
Qed.

Lemma factor_In (x s : jsstring) (d : codeunit) : factor x s -> In d x -> In d s.
Proof.
  intros (a & b & ->) H. apply in_or_app. right. apply in_or_app. now left.
Qed.

Lemma trim_is_factor (s : jsstring) : factor (trim s) s.
Proof.
  destruct (trim_factor s) as (a & b & E). now exists a, b.
Qed.

Lemma hits_factor (re : RegExp.t) (p : option codeunit) (s : jsstring)
  (ps : list piece) (m : jsstring) :
  Scan re p s ps -> In m (hits ps) -> factor m s.
Proof.
  intros Hscan.
  induction Hscan as [p H | p H | p d s ps H Hs IH | p d s ps H Hs IH
                     | p m0 s ps Hm H Hs IH]; cbn [hits In].
  - intros [].
  - intros [<- | []]. now exists [], [].
  - intros Hin. now apply factor_cons, IH.
  - intros [<- | Hin]; [now exists [], (d :: s) |]. now apply factor_cons, IH.
  - intros [<- | Hin]; [now exists [], s |]. now apply factor_app, IH.
Qed.

Lemma hits_nonempty (re : RegExp.t) (p : option codeunit) (s : jsstring)
  (ps : list piece) (m : jsstring) :
  consumes (pattern re) = true -> Scan re p s ps -> In m (hits ps) -> m <> [].
Proof.
  intros Hc Hscan.
  induction Hscan as [p H | p H | p d s ps H Hs IH | p d s ps H Hs IH
                     | p m0 s ps Hm H Hs IH]; cbn [hits In].
  - intros [].
  - exfalso. revert H. now apply exec_consumes.
  - exact IH.
  - exfalso. revert H. now apply exec_consumes.
  - intros [<- | Hin]; [exact Hm | now apply IH].
Qed.

(** *** The pieces of a split *)

Lemma split_go_factor (re : RegExp.t) (s : jsstring) :
  forall p skip acc x,
    In x (split_go re p s skip acc) ->
    factor x (skipn skip s)
    \/ exists y z, x = rev acc ++ y /\ skipn skip s = y ++ z.
Proof.
  induction s as [| d s IH]; intros p skip acc x Hin.
  - cbn [split_go In] in Hin. destruct Hin as [<- | []].
    right. exists [], []. rewrite app_nil_r. now destruct skip.
  - cbn [split_go] in Hin. destruct skip as [| k].
    + cbn [skipn].
      destruct (exec re (p, d :: s)) as [[| k] |].
      * assert (Hrest : In x (split_go re (Some d) s 0 [d]) ->
                        factor x (d :: s)).
        { intros H. apply IH in H. cbn [skipn rev app] in H.
          destruct H as [H | (y & z & -> & ->)]; [now apply factor_cons |].
          now exists [], z. }
        destruct acc as [| a acc].
        -- apply IH in Hin. cbn [skipn rev app] in Hin.
           destruct Hin as [H | (y & z & -> & ->)];
             [left; now apply factor_cons |].
           right. now exists (d :: y), z.
        -- destruct Hin as [<- | Hin]; [| left; now apply Hrest].
           right. exists [], (d :: s). now rewrite app_nil_r.
      * destruct Hin as [<- | Hin].
        -- right. exists [], (d :: s). now rewrite app_nil_r.
        -- left. apply IH in Hin. cbn [rev app] in Hin.
           assert (Hs : factor (skipn k s) (d :: s)).
           { exists (d :: firstn k s), []. cbn [app].
             now rewrite app_nil_r, firstn_skipn. }
           destruct Hin as [H | (y & z & -> & E)].
           ++ exact (@factor_trans _ _ _ H Hs).
           ++ apply (@factor_trans _ (skipn k s) _); [| exact Hs].
              exists [], z. exact E.
      * apply IH in Hin. cbn [skipn rev] in Hin.
        destruct Hin as [H | (y & z & -> & ->)];
          [left; now apply factor_cons |].
        right. exists (d :: y), z. now rewrite <- app_assoc.
    + cbn [skipn]. now apply IH in Hin.
Qed.

Lemma split_factor (re : RegExp.t) (s x : jsstring) :
  In x (split re s) -> factor x s.
Proof.
  unfold split. destruct s as [| d s].
  - destruct (exec re (None, [])); [intros [] |].
    intros [<- | []]. now exists [], [].
  - intros H. apply split_go_factor in H. cbn [skipn rev app] in H.
    destruct H as [H | (y & z & -> & ->)]; [exact H |]. now exists [], z.
Qed.

(** *** Sentence breaks *)

Lemma first_end_sentenceBreak (p : option codeunit) (s : jsstring) :
  first_end sentenceBreak (p, s)
  = if 1 <=? run_of is_break s
    then Some (last_unit p (firstn (run_of is_break s) s),
               skipn (run_of is_break s) s)
    else None.
Proof.
  unfold first_end.
  set (star := Star (Class false [CChar 46%N; CChar 33%N; CChar 63%N; CChar 10%N])).
  change (ends (ignoreCase sentenceBreak) (multiline sentenceBreak)
            (pattern sentenceBreak) (p, s))
    with (flat_map (ends false false star) (accepts is_break (p, s))).
  destruct s as [| d0 s]; [reflexivity |].
  unfold accepts. cbn [snd run_of].
  destruct (is_break d0) eqn:E0; [| reflexivity].
  cbn [flat_map]. rewrite !app_nil_r.
  subst star. rewrite star_class_run.
  change (fun d => xorb false
                     (in_class false
                        [CChar 46%N; CChar 33%N; CChar 63%N; CChar 10%N] d))
    with is_break.
  reflexivity.
Qed.

Lemma exec_sentenceBreak_None (p : option codeunit) (d : codeunit)
  (s : jsstring) :
  exec sentenceBreak (p, d :: s) = None -> is_break d = false.
Proof.
  unfold exec. rewrite first_end_sentenceBreak. cbn [run_of].
  destruct (is_break d); [discriminate | reflexivity].
Qed.

Lemma split_go_break_free (s : jsstring) :
  forall p skip acc x,
    (forall d, In d acc -> is_break d = false) ->
    In x (split_go sentenceBreak p s skip acc) ->
    forall d, In d x -> is_break d = false.
Proof.
  induction s as [| d0 s IH]; intros p skip acc x Hacc Hin.
  - cbn [split_go In] in Hin. destruct Hin as [<- | []].
    intros d Hd. apply Hacc. now apply in_rev.
  - assert (Hnil : forall d, In d [] -> is_break d = false) by (intros d []).
    assert (Hrev : forall d, In d (rev acc) -> is_break d = false)
      by (intros d Hd; apply Hacc; now apply in_rev).
    cbn [split_go] in Hin. destruct skip as [| k]; [| exact (@IH _ _ _ _ Hacc Hin)].
    destruct (exec sentenceBreak (p, d0 :: s)) as [[| k] |] eqn:E.
    + exfalso. revert E. now apply exec_consumes.
    + destruct Hin as [<- | Hin]; [exact Hrev |]. exact (@IH _ _ _ _ Hnil Hin).
    + apply exec_sentenceBreak_None in E.
      refine (@IH _ _ _ _ _ Hin). intros d [<- | Hd]; [exact E | now apply Hacc].
Qed.

Lemma split_break_free (s x : jsstring) :
  In x (split sentenceBreak s) -> forall d, In d x -> is_break d = false.
Proof.
  unfold split. destruct s as [| d0 s].
  - destruct (exec sentenceBreak (None, [])); [intros [] |].
    intros [<- | []] d [].
  - apply split_go_break_free. intros d [].
Qed.

(** A sentence is a piece of the text between two breaks, without the
    white space at its ends, and longer than ten code units. *)
Lemma sentencesOf_spec (cleanedBody x : jsstring) :
  In x (sentencesOf cleanedBody) ->
  10 < length x
  /\ (forall d, In d x -> is_break d = false)
  /\ factor x cleanedBody
  /\ trim x = x.
Proof.
  unfold sentencesOf. rewrite filter_In, in_map_iff.
  intros [(piece & <- & Hp) Hlen]. apply Nat.ltb_lt in Hlen.
  split; [exact Hlen | split; [| split]].
  - intros d Hd. apply (@split_break_free _ _ Hp).
    exact (@factor_In _ _ _ (trim_is_factor piece) Hd).
  - exact (@factor_trans _ _ _ (trim_is_factor piece) (@split_factor _ _ _ Hp)).
  - apply trim_trim.
Qed.

(** *** The start of a key phrase *)

Lemma strip_exact (w : jsstring) :
  forall p s, is_some (strip false w (p, s)) = starts_with w s.
Proof.
  induction w as [| a w IH]; intros p s; [now destruct s |].
  cbn [strip snd starts_with]. destruct s as [| d s]; [reflexivity |].
  cbn [unit_eq]. destruct (a =? d)%N; [apply IH | reflexivity].
Qed.

Lemma exec_linkStart (p : option codeunit) (s : jsstring) :
  is_some (exec linkStart (p, s))
  = match p with
    | None => starts_with linkToken s
    | Some _ => false
    end.
Proof.
  rewrite is_some_exec.
  change (ends (ignoreCase linkStart) (multiline linkStart) (pattern linkStart)
            (p, s))
    with (flat_map (ends false false (seqs (map Char linkToken)))
            (guard (at_bol false (p, s)) (p, s))).
  destruct p as [d |]; cbn [at_bol fst andb guard flat_map]; [reflexivity |].
  rewrite app_nil_r, ends_chars, <- (strip_exact linkToken None s).
  now destruct (strip false linkToken (None, s)).
Qed.

Lemma test_linkStart (s : jsstring) :
  test linkStart s = starts_with linkToken s.
Proof.
  assert (H : forall text d, search linkStart (Some d) text = false).
  { induction text as [| d' text IH]; intros d;
      rewrite search_unfold, exec_linkStart.
    - reflexivity.
    - apply IH. }
  unfold test. rewrite search_unfold, exec_linkStart.
  destruct s as [| d rest]; [apply orb_false_r |]. rewrite H. apply orb_false_r.
Qed.

(** At most five action items: each one a sentence of the text, with no
    break in it and no white space at its ends, longer than ten code
    units, in which an action word stands. *)
Theorem extractKeyInfo_actionItems :
  forall cleanedBody,
    let items := KeyInfo.actionItems (extractKeyInfo cleanedBody) in
    length items <= 5
    /\ (forall x, In x items ->
          test actionKeywords x = true
          /\ 10 < length x
          /\ (forall d, In d x -> is_break d = false)
          /\ factor x cleanedBody
          /\ trim x = x).
Proof.
  intros [| d0 rest]; cbn zeta.
  - split; [cbn; lia | intros x []].
  - cbn [extractKeyInfo KeyInfo.actionItems]. split.
    + rewrite length_firstn. lia.
    + intros x Hx. apply In_firstn, filter_In in Hx. destruct Hx as [Hs Ht].
      split; [exact Ht |]. now apply sentencesOf_spec.
Qed.

Lemma extractKeyInfo_actionItems_witness :
  test actionKeywords (u "Please reply by Friday") = true.
Proof.
  apply (proj2 (@extractKeyInfo_actionItems
                  (u "Hello all. Please reply by Friday."))).
  vm_compute. tauto.
Defined.

(** At most three key phrases: each one a sentence of the text of more
    than 20 and fewer than 200 code units that does not start with the
    link token. *)
Theorem extractKeyInfo_keyPhrases :
  forall cleanedBody,
    let phrases := KeyInfo.keyPhrases (extractKeyInfo cleanedBody) in
    length phrases <= 3
    /\ (forall x, In x phrases ->
          20 < length x < 200
          /\ starts_with linkToken x = false
          /\ (forall d, In d x -> is_break d = false)
          /\ factor x cleanedBody
          /\ trim x = x).
Proof.
  intros [| d0 rest]; cbn zeta.
  - split; [cbn; lia | intros x []].
  - cbn [extractKeyInfo KeyInfo.keyPhrases]. split.
    + rewrite length_firstn. lia.
    + intros x Hx. apply In_firstn, filter_In in Hx. destruct Hx as [Hx Hl].
      apply filter_In in Hx. destruct Hx as [Hs Hlen].
      apply andb_prop in Hlen. destruct Hlen as [H1 H2].
      apply Nat.ltb_lt in H1, H2. apply negb_true_iff in Hl.
      rewrite test_linkStart in Hl.
      destruct (@sentencesOf_spec _ _ Hs) as (_ & Hb & Hf & Ht).
      repeat split; assumption.
Qed.

Lemma extractKeyInfo_keyPhrases_witness :
  20 < length (u "The meeting moved to the large room") < 200.
Proof.
  apply (proj2 (@extractKeyInfo_keyPhrases
                  (u "[link] is where the agenda stands. The meeting moved to the large room."))).
  vm_compute. tauto.
Defined.

(** At most five amounts, no two the same, none empty; every amount and
    every date stands in the text as it is. *)
Theorem extractKeyInfo_found_in_text :
  forall cleanedBody,
    let info := extractKeyInfo cleanedBody in
    length (KeyInfo.amounts info) <= 5
    /\ NoDup (KeyInfo.amounts info)
    /\ (forall a, In a (KeyInfo.amounts info) ->
          a <> [] /\ factor a cleanedBody)
    /\ (forall d, In d (KeyInfo.dates info) -> factor d cleanedBody).
Proof.
  intros [| d0 rest]; cbn zeta.
  - cbn. repeat split; try lia; try constructor; intros ? [].
  - set (s := d0 :: rest).
    assert (Ea : KeyInfo.amounts (extractKeyInfo s)
                 = firstn 5 (uniq (hits (scan amountPattern None s 0)))).
    { unfold s. cbn [extractKeyInfo KeyInfo.amounts].
      rewrite <- match_all_hits.
      now destruct (match_all amountPattern (d0 :: rest)). }
    assert (Ed : KeyInfo.dates (extractKeyInfo s)
                 = firstn 5 (uniq (collectDates s))) by reflexivity.
    rewrite Ea, Ed. clearbody s. split; [| split; [| split]].
    + rewrite length_firstn. lia.
    + apply NoDup_firstn, uniq_go_NoDup.
    + intros a Ha. apply In_firstn, uniq_go_In in Ha. destruct Ha as [Ha _].
      split.
      * refine (@hits_nonempty amountPattern None s _ a _
                  (@scan_spec amountPattern s None) Ha). reflexivity.
      * exact (@hits_factor amountPattern None s _ a
                 (@scan_spec amountPattern s None) Ha).
    + intros d Hd. apply In_firstn, uniq_go_In in Hd. destruct Hd as [Hd _].
      rewrite collectDates_families in Hd.
      apply in_concat in Hd. destruct Hd as (l & Hl & Hd).
      apply in_map_iff in Hl. destruct Hl as (re & <- & Hre).
      apply in_map_iff in Hd. destruct Hd as (m & <- & Hm).
      apply (@factor_trans _ m _); [apply trim_is_factor |].
      exact (@hits_factor re None s _ m (@scan_spec re s None) Hm).
Qed.

Lemma extractKeyInfo_found_in_text_witness :
  u "$250.00" <> []
  /\ factor (u "$250.00") (u "Invoice #123 due $250.00 by 3/15/2025").
Proof.
  apply (proj1 (proj2 (proj2 (@extractKeyInfo_found_in_text
                                (u "Invoice #123 due $250.00 by 3/15/2025"))))).
  vm_compute. tauto.
Defined.

End ExtractorExtras.

(** ** What the later passes cannot bring back *)

Section HeadFree.

Import RegExp Matching ClassifierSpec Extra.

Variable head : jsstring -> bool.

Hypothesis head_nil : head [] = false.

(** Whether a head stands at the start of [x ++ y] does not depend on
    [y] when [y] is empty or starts with white space. *)
Hypothesis head_cut :
  forall x y z,
    match y with [] => True | d :: _ => is_white_space d = true end ->
    head (x ++ y) = true -> head (x ++ z) = true.

Lemma head_white (s : jsstring) :
  match s with [] => True | d :: _ => is_white_space d = true end ->
  head s = false.
Proof.
  intros Hs. destruct (head s) eqn:E; [| reflexivity].
  apply (head_cut [] s [] Hs) in E. cbn [app] in E. congruence.
Qed.

Lemma head_lifts_refl (s : jsstring) : head_lifts head s s.
Proof. now intros x. Qed.

Lemma head_lifts_cons (d : codeunit) (s out : jsstring) :
  head_lifts head s out -> head_lifts head (d :: s) (d :: out).
Proof.
  intros H x.
  change (x ++ d :: out) with (x ++ [d] ++ out).
  change (x ++ d :: s) with (x ++ [d] ++ s).
  rewrite !app_assoc. apply H.
Qed.

Lemma head_lifts_drop (m s out : jsstring) :
  match s with [] => True | d :: _ => is_white_space d = true end ->
  head_lifts head s out -> head_lifts head (m ++ s) out.
Proof.
  intros Hs H x Hx. apply (head_cut x s (m ++ s) Hs). now apply H.
Qed.

Lemma head_lifts_blank (s rep out : jsstring) :
  match rep with [] => False | d :: _ => is_white_space d = true end ->
  head_lifts head s (rep ++ out).
Proof.
  intros Hrep x Hx. destruct rep as [| r0 rep]; [contradiction |].
  now apply (head_cut x ((r0 :: rep) ++ out) s Hrep).
Qed.

Lemma head_free_cons (d : codeunit) (s out : jsstring) :
  head_free head out -> head_lifts head s out -> head (d :: s) = false ->
  head_free head (d :: out).
Proof.
  intros Ho Hl Hd. apply every_suffix_cons; [| exact Ho].
  destruct (head (d :: out)) eqn:E; [| reflexivity].
  apply (head_lifts_cons d) in Hl. specialize (Hl [] E). cbn [app] in Hl.
  congruence.
Qed.

Lemma head_free_blank_app (rep out : jsstring) :
  forallb is_white_space rep = true -> head_free head out ->
  head_free head (rep ++ out).
Proof.
  induction rep as [| d rep IH]; [trivial |]. cbn [forallb app]. intros H Ho.
  apply andb_prop in H. destruct H as [Hd Hrep].
  apply every_suffix_cons; [| now apply IH].
  now apply head_white.
Qed.

(** The pass of a pattern that ends with [$] and matches wherever the
    head stands leaves no head. *)
Lemma head_free_first_pass (re : RegExp.t) (p : option codeunit)
  (s : jsstring) (ps : list piece) :
  eol_tail (pattern re) = true ->
  (forall q t, is_some (exec re (q, t)) = head t) ->
  Scan re p s ps ->
  head_free head (render [] ps) /\ head_lifts head s (render [] ps).
Proof.
  intros He Hexec.
  assert (Hnone : forall q t, exec re (q, t) = None -> head t = false).
  { intros q t E. rewrite <- (Hexec q), E. reflexivity. }
  induction 1 as [p Hx | p Hx | p d s ps Hx _ [IH1 IH2] | p d s ps Hx _ [IH1 IH2]
                 | p m s ps Hm Hf _ [IH1 IH2]].
  - split; [split; [exact head_nil | exact I] | apply head_lifts_refl].
  - split; [split; [exact head_nil | exact I] | apply head_lifts_refl].
  - rewrite render_Kept. split; [| now apply head_lifts_cons].
    apply head_free_cons with (s := s); [exact IH1 | exact IH2 |].
    exact (Hnone _ _ Hx).
  - rewrite render_Hit, render_Kept. cbn [app].
    assert (Hd : head (d :: s) = false).
    { apply head_white. apply exec_Some in Hx.
      destruct Hx as (m & s' & E & Hlen & Hf).
      destruct m; [| discriminate]. cbn [app] in E. subst s'.
      pose proof (@first_end_eol _ _ _ _ He Hf) as Heol.
      now apply line_terminator_white_space. }
    split; [| now apply head_lifts_cons].
    apply head_free_cons with (s := s); [exact IH1 | exact IH2 | exact Hd].
  - rewrite render_Hit. cbn [app]. split; [exact IH1 |].
    apply head_lifts_drop; [| exact IH2].
    pose proof (@first_end_eol _ _ _ _ He Hf) as Heol.
    destruct s; [trivial | now apply line_terminator_white_space].
Qed.

(** Removing what a pattern that ends with [$] matches brings no head. *)
Lemma head_free_removal (re : RegExp.t) (p : option codeunit) (s : jsstring)
  (ps : list piece) :
  eol_tail (pattern re) = true ->
  Scan re p s ps -> head_free head s ->
  head_free head (render [] ps) /\ head_lifts head s (render [] ps).
Proof.
  intros He.
  induction 1 as [p Hx | p Hx | p d s ps Hx _ IH | p d s ps Hx _ IH
                 | p m s ps Hm Hf _ IH]; intros Hs.
  - split; [exact Hs | apply head_lifts_refl].
  - split; [exact Hs | apply head_lifts_refl].
  - destruct (IH (@every_suffix_tail _ _ _ Hs)) as [IH1 IH2].
    rewrite render_Kept. split; [| now apply head_lifts_cons].
    apply head_free_cons with (s := s); [exact IH1 | exact IH2 |].
    now apply every_suffix_head in Hs.
  - destruct (IH (@every_suffix_tail _ _ _ Hs)) as [IH1 IH2].
    rewrite render_Hit, render_Kept. cbn [app].
    split; [| now apply head_lifts_cons].
    apply head_free_cons with (s := s); [exact IH1 | exact IH2 |].
    now apply every_suffix_head in Hs.
  - destruct (IH (@every_suffix_app _ m s Hs)) as [IH1 IH2].
    rewrite render_Hit. cbn [app]. split; [exact IH1 |].
    apply head_lifts_drop; [| exact IH2].
    pose proof (@first_end_eol _ _ _ _ He Hf) as Heol.
    destruct s; [trivial | now apply line_terminator_white_space].
Qed.

(** Putting white space in the place of matches brings no head. *)
Lemma head_free_blanking (re : RegExp.t) (rep : jsstring) (p : option codeunit)
  (s : jsstring) (ps : list piece) :
  rep <> [] -> forallb is_white_space rep = true ->
  Scan re p s ps -> head_free head s ->
  head_free head (render rep ps) /\ head_lifts head s (render rep ps).
Proof.
  intros Hne Hws.
  assert (Hrep : match rep with
                 | [] => False
                 | d :: _ => is_white_space d = true
                 end).
  { destruct rep as [| d rep]; [congruence |]. cbn [forallb] in Hws.
    now apply andb_prop in Hws. }
  induction 1 as [p Hx | p Hx | p d s ps Hx _ IH | p d s ps Hx _ IH
                 | p m s ps Hm Hf _ IH]; intros Hs.
  - split; [exact Hs | apply head_lifts_refl].
  - rewrite render_Hit. cbn [render flat_map].
    split; [now apply head_free_blank_app | now apply head_lifts_blank].
  - destruct (IH (@every_suffix_tail _ _ _ Hs)) as [IH1 IH2].
    rewrite render_Kept. split; [| now apply head_lifts_cons].
    apply head_free_cons with (s := s); [exact IH1 | exact IH2 |].
    now apply every_suffix_head in Hs.
  - destruct (IH (@every_suffix_tail _ _ _ Hs)) as [IH1 IH2].
    rewrite render_Hit, render_Kept.
    split; [| now apply head_lifts_blank].
    apply head_free_blank_app; [assumption |].
    apply head_free_cons with (s := s); [exact IH1 | exact IH2 |].
    now apply every_suffix_head in Hs.
  - destruct (IH (@every_suffix_app _ m s Hs)) as [IH1 IH2].
    rewrite render_Hit.
    split; [now apply head_free_blank_app | now apply head_lifts_blank].
Qed.

Lemma head_free_removals (l : list RegExp.t) (s : jsstring) :
  forallb (fun re => eol_tail (pattern re)) l = true ->
  head_free head s ->
  head_free head
    (fold_left (fun cleaned pattern => replace pattern [] cleaned) l s).
Proof.
  revert s. induction l as [| re l IH]; intros s H Hs; [exact Hs |].
  cbn [forallb] in H. apply andb_prop in H. destruct H as [He Hl].
  cbn [fold_left]. apply (IH _ Hl).
  destruct (replace_Scan re [] s) as (ps & Hscan & ->).
  now apply (proj1 (head_free_removal He Hscan Hs)).
Qed.

Lemma head_free_factor (a t b : jsstring) :
  head_free head (a ++ t ++ b) -> head_free head t.
Proof.
  apply every_suffix_factor. intros x y H.
  destruct (head x) eqn:E; [| reflexivity].
  rewrite <- (app_nil_r x) in E. apply (head_cut x [] y I) in E. congruence.
Qed.

End HeadFree.

Section Unsubscribe.

Import RegExp Matching ClassifierSpec Extra.

Lemma strip_prev (ic : bool) (w s : jsstring) (p q : option codeunit) :
  is_some (strip ic w (p, s)) = is_some (strip ic w (q, s)).
Proof.
  destruct w as [| a w]; [reflexivity |]. cbn [strip snd].
  destruct s as [| d s]; [reflexivity |]. now destruct (unit_eq ic a d).
Qed.

Lemma word_head_cut (w : jsstring) :
  forallb (fun a => (33 <=? a)%N && (a <=? 127)%N) w = true ->
  forall x y z,
    match y with [] => True | d :: _ => is_white_space d = true end ->
    word_head w (x ++ y) = true -> word_head w (x ++ z) = true.
Proof.
  unfold word_head. intros Hw x y z Hy. generalize (@None N).
  revert x. induction w as [| a w IH]; intros x p; [reflexivity |].
  cbn [forallb] in Hw. apply andb_prop in Hw. destruct Hw as [Ha Hw].
  apply andb_prop in Ha. destruct Ha as [Ha1 Ha2].
  apply N.leb_le in Ha1, Ha2.
  destruct x as [| d x]; cbn [app strip snd].
  - destruct y as [| d y]; [discriminate |].
    rewrite (@unit_eq_visible_ws a d) by (lia || assumption). discriminate.
  - destruct (unit_eq true a d); [apply (IH Hw) | discriminate].
Qed.

Lemma rest_of_line_can (ic : bool) (c : cursor) :
  is_some (hd_error (ends ic true rest_of_line c)) = true.
Proof.
  destruct c as [p s].
  destruct (star_dot_eol ic p s) as (c' & Hin & Heol).
  assert (H : In c' (ends ic true rest_of_line (p, s))).
  { unfold rest_of_line. apply ends_Seq_In. exists c'. split; [exact Hin |].
    cbn [ends]. rewrite Heol. now left. }
  now destruct (ends ic true rest_of_line (p, s)).
Qed.

(** The footer pattern matches wherever the word starts. *)
Lemma exec_unsubscribeFooter (p : option codeunit) (s : jsstring) :
  is_some (exec unsubscribeFooter (p, s)) = word_head (u "unsubscribe") s.
Proof.
  rewrite is_some_exec. unfold word_head.
  rewrite (strip_prev true (u "unsubscribe") s None p).
  change (ends (ignoreCase unsubscribeFooter) (multiline unsubscribeFooter)
            (pattern unsubscribeFooter) (p, s))
    with (flat_map (ends true true rest_of_line)
            (ends true true (seqs (map Char (u "unsubscribe"))) (p, s))).
  rewrite ends_chars.
  destruct (strip true (u "unsubscribe") (p, s)) as [c' |]; [| reflexivity].
  cbn [flat_map is_some]. rewrite app_nil_r. apply rest_of_line_can.
Qed.

Lemma cleanEmailBody_unsubscribe_free (rawBody : field) :
  head_free (word_head (u "unsubscribe")) (cleanEmailBody rawBody).
Proof.
  set (head := word_head (u "unsubscribe")).
  assert (Hnil : head [] = false) by reflexivity.
  assert (Hcut : forall x y z,
             match y with [] => True | d :: _ => is_white_space d = true end ->
             head (x ++ y) = true -> head (x ++ z) = true)
    by (apply word_head_cut; reflexivity).
  assert (Hempty : head_free head []) by (split; [exact Hnil | exact I]).
  destruct rawBody as [[| d rest] |]; [exact Hempty | | exact Hempty].
  cbn [cleanEmailBody].
  set (s1 := replace urlPattern linkToken (d :: rest)).
  assert (Efoot : stripFooters s1
                  = fold_left (fun cleaned pattern => replace pattern [] cleaned)
                      (tl footerPatterns) (replace unsubscribeFooter [] s1))
    by reflexivity.
  rewrite Efoot. clearbody s1.
  assert (F1 : head_free head (replace unsubscribeFooter [] s1)).
  { destruct (replace_Scan unsubscribeFooter [] s1) as (ps & Hscan & ->).
    refine (proj1 (@head_free_first_pass head Hnil Hcut unsubscribeFooter
                     None s1 ps _ _ Hscan)); [reflexivity |].
    intros q t. apply exec_unsubscribeFooter. }
  set (s1' := replace unsubscribeFooter [] s1) in *. clearbody s1'.
  assert (F2 : head_free head
                 (fold_left (fun cleaned pattern => replace pattern [] cleaned)
                    (tl footerPatterns) s1')).
  { apply (@head_free_removals head Hcut); [reflexivity | exact F1]. }
  set (s2 := fold_left _ (tl footerPatterns) s1') in *. clearbody s2.
  assert (F3 : head_free head (replace quotedPattern [] s2)).
  { destruct (replace_Scan quotedPattern [] s2) as (ps & Hscan & ->).
    refine (proj1 (@head_free_removal head Hcut quotedPattern None s2 ps
                     _ Hscan F2)). reflexivity. }
  set (s3 := replace quotedPattern [] s2) in *. clearbody s3.
  assert (F4 : head_free head (replace wrotePattern [] s3)).
  { destruct (replace_Scan wrotePattern [] s3) as (ps & Hscan & ->).
    refine (proj1 (@head_free_removal head Hcut wrotePattern None s3 ps
                     _ Hscan F3)). reflexivity. }
  set (s4 := replace wrotePattern [] s3) in *. clearbody s4.
  assert (F5 : head_free head (replace newlinesPattern [10; 10]%N s4)).
  { destruct (replace_Scan newlinesPattern [10; 10]%N s4) as (ps & Hscan & ->).
    refine (proj1 (@head_free_blanking head Hnil Hcut newlinesPattern
                     [10; 10]%N None s4 ps _ _ Hscan F4));
      [discriminate | reflexivity]. }
  set (s5 := replace newlinesPattern [10; 10]%N s4) in *. clearbody s5.
  assert (F6 : head_free head (replace blanksPattern [32%N] s5)).
  { destruct (replace_Scan blanksPattern [32%N] s5) as (ps & Hscan & ->).
    refine (proj1 (@head_free_blanking head Hnil Hcut blanksPattern
                     [32%N] None s5 ps _ _ Hscan F5));
      [discriminate | reflexivity]. }
  set (s6 := replace blanksPattern [32%N] s5) in *. clearbody s6.
  destruct (trim_factor s6) as (a & b & E). rewrite E in F6.
  exact (@head_free_factor head Hcut a (trim s6) b F6).
Qed.

(** The word [unsubscribe], in any case, stands nowhere in a cleaned
    text: the first of the footer patterns removes it with the rest of
    its line, and no later pass brings it back. *)
Theorem cleanEmailBody_no_unsubscribe :
  forall rawBody,
    let cleaned := cleanEmailBody rawBody in
    hd_error footerPatterns = Some unsubscribeFooter
    /\ test unsubscribeFooter cleaned = false
    /\ (forall before after p,
          cleaned = before ++ after ->
          strip true (u "unsubscribe") (p, after) = None).
Proof.
  intros rawBody cleaned.
  pose proof (cleanEmailBody_unsubscribe_free rawBody) as F. fold cleaned in F.
  clearbody cleaned. split; [reflexivity | split].
  - unfold test. generalize (@None N).
    induction cleaned as [| d s IH]; intros p;
      rewrite search_unfold, exec_unsubscribeFooter.
    + reflexivity.
    + rewrite (every_suffix_head _ _ F). apply IH.
      exact (@every_suffix_tail _ _ _ F).
  - intros before after p E.
    pose proof (proj1 (every_suffix_split _ cleaned) F before after E) as H.
    cbn beta in H. unfold word_head in H.
    rewrite (strip_prev true (u "unsubscribe") after None p) in H.
    now destruct (strip true (u "unsubscribe") (p, after)).
Qed.

Lemma cleanEmailBody_no_unsubscribe_witness :
  strip true (u "unsubscribe")
    (None, cleanEmailBody (Some (u "Hi there UnSubscribe here"))) = None.
Proof.
  apply (proj2 (proj2 (@cleanEmailBody_no_unsubscribe
                         (Some (u "Hi there UnSubscribe here")))))
    with (before := []).
  reflexivity.
Defined.

End Unsubscribe.

(** ** From a read to the next prompt *)

Section ReadThenAsk.

Import Agent.

Variable fetch : jsstring -> EmailContent.t + jsstring.

Lemma digestParts_cons (i : nat) (c : CachedDigest) (cs : list CachedDigest) :
  exists line lines, digestParts i (c :: cs) = line :: lines.
Proof.
  cbn [digestParts]. unfold digestLines. cbn [app]. eauto.
Qed.

(** A message that was read, from the cache or from the mailbox, is
    under discussion: the context block starts with the header of the
    discussed messages, and the next query is sent with the block in
    front of it. *)
Theorem readEmailTool_feeds_context :
  forall messageId now store query,
    (forall message,
        snd (readEmailTool fetch messageId now store) <> ReadError message) ->
    query <> [] ->
    let store' := fst (readEmailTool fetch messageId now store) in
    (exists rest,
        getContextForLLM store' = u "CURRENTLY DISCUSSED EMAILS:" ++ rest)
    /\ enrich query None store' = withContext (getContextForLLM store') query.
Proof.
  intros messageId now store query Hok Hq store'.
  destruct (readEmailTool_cached_after fetch messageId now store Hok)
    as (cached & Hc & Hact & _).
  fold store' in Hc, Hact.
  assert (Hin : In cached (getActiveDigests store')).
  { apply getActiveDigests_In with (id := messageId); [| exact Hc].
    destruct (addActiveEmails_one messageId store') as (_ & H & _).
    cbn zeta in H. rewrite Hact in H. exact H. }
  assert (Hctx : exists rest,
             getContextForLLM store' = u "CURRENTLY DISCUSSED EMAILS:" ++ rest).
  { unfold getContextForLLM, activeParts.
    destruct (getActiveDigests store') as [| c cs]; [destruct Hin |].
    destruct (digestParts_cons 0 c cs) as (line & lines & ->).
    cbn [app join]. eauto. }
  split; [exact Hctx |].
  destruct Hctx as (rest & E). unfold enrich.
  destruct query as [| d q]; [congruence |]. rewrite E. reflexivity.
Qed.

End ReadThenAsk.

Lemma readEmailTool_feeds_context_witness :
  exists rest,
    getContextForLLM
      (fst (Agent.readEmailTool
              (fun _ => inl (EmailContent.mk (Headers.mk None None None None)
                               (Some (u "Hello")) None))
              (u "m1") 5%N constructor))
    = u "CURRENTLY DISCUSSED EMAILS:" ++ rest.
Proof.
  apply (@readEmailTool_feeds_context
           (fun _ => inl (EmailContent.mk (Headers.mk None None None None)
                            (Some (u "Hello")) None))
           (u "m1") 5%N constructor (u "and then?")).
  - intros message. vm_compute. discriminate.
  - discriminate.
Defined.

(** ** The store under the agent *)

Section AgentStore.

Import Agent.

(** The tool and the entry point change the store through its methods
    only: from a store the methods can build they lead to such a store
    again, with its fifty cached digests at most, as long as the agent
    itself does so between the two. *)
Theorem agent_keeps_store_reachable :
  (forall (fetch : jsstring -> EmailContent.t + jsstring) messageId now store,
      reachable store ->
      let store' := fst (readEmailTool fetch messageId now store) in
      reachable store' /\ length (emailCache store') <= 50)
  /\ (forall (invoke : AgentInput -> ContextManager.t -> ContextManager.t * Outcome),
         (forall input s, reachable s -> reachable (fst (invoke input s))) ->
         forall query resume now1 now2 store,
           reachable store ->
           let store' := fst (handleQuery invoke query resume now1 now2 store) in
           reachable store' /\ length (emailCache store') <= 50).
Proof.
  assert (Hcap : forall s, reachable s ->
                           reachable s /\ length (emailCache s) <= 50).
  { intros s Hs. split; [exact Hs |].
    destruct (reachable_cache_ok Hs) as (_ & H & _). exact H. }
  split.
  - intros fetch messageId now store Hs. cbn zeta. apply Hcap.
    unfold readEmailTool.
    destruct (getCachedEmail messageId store) as [cached |].
    + cbn [fst]. now apply reach_addActiveEmails.
    + destruct (fetch messageId) as [emailContent | message]; cbn [fst].
      * now apply reach_addActiveEmails, reach_cacheEmail.
      * exact Hs.
  - intros invoke Hinv query resume now1 now2 store Hs. cbn zeta. apply Hcap.
    unfold handleQuery.
    set (input := match resume with
                  | Some (interruptId, decision) =>
                      ResumeCommand interruptId decision
                  | None => UserMessage (enrich query resume store)
                  end).
    specialize (Hinv input store Hs).
    destruct (invoke input store) as [s' [response | error]]; cbn [fst] in *.
    + destruct query as [| d q]; [exact Hinv |].
      destruct (lastContent response); [| exact Hinv].
      now apply reach_addExchange.
    + exact Hinv.
Qed.

End AgentStore.

Lemma agent_keeps_store_reachable_witness :
  reachable
    (fst (Agent.handleQuery
            (fun _ s =>
               (fst (Agent.readEmailTool (fun _ => inr (u "offline"))
                       (u "m1") 5%N s),
                Agent.Returned None))
            (u "read it") None 1%N 2%N constructor))
  /\ length
       (emailCache
          (fst (Agent.handleQuery
                  (fun _ s =>
                     (fst (Agent.readEmailTool (fun _ => inr (u "offline"))
                             (u "m1") 5%N s),
                      Agent.Returned None))
                  (u "read it") None 1%N 2%N constructor))) <= 50.
Proof.
  apply (proj2 agent_keeps_store_reachable).
  - intros input s Hs. cbn [fst].
    now apply (proj1 agent_keeps_store_reachable).
  - apply reach_new.
Defined.
